(** * Hand-Controlled Predator: the simulation core of [FishGame]

    A shallow embedding of the per-frame game logic of the React/p5
    component [FishGame] ([updateGameLogic], [spawnEnemy],
    [spawnParticles], [spawnShockwave], [drawShockwaves]) together with the
    properties of the collision resolver, the spawner and the shockwave
    effect; then of the rest of the frame ([drawParticles], the shake
    block of [p.draw], the damage flash, [handleHandInput],
    [updateAudioDynamics], [drawWaterAtmosphere]), of [resetGame],
    [p.setup] and [p.windowResized], and of the game-over effect of [App]
    (survival time and high scores).

    Conventions of the embedding.
    - A JavaScript [number] is a rational ([Q]).  Sums, products and
      interpolations are read over the rationals.  A quotient handed to
      [Math.floor] is rounded first, as the division of two doubles is, to
      the nearest double with ties to even ([Number_div]): [Math.floor] is
      not continuous, and the rounding decides which integer comes out.
      The score only ever receives [Math.floor] results and is an integer
      ([Z]).
    - The [useRef] cells of the game form one record, [Session]; every
      function of the source that mutates them is a function on [Session].
      [lastVideoTime], the ref of the hand input, sits beside it in
      [Tracking]; what a frame finds in [handLandmarkerRef] and [videoRef]
      is a [Camera].
    - The p5 instance [p] that the source passes to each function is a
      record, [P5.t]: the frame clock, the canvas size, the library
      functions the source calls on it ([dist], [atan2], [cos], [sin],
      [noise]) and the stream of uniform draws behind [p.random].  The pure
      helpers [lerp], [map] and [constrain] are written out as p5 defines
      them.  [Math.random] is a second stream of draws.
    - The callbacks received as props ([setScore], [setFinalSize],
      [setCauseOfDeath], [setGameState]) and [playSound] are recorded in a
      log of calls, most recent first.
    - The drawing calls do not touch the refs modelled here and are left
      out.  The ambient decorations (plankton, bubbles) live in two refs
      of their own, which [Scene] puts beside the [Session]. *)

From Stdlib Require Import QArith Qpower Qround Qminmax Qabs ZArith Lqa Lia Bool.
From Stdlib Require String.
From Stdlib Require Import Sorted.
From stdpp Require Import base list.

Local Open Scope Q_scope.

(** ** JavaScript comparisons and [Math] functions on numbers *)

Definition Qltb (a b : Q) : bool := negb (Qle_bool b a).
Definition Qgtb (a b : Q) : bool := Qltb b a.
Definition Qleb (a b : Q) : bool := Qle_bool a b.
Definition Qgeb (a b : Q) : bool := Qle_bool b a.

Definition Math_max (a b : Q) : Q := Qmax a b.
Definition Math_min (a b : Q) : Q := Qmin a b.
Definition Math_floor (a : Q) : Z := Qfloor a.

(** ** The [/] of two doubles

    IEEE 754 binary64, which is what a JavaScript [number] is: 53
    significant bits, exponents from [-1022] to [1023], round to nearest
    with ties to even, gradual underflow.  [Number_exponent q] is the
    exponent of the binade of [q]: the [e] with [2^e <= |q| < 2^(e + 1)].
    [Number_round q] is the double nearest to [q], for [q] of magnitude at
    most [Number_MAX_VALUE], the largest double; past the doubles
    JavaScript yields [Infinity], which is not a rational. *)
Definition Number_exponent (q : Q) : Z :=
  let n := Z.abs (Qnum q) in
  let d := Z.pos (Qden q) in
  let e := (Z.log2 n - Z.log2 d)%Z in
  if (if 0 <=? e then d * 2 ^ e <=? n else d <=? n * 2 ^ (- e))%Z
  then e else (e - 1)%Z.

Definition Number_ulp (q : Q) : Q :=
  2 ^ (Z.max (Number_exponent q) (-1022) - 52).

Definition Number_round (q : Q) : Q :=
  if Qeq_bool q 0 then 0
  else
    let ulp := Number_ulp q in
    let m := Qabs q / ulp in
    let f := Qfloor m in
    let r := m - inject_Z f in
    let n :=
      if Qltb r (1 # 2) then f
      else if Qgtb r (1 # 2) then (f + 1)%Z
      else if Z.even f then f else (f + 1)%Z in
    (if Qltb q 0 then -1 else 1) * (inject_Z n * ulp).

Definition Number_MAX_VALUE : Q := (2 ^ 53 - 1) * 2 ^ 971.

(** [a / b] on doubles [a] and [b], [b] not zero. *)
Definition Number_div (a b : Q) : Q := Number_round (a / b).

(** ** types.ts *)

Inductive GameState := LOADING | MENU | PLAYING | GAME_OVER.

Inductive FishVariant := Prey | Hunter | Dasher | Titan | Viper | Player.

Definition FishVariant_eqb (a b : FishVariant) : bool :=
  match a, b with
  | Prey, Prey | Hunter, Hunter | Dasher, Dasher
  | Titan, Titan | Viper, Viper | Player, Player => true
  | _, _ => false
  end.

(** An RGB triple, [[number, number, number]]. *)
Definition RGB : Type := Q * Q * Q.

(** [id] is the string ['player'] for the player and
    [Math.random().toString()] for an enemy; the embedding keeps the number
    that was drawn instead of its decimal rendering. *)
Inductive EntityId := PlayerId | RandomId (r : Q).

Module FishEntity.
Record t := mk {
  id : EntityId;
  x : Q;
  y : Q;
  size : Q;
  vx : Q;
  vy : Q;
  color : RGB;
  speed : Q;
  noiseOffset : Q;
  variant : FishVariant
}.

Definition with_pos (e : t) (x' y' : Q) : t :=
  mk (id e) x' y' (size e) (vx e) (vy e) (color e) (speed e)
     (noiseOffset e) (variant e).

Definition with_vel (e : t) (vx' vy' : Q) : t :=
  mk (id e) (x e) (y e) (size e) vx' vy' (color e) (speed e)
     (noiseOffset e) (variant e).

Definition with_size (e : t) (size' : Q) : t :=
  mk (id e) (x e) (y e) size' (vx e) (vy e) (color e) (speed e)
     (noiseOffset e) (variant e).

(** The fields that the per-frame update never assigns. *)
Definition static (e : t) : EntityId * Q * Q * RGB * FishVariant * Q :=
  (id e, size e, speed e, color e, variant e, noiseOffset e).
End FishEntity.

Module Particle.
Record t := mk {
  x : Q;
  y : Q;
  size : Q;
  vy : Q;
  alpha : Q;
  color : option RGB
}.
End Particle.

(** The [Shockwave] interface of the component. *)
Module Shockwave.
Record t := mk {
  x : Q;
  y : Q;
  maxRadius : Q;
  currentRadius : Q;
  alpha : Q;
  color : RGB;
  lineWidth : Q
}.
End Shockwave.

(** ** The p5 instance

    [t] is what the game logic reads from the instance [p] during one
    frame.  [draws k] is the [k]-th value produced by the generator behind
    [p.random], a number in [[0, 1)]. *)
Module P5.
Record t := mk {
  millis : Q;
  deltaTime : Q;
  width : Q;
  height : Q;
  dist : Q -> Q -> Q -> Q -> Q;
  atan2 : Q -> Q -> Q;
  cos : Q -> Q;
  sin : Q -> Q;
  noise : Q -> Q;
  draws : nat -> Q
}.

(** [p.constrain(n, low, high)] is [Math.max(Math.min(n, high), low)]. *)
Definition constrain (n low high : Q) : Q :=
  Math_max (Math_min n high) low.

(** [p.lerp(start, stop, amt)] is [amt * (stop - start) + start]. *)
Definition lerp (start stop amt : Q) : Q :=
  amt * (stop - start) + start.

(** [p.map(n, start1, stop1, start2, stop2)], without [withinBounds]. *)
Definition map (n start1 stop1 start2 stop2 : Q) : Q :=
  (n - start1) / (stop1 - start1) * (stop2 - start2) + start2.

(** [p.random()], [p.random(max)], [p.random(min, max)] and
    [p.random(array)] as functions of the raw draw [u]. *)
Definition random_max (u max : Q) : Q := u * max.

Definition random_between (u min max : Q) : Q :=
  if Qgtb min max then u * (min - max) + max else u * (max - min) + min.

Definition random_choice {A : Type} (u : Q) (choices : list A) (d : A) : A :=
  nth (Z.to_nat (Math_floor (u * inject_Z (Z.of_nat (length choices)))))
      choices d.
End P5.

(** ** The refs of the component *)

Inductive Sound := Eat | Hurt.

(** Calls made on the props and on the audio layer. *)
Inductive Call :=
| SetScore (score : Z)
| SetFinalSize (size : Z)
| SetCauseOfDeath (cause : FishVariant)
| SetGameState (state : GameState)
| PlaySound (type : Sound).

(** [randomCount] and [mathRandomCount] are the numbers of values already
    taken from the generators behind [p.random] and [Math.random]. *)
Record Session := mkSession {
  scaleFactor : Q;
  player : FishEntity.t;
  enemies : list FishEntity.t;
  particles : list Particle.t;
  shockwaves : list Shockwave.t;
  scoreRef : Z;
  lastSpawnTime : Q;
  dangerIntensity : Q;
  playerHealth : Q;
  invulnTimer : Q;
  screenShake : Q;
  damageEffectVal : Q;
  randomCount : nat;
  mathRandomCount : nat;
  calls : list Call
}.

Definition maxHealth : Q := 100.

Definition set_player (s : Session) (v : FishEntity.t) : Session :=
  mkSession (scaleFactor s) v (enemies s) (particles s) (shockwaves s)
    (scoreRef s) (lastSpawnTime s) (dangerIntensity s) (playerHealth s)
    (invulnTimer s) (screenShake s) (damageEffectVal s) (randomCount s)
    (mathRandomCount s) (calls s).

Definition set_enemies (s : Session) (v : list FishEntity.t) : Session :=
  mkSession (scaleFactor s) (player s) v (particles s) (shockwaves s)
    (scoreRef s) (lastSpawnTime s) (dangerIntensity s) (playerHealth s)
    (invulnTimer s) (screenShake s) (damageEffectVal s) (randomCount s)
    (mathRandomCount s) (calls s).

Definition set_particles (s : Session) (v : list Particle.t) : Session :=
  mkSession (scaleFactor s) (player s) (enemies s) v (shockwaves s)
    (scoreRef s) (lastSpawnTime s) (dangerIntensity s) (playerHealth s)
    (invulnTimer s) (screenShake s) (damageEffectVal s) (randomCount s)
    (mathRandomCount s) (calls s).

Definition set_shockwaves (s : Session) (v : list Shockwave.t) : Session :=
  mkSession (scaleFactor s) (player s) (enemies s) (particles s) v
    (scoreRef s) (lastSpawnTime s) (dangerIntensity s) (playerHealth s)
    (invulnTimer s) (screenShake s) (damageEffectVal s) (randomCount s)
    (mathRandomCount s) (calls s).

Definition set_scoreRef (s : Session) (v : Z) : Session :=
  mkSession (scaleFactor s) (player s) (enemies s) (particles s)
    (shockwaves s) v (lastSpawnTime s) (dangerIntensity s) (playerHealth s)
    (invulnTimer s) (screenShake s) (damageEffectVal s) (randomCount s)
    (mathRandomCount s) (calls s).

Definition set_lastSpawnTime (s : Session) (v : Q) : Session :=
  mkSession (scaleFactor s) (player s) (enemies s) (particles s)
    (shockwaves s) (scoreRef s) v (dangerIntensity s) (playerHealth s)
    (invulnTimer s) (screenShake s) (damageEffectVal s) (randomCount s)
    (mathRandomCount s) (calls s).

Definition set_dangerIntensity (s : Session) (v : Q) : Session :=
  mkSession (scaleFactor s) (player s) (enemies s) (particles s)
    (shockwaves s) (scoreRef s) (lastSpawnTime s) v (playerHealth s)
    (invulnTimer s) (screenShake s) (damageEffectVal s) (randomCount s)
    (mathRandomCount s) (calls s).

Definition set_playerHealth (s : Session) (v : Q) : Session :=
  mkSession (scaleFactor s) (player s) (enemies s) (particles s)
    (shockwaves s) (scoreRef s) (lastSpawnTime s) (dangerIntensity s) v
    (invulnTimer s) (screenShake s) (damageEffectVal s) (randomCount s)
    (mathRandomCount s) (calls s).

Definition set_invulnTimer (s : Session) (v : Q) : Session :=
  mkSession (scaleFactor s) (player s) (enemies s) (particles s)
    (shockwaves s) (scoreRef s) (lastSpawnTime s) (dangerIntensity s)
    (playerHealth s) v (screenShake s) (damageEffectVal s) (randomCount s)
    (mathRandomCount s) (calls s).

Definition set_screenShake (s : Session) (v : Q) : Session :=
  mkSession (scaleFactor s) (player s) (enemies s) (particles s)
    (shockwaves s) (scoreRef s) (lastSpawnTime s) (dangerIntensity s)
    (playerHealth s) (invulnTimer s) v (damageEffectVal s) (randomCount s)
    (mathRandomCount s) (calls s).

Definition set_damageEffectVal (s : Session) (v : Q) : Session :=
  mkSession (scaleFactor s) (player s) (enemies s) (particles s)
    (shockwaves s) (scoreRef s) (lastSpawnTime s) (dangerIntensity s)
    (playerHealth s) (invulnTimer s) (screenShake s) v (randomCount s)
    (mathRandomCount s) (calls s).

Definition set_randomCount (s : Session) (v : nat) : Session :=
  mkSession (scaleFactor s) (player s) (enemies s) (particles s)
    (shockwaves s) (scoreRef s) (lastSpawnTime s) (dangerIntensity s)
    (playerHealth s) (invulnTimer s) (screenShake s) (damageEffectVal s) v
    (mathRandomCount s) (calls s).

Definition set_mathRandomCount (s : Session) (v : nat) : Session :=
  mkSession (scaleFactor s) (player s) (enemies s) (particles s)
    (shockwaves s) (scoreRef s) (lastSpawnTime s) (dangerIntensity s)
    (playerHealth s) (invulnTimer s) (screenShake s) (damageEffectVal s)
    (randomCount s) v (calls s).

Definition set_calls (s : Session) (v : list Call) : Session :=
  mkSession (scaleFactor s) (player s) (enemies s) (particles s)
    (shockwaves s) (scoreRef s) (lastSpawnTime s) (dangerIntensity s)
    (playerHealth s) (invulnTimer s) (screenShake s) (damageEffectVal s)
    (randomCount s) (mathRandomCount s) v.

(** ** A state monad over [Session] *)

Definition M (A : Type) : Type := Session -> A * Session.

Definition ret {A : Type} (a : A) : M A := fun s => (a, s).

Definition bind {A B : Type} (m : M A) (k : A -> M B) : M B :=
  fun s => let r := m s in k (fst r) (snd r).

Definition get {A : Type} (f : Session -> A) : M A := fun s => (f s, s).

Definition modify (f : Session -> Session) : M unit := fun s => (tt, f s).

Definition when (b : bool) (m : M unit) : M unit :=
  if b then m else ret tt.

Definition exec {A : Type} (m : M A) (s : Session) : Session := snd (m s).

Declare Scope session_scope.
Delimit Scope session_scope with session.
Notation "x <- m ;; k" := (bind m (fun x => k))
  (at level 100, m at next level, right associativity) : session_scope.
Notation "m ;;; k" := (bind m (fun _ => k))
  (at level 100, right associativity) : session_scope.

(** Calls recorded in the log. *)
Definition call (c : Call) : M unit :=
  modify (fun s => set_calls s (c :: calls s)).

Definition setScore (score : Z) : M unit := call (SetScore score).
Definition setFinalSize (size : Z) : M unit := call (SetFinalSize size).
Definition setCauseOfDeath (v : FishVariant) : M unit :=
  call (SetCauseOfDeath v).
Definition setGameState (g : GameState) : M unit := call (SetGameState g).
Definition playSound (type : Sound) : M unit := call (PlaySound type).

(** [p.random] in its four forms: each takes the next value of the stream. *)
Definition random (p : P5.t) : M Q :=
  fun s => (P5.draws p (randomCount s), set_randomCount s (S (randomCount s))).

Definition random_max (p : P5.t) (max : Q) : M Q :=
  bind (random p) (fun u => ret (P5.random_max u max)).

Definition random_between (p : P5.t) (min max : Q) : M Q :=
  bind (random p) (fun u => ret (P5.random_between u min max)).

Definition random_choice {A : Type} (p : P5.t) (choices : list A) (d : A)
  : M A :=
  bind (random p) (fun u => ret (P5.random_choice u choices d)).

(** [for (let i = n - 1; i >= 0; i--) body], threading a loop-carried local. *)
Fixpoint for_down {A : Type} (n : nat) (body : nat -> A -> M A) (a : A)
  : M A :=
  match n with
  | O => ret a
  | S i => bind (body i a) (for_down i body)
  end.

Local Open Scope session_scope.

(** ** FishGame.tsx: effects

    [spawnParticles] (lines 671-683), [spawnShockwave] (lines 630-641) and
    the state updates of [drawShockwaves] (lines 643-669). *)

Fixpoint spawnParticles_loop (p : P5.t) (sf x y : Q) (color : RGB)
  (count : nat) : M unit :=
  match count with
  | O => ret tt
  | S count' =>
      size <- random_between p 3 8 ;;
      vy <- random_between p (-3) 3 ;;
      modify (fun s => set_particles s
        (particles s ++
         [Particle.mk x y (size * sf) (vy * sf) 255 (Some color)])) ;;;
      spawnParticles_loop p sf x y color count'
  end.

Definition spawnParticles (p : P5.t) (x y : Q) (color : RGB) (count : nat)
  : M unit :=
  sf <- get scaleFactor ;;
  spawnParticles_loop p sf x y color count.

Definition spawnShockwave (p : P5.t) (x y : Q) (color : RGB) : M unit :=
  sf <- get scaleFactor ;;
  r <- random_between p 80 120 ;;
  modify (fun s => set_shockwaves s
    (shockwaves s ++
     [Shockwave.mk x y (r * sf) (10 * sf) 200 color (8 * sf)])).

(** The three assignments that [drawShockwaves] makes to a shockwave:
    [currentRadius += (maxRadius - currentRadius) * 0.15 + (1 * sf)],
    [alpha -= 10], [lineWidth *= 0.9]. *)
Definition advance (sf : Q) (sw : Shockwave.t) : Shockwave.t :=
  Shockwave.mk (Shockwave.x sw) (Shockwave.y sw) (Shockwave.maxRadius sw)
    (Shockwave.currentRadius sw +
     ((Shockwave.maxRadius sw - Shockwave.currentRadius sw) * 0.15
      + 1 * sf))
    (Shockwave.alpha sw - 10)
    (Shockwave.color sw)
    (Shockwave.lineWidth sw * 0.9).

(** [sw.alpha <= 0 || sw.lineWidth < 0.5]. *)
Definition faded (sw : Shockwave.t) : bool :=
  Qleb (Shockwave.alpha sw) 0 || Qltb (Shockwave.lineWidth sw) 0.5.

(** One iteration of the loop of [drawShockwaves]; the p5 drawing calls
    ([stroke], [strokeWeight], [circle]) leave the refs alone and are
    omitted. *)
Definition drawShockwaves_iteration (sf : Q) (i : nat) (_ : unit) : M unit :=
  sws <- get shockwaves ;;
  match sws !! i with
  | None => ret tt
  | Some sw =>
      let sw := advance sf sw in
      modify (fun s => set_shockwaves s (<[i := sw]> (shockwaves s))) ;;;
      when (faded sw)
        (modify (fun s => set_shockwaves s (delete i (shockwaves s))))
  end.

Definition drawShockwaves (p : P5.t) : M unit :=
  sf <- get scaleFactor ;;
  n <- get (fun s => length (shockwaves s)) ;;
  for_down n (drawShockwaves_iteration sf) tt.

(** ** FishGame.tsx: the spawner ([spawnEnemy], lines 565-628) *)

Definition preyColors : list RGB :=
  [(0, 255, 100); (0, 200, 255); (255, 100, 200); (255, 255, 0);
   (200, 200, 255)].
Definition hunterColors : list RGB := [(255, 50, 50); (255, 120, 0)].
Definition dasherColors : list RGB :=
  [(0, 255, 255); (200, 255, 255); (255, 255, 0)].
Definition viperColors : list RGB :=
  [(150, 255, 0); (180, 200, 50); (100, 200, 100)].
Definition titanColors : list RGB :=
  [(50, 70, 90); (80, 50, 50); (30, 30, 40)].

(** [const isPrey = p.random() > 0.4], as a function of the draw. *)
Definition isPrey (u : Q) : bool := Qgtb u 0.4.

(** The [if (rand < 0.35) ... else if (rand < 0.65) ... else if
    (rand < 0.85) ... else ...] cascade of the predator branch. *)
Definition predatorVariant (rand : Q) : FishVariant :=
  if Qltb rand 0.35 then Hunter
  else if Qltb rand 0.65 then Dasher
  else if Qltb rand 0.85 then Viper
  else Titan.

(** The variant spawned from the two draws. *)
Definition spawnVariant (u rand : Q) : FishVariant :=
  if isPrey u then Prey else predatorVariant rand.

Section Host.

(** The stream of values behind [Math.random]. *)
Variable Math_random : nat -> Q.

Definition Math_random_next : M Q :=
  fun s => (Math_random (mathRandomCount s),
            set_mathRandomCount s (S (mathRandomCount s))).

Definition spawnEnemy (p : P5.t) : M unit :=
  sf <- get scaleFactor ;;
  u <- random p ;;
  pSize <- get (fun s => FishEntity.size (player s)) ;;
  drawn <-
    (if isPrey u then
       size <- random_between p (pSize * 0.3) (pSize * 0.8) ;;
       let size := P5.constrain size (10 * sf) (300 * sf) in
       color <- random_choice p preyColors (0, 0, 0) ;;
       speed <- random_between p 3 6 ;;
       ret (size, color, speed * sf, Prey)
     else
       rand <- random p ;;
       match predatorVariant rand with
       | Hunter =>
           size <- random_between p (pSize * 1.1) (pSize * 2.0) ;;
           color <- random_choice p hunterColors (0, 0, 0) ;;
           speed <- random_between p 2 4 ;;
           ret (size, color, speed * sf, Hunter)
       | Dasher =>
           size <- random_between p (pSize * 1.0) (pSize * 1.4) ;;
           color <- random_choice p dasherColors (0, 0, 0) ;;
           speed <- random_between p 5 7 ;;
           ret (size, color, speed * sf, Dasher)
       | Viper =>
           size <- random_between p (pSize * 1.1) (pSize * 1.6) ;;
           color <- random_choice p viperColors (0, 0, 0) ;;
           speed <- random_between p 3 5 ;;
           ret (size, color, speed * sf, Viper)
       | _ =>
           size <- random_between p (pSize * 1.8) (pSize * 3.0) ;;
           color <- random_choice p titanColors (0, 0, 0) ;;
           speed <- random_between p 0.5 1.5 ;;
           ret (size, color, speed * sf, Titan)
       end) ;;
  let size := fst (fst (fst drawn)) in
  let color := snd (fst (fst drawn)) in
  let speed := snd (fst drawn) in
  let variant := snd drawn in
  y <- random_between p (50 * sf) (P5.height p - 50 * sf) ;;
  side <- random p ;;
  let fromLeft := Qgtb side 0.5 in
  id <- Math_random_next ;;
  noiseOffset <- random_max p 1000 ;;
  modify (fun s => set_enemies s
    (enemies s ++
     [FishEntity.mk (RandomId id)
        (if fromLeft then - size * 2 else P5.width p + size * 2)
        y size
        (if fromLeft then speed else - speed) 0
        color speed noiseOffset variant])).

(** ** FishGame.tsx: behaviour and collisions

    [updateGameLogic] (lines 412-563), cut into the blocks of its body.
    Division by the scale factor is division of rationals; the scale
    factor of a canvas, [min (width, height) / 800], is positive. *)

(** [detectionRange], [chaseSpeedMultiplier] and [steerStrength] after the
    per-variant overrides (lines 447-463). *)
Definition detectionRange (v : FishVariant) (sf : Q) : Q :=
  match v with
  | Dasher => 600 * sf
  | Titan => 500 * sf
  | Viper => 450 * sf
  | _ => 400 * sf
  end.

Definition chaseSpeedMultiplier (v : FishVariant) : Q :=
  match v with
  | Dasher => 2.2
  | Titan => 0.8
  | Viper => 1.6
  | _ => 1.3
  end.

Definition steerStrength (v : FishVariant) : Q :=
  match v with
  | Dasher => 0.04
  | Titan => 0.05
  | Viper => 0.12
  | _ => 0.08
  end.

(** [const actuallyPredator = e.size > player.current.size] (line 465). *)
Definition actuallyPredator (e pl : FishEntity.t) : bool :=
  Qgtb (FishEntity.size e) (FishEntity.size pl).

(** The guard of the chase branch (line 467). *)
Definition chasing (e pl : FishEntity.t) (distToPlayer sf : Q) : bool :=
  actuallyPredator e pl
  && Qltb distToPlayer (detectionRange (FishEntity.variant e) sf).

(** The titan block at the head of the chase branch (lines 468-474): the
    pull on the player's position and the added screen shake. *)
Definition titanPull (p : P5.t) (sf : Q) (e : FishEntity.t)
  (distToPlayer : Q) : M unit :=
  pl <- get player ;;
  let pullStrength := 0.4 * sf in
  let angleToTitan :=
    P5.atan2 p (FishEntity.y e - FishEntity.y pl)
               (FishEntity.x e - FishEntity.x pl) in
  modify (fun s => set_player s
    (FishEntity.with_pos (player s)
       (FishEntity.x (player s) + P5.cos p angleToTitan * pullStrength)
       (FishEntity.y (player s)))) ;;;
  modify (fun s => set_player s
    (FishEntity.with_pos (player s)
       (FishEntity.x (player s))
       (FishEntity.y (player s) + P5.sin p angleToTitan * pullStrength))) ;;;
  when (Qltb distToPlayer (200 * sf))
    (modify (fun s => set_screenShake s (screenShake s + 0.2))).

(** The chase branch (lines 467-495): returns the enemy with its new
    velocity and the running maximum of the danger level. *)
Definition chase (p : P5.t) (currentTime sf : Q) (e : FishEntity.t)
  (distToPlayer maxDanger : Q) : M (FishEntity.t * Q) :=
  let detectionRange := detectionRange (FishEntity.variant e) sf in
  when (FishVariant_eqb (FishEntity.variant e) Titan)
    (titanPull p sf e distToPlayer) ;;;
  let danger :=
    P5.constrain (P5.map distToPlayer detectionRange (100 * sf) 0 1) 0 1 in
  let maxDanger := if Qgtb danger maxDanger then danger else maxDanger in
  pl <- get player ;;
  let angle :=
    P5.atan2 p (FishEntity.y pl - FishEntity.y e)
               (FishEntity.x pl - FishEntity.x e) in
  let chaseSpeed :=
    FishEntity.speed e * chaseSpeedMultiplier (FishEntity.variant e) in
  let playerIsDashing := Qgtb (FishEntity.speed pl) (15 * sf) in
  let trackingStrength :=
    if playerIsDashing then 0.015
    else steerStrength (FishEntity.variant e) in
  let targetVx := P5.cos p angle * chaseSpeed in
  let targetVy := P5.sin p angle * chaseSpeed in
  let oscillation := P5.sin p (currentTime * 0.01) * (4 * sf) in
  let isViper := FishVariant_eqb (FishEntity.variant e) Viper in
  let targetVx :=
    if isViper then targetVx + - P5.sin p angle * oscillation
    else targetVx in
  let targetVy :=
    if isViper then targetVy + P5.cos p angle * oscillation
    else targetVy in
  ret (FishEntity.with_vel e
         (P5.lerp (FishEntity.vx e) targetVx trackingStrength)
         (P5.lerp (FishEntity.vy e) targetVy trackingStrength),
       maxDanger).

(** The wander branch (lines 496-508). *)
Definition wander (p : P5.t) (currentTime sf : Q) (e : FishEntity.t)
  : FishEntity.t :=
  let yNoise :=
    P5.noise p (FishEntity.noiseOffset e + currentTime * 0.0005) in
  let speedNoise :=
    P5.noise p (FishEntity.noiseOffset e + 1000 + currentTime * 0.001) in
  let driftY := P5.map yNoise 0 1 (-1.5 * sf) (1.5 * sf) in
  let speedMult := P5.map speedNoise 0 1 0.8 1.2 in
  let intendedDir : Q := if Qgtb (FishEntity.vx e) 0 then 1 else -1 in
  let wanderSpeed :=
    if FishVariant_eqb (FishEntity.variant e) Titan
    then FishEntity.speed e * 0.5 else FishEntity.speed e in
  FishEntity.with_vel e
    (P5.lerp (FishEntity.vx e) (intendedDir * wanderSpeed * speedMult) 0.05)
    (P5.lerp (FishEntity.vy e) driftY 0.05).

(** The collision test (line 513), on the distance measured at the head
    of the iteration. *)
Definition colliding (pl e : FishEntity.t) (distToPlayer : Q) : bool :=
  Qltb distToPlayer
    (FishEntity.size pl * 0.6 + FishEntity.size e * 0.6).

(** The consume branch (lines 515-523) for the enemy [e] held at index
    [i]. *)
Definition consume (p : P5.t) (sf : Q) (i : nat) (e : FishEntity.t)
  : M unit :=
  modify (fun s => set_player s
    (FishEntity.with_size (player s)
       (FishEntity.size (player s) + FishEntity.size e * 0.1))) ;;;
  modify (fun s => set_scoreRef s
    (scoreRef s + Math_floor (Number_div (FishEntity.size e) sf))%Z) ;;;
  modify (fun s => set_playerHealth s (playerHealth s + 10)) ;;;
  modify (fun s => set_playerHealth s
    (Math_min (playerHealth s) maxHealth)) ;;;
  score <- get scoreRef ;;
  setScore score ;;;
  modify (fun s => set_enemies s (delete i (enemies s))) ;;;
  spawnParticles p (FishEntity.x e) (FishEntity.y e) (FishEntity.color e)
    15 ;;;
  spawnShockwave p (FishEntity.x e) (FishEntity.y e) (FishEntity.color e) ;;;
  playSound Eat.

(** [const damage = e.variant === 'titan' ? 60 : 35]. *)
Definition damageOf (v : FishVariant) : Q :=
  if FishVariant_eqb v Titan then 60 else 35.

(** The damage branch (lines 525-543). *)
Definition damage (p : P5.t) (sf : Q) (e : FishEntity.t) : M unit :=
  t <- get invulnTimer ;;
  when (Qleb t 0)
    (let damage := damageOf (FishEntity.variant e) in
     modify (fun s => set_playerHealth s (playerHealth s - damage)) ;;;
     modify (fun s => set_damageEffectVal s 1.0) ;;;
     let baseImpact :=
       FishEntity.size e / sf * 0.8 + FishEntity.speed e / sf * 2.0 in
     modify (fun s => set_screenShake s
       (Math_min (baseImpact * sf) (50 * sf))) ;;;
     modify (fun s => set_invulnTimer s 1500) ;;;
     pl <- get player ;;
     spawnParticles p (FishEntity.x pl) (FishEntity.y pl) (255, 0, 0) 20 ;;;
     playSound Hurt ;;;
     h <- get playerHealth ;;
     when (Qleb h 0)
       (pl <- get player ;;
        setFinalSize (Math_floor (Number_div (FishEntity.size pl) sf)) ;;;
        setCauseOfDeath (FishEntity.variant e) ;;;
        setGameState GAME_OVER)).

(** [e.x < -300 * sf || e.x > p.width + 300 * sf] (line 547). *)
Definition offscreen (p : P5.t) (sf : Q) (e : FishEntity.t) : bool :=
  Qltb (FishEntity.x e) (-300 * sf)
  || Qgtb (FishEntity.x e) (P5.width p + 300 * sf).

(** The steering part of an iteration: chase or wander, from the distance
    measured at the head of the iteration. *)
Definition steer (p : P5.t) (currentTime sf : Q) (e : FishEntity.t)
  (distToPlayer maxDanger : Q) : M (FishEntity.t * Q) :=
  pl <- get player ;;
  if chasing e pl distToPlayer sf
  then chase p currentTime sf e distToPlayer maxDanger
  else ret (wander p currentTime sf e, maxDanger).

(** [e.x += e.vx; e.y += e.vy]. *)
Definition move (e : FishEntity.t) : FishEntity.t :=
  FishEntity.with_pos e
    (FishEntity.x e + FishEntity.vx e)
    (FishEntity.y e + FishEntity.vy e).

(** The collision block of an iteration (lines 513-545); it reads the
    player's size as it is after the earlier iterations of the tick. *)
Definition resolveCollision (p : P5.t) (sf : Q) (i : nat)
  (e : FishEntity.t) (distToPlayer : Q) : M unit :=
  pl <- get player ;;
  when (colliding pl e distToPlayer)
    (if Qgeb (FishEntity.size pl) (FishEntity.size e)
     then consume p sf i e
     else damage p sf e).

(** The off-screen block that ends an iteration (lines 547-549). *)
Definition pruneOffscreen (p : P5.t) (sf : Q) (i : nat) (e : FishEntity.t)
  : M unit :=
  when (offscreen p sf e)
    (modify (fun s => set_enemies s (delete i (enemies s)))).

(** One iteration of the enemy loop of [updateGameLogic] (lines 444-549),
    for index [i].  [e] is a reference to the array element in the source:
    its new velocity and position are written back to the array before the
    collision block may splice it.  The loop only visits indices below the
    current length, so the [None] case is never reached from it. *)
Definition updateGameLogic_iteration (p : P5.t) (currentTime sf : Q)
  (i : nat) (maxDanger : Q) : M Q :=
  es <- get enemies ;;
  match es !! i with
  | None => ret maxDanger
  | Some e =>
      pl <- get player ;;
      let distToPlayer :=
        P5.dist p (FishEntity.x pl) (FishEntity.y pl)
                  (FishEntity.x e) (FishEntity.y e) in
      steered <- steer p currentTime sf e distToPlayer maxDanger ;;
      let e := move (fst steered) in
      let maxDanger := snd steered in
      modify (fun s => set_enemies s (<[i := e]> (enemies s))) ;;;
      resolveCollision p sf i e distToPlayer ;;;
      pruneOffscreen p sf i e ;;;
      ret maxDanger
  end.

(** The dynamic spawn interval (lines 427-433), from the score and the
    number of live enemies. *)
Definition activeSpawnInterval (score : Z) (alive : nat) : Q :=
  let activeSpawnInterval := Math_max 600 (1500 - inject_Z score * 5) in
  if (alive <? 8)%nat then 300
  else if (alive <? 15)%nat then Math_min activeSpawnInterval 800
  else activeSpawnInterval.

(** The spawn step of [updateGameLogic] (lines 435-438). *)
Definition spawnStep (p : P5.t) (currentTime : Q) : M unit :=
  score <- get scoreRef ;;
  alive <- get (fun s => length (enemies s)) ;;
  last <- get lastSpawnTime ;;
  when (Qgtb (currentTime - last) (activeSpawnInterval score alive))
    (spawnEnemy p ;;;
     modify (fun s => set_lastSpawnTime s currentTime)).

(** The timer and regeneration steps at the head of [updateGameLogic]
    (lines 417-424). *)
Definition tickTimers (deltaTime : Q) : M unit :=
  t <- get invulnTimer ;;
  when (Qgtb t 0)
    (modify (fun s => set_invulnTimer s (invulnTimer s - deltaTime))) ;;;
  h <- get playerHealth ;;
  t <- get invulnTimer ;;
  when (Qltb h maxHealth && Qleb t 0)
    (modify (fun s => set_playerHealth s (playerHealth s + 0.05)) ;;;
     modify (fun s => set_playerHealth s
       (Math_min (playerHealth s) maxHealth))).

(** The ambient bubble emitted at the end of [updateGameLogic]
    (lines 554-562). *)
Definition ambientParticle (p : P5.t) (sf : Q) : M unit :=
  u <- random p ;;
  when (Qltb u 0.1)
    (x <- random_max p (P5.width p) ;;
     size <- random_between p 1 4 ;;
     vy <- random_between p 1 3 ;;
     modify (fun s => set_particles s
       (particles s ++
        [Particle.mk x (P5.height p + 20) (size * sf) (vy * sf) 100 None]))).

(** The enemy loop of [updateGameLogic]:
    [for (let i = enemies.current.length - 1; i >= 0; i--)], with
    [maxDanger] starting at 0. *)
Definition updateGameLogic_loop (p : P5.t) (currentTime sf : Q) : M Q :=
  n <- get (fun s => length (enemies s)) ;;
  for_down n (updateGameLogic_iteration p currentTime sf) 0.

Definition updateGameLogic (p : P5.t) : M unit :=
  let currentTime := P5.millis p in
  let deltaTime := P5.deltaTime p in
  sf <- get scaleFactor ;;
  tickTimers deltaTime ;;;
  spawnStep p currentTime ;;;
  maxDanger <- updateGameLogic_loop p currentTime sf ;;
  modify (fun s => set_dangerIntensity s
    (P5.lerp (dangerIntensity s) maxDanger 0.1)) ;;;
  ambientParticle p sf.

(** The simulation step of [p.draw] (lines 345-348): the logic runs only
    while the game state is [PLAYING]. *)
Definition drawLogic (gameState : GameState) (p : P5.t) : M unit :=
  match gameState with
  | PLAYING => updateGameLogic p
  | _ => ret tt
  end.

End Host.

(** ** Concrete instances used by the examples

    [demoP5] is a p5 instance on an 1280 x 800 canvas (scale factor 1).
    Its entities are placed on one horizontal line: there the Euclidean
    distance is the absolute difference of the abscissae, the direction from
    one point to the other is 0 or a half turn, and [demo_cos] and
    [demo_sin] are exact with angles counted in quarter turns.  The noise
    field is constant at its mean value. *)

Definition demo_dist (x1 y1 x2 y2 : Q) : Q :=
  Qabs (x2 - x1) + Qabs (y2 - y1).

Definition demo_atan2 (dy dx : Q) : Q :=
  if Qltb 0 dy then 1
  else if Qltb dy 0 then -1
  else if Qltb dx 0 then 2 else 0.

Definition demo_cos (a : Q) : Q :=
  if Qeq_bool a 0 then 1 else if Qeq_bool a 2 then -1 else 0.

Definition demo_sin (a : Q) : Q :=
  if Qeq_bool a 1 then 1 else if Qeq_bool a (-1) then -1 else 0.

Definition demoP5 (millis deltaTime : Q) (draws : nat -> Q) : P5.t :=
  P5.mk millis deltaTime 1280 800 demo_dist demo_atan2 demo_cos demo_sin
    (fun _ => 0.5) draws.

(** Every draw is one half. *)
Definition halves : nat -> Q := fun _ => 0.5.

Definition demoPlayer (x size : Q) : FishEntity.t :=
  FishEntity.mk PlayerId x 400 size 0 0 (0, 255, 255) 0 0 Player.

(** An enemy on the player's line, swimming horizontally at its cruising
    speed. *)
Definition demoEnemy (n : Z) (v : FishVariant) (x size vx : Q)
  : FishEntity.t :=
  FishEntity.mk (RandomId (inject_Z n)) x 400 size vx 0 (255, 50, 50)
    (Qabs vx) 0 v.

Definition demoSession (pl : FishEntity.t) (es : list FishEntity.t)
  (score : Z) (health timer : Q) : Session :=
  mkSession 1 pl es [] [] score 0 0 health timer 0 0 0 0 [].

(** A frame 100 ms into the session, 16 ms after the previous one; with
    [lastSpawnTime = 0] no spawn is due. *)
Definition quietP5 : P5.t := demoP5 100 16 halves.

(** A titan of size 50 overlapping a player of size 20 whose health is 40
    and whose invulnerability window has expired. *)
Definition nearTitan : FishEntity.t := demoEnemy 1 Titan 660 50 (-1).

Definition titanHit : Session :=
  demoSession (demoPlayer 640 20) [nearTitan] 0 40 0.

(** A prey of size 10 overlapping a player of size 20 whose health is 50,
    one second before the end of the invulnerability window. *)
Definition mealPrey : FishEntity.t := demoEnemy 1 Prey 650 10 (-3).

Definition shieldedMeal : Session :=
  demoSession (demoPlayer 640 20) [mealPrey] 0 50 1000.

(** No enemy in reach, health 50, and 10 ms of invulnerability left: less
    than one frame. *)
Definition expiringShield : Session :=
  demoSession (demoPlayer 640 20) [] 0 50 10.

(** A prey of size 200 about to cross the left margin ([-300]) while it
    overlaps a player of size 300 that hugs the left edge. *)
Definition edgePrey : FishEntity.t := demoEnemy 1 Prey (-298.5) 200 (-4).


(** The same meal with a second prey behind it in the list, on screen and
    far out of the player's reach. *)
Definition bystander : FishEntity.t := demoEnemy 2 Prey 900 10 (-3).

Definition edgeMealFollowed : Session :=
  demoSession (demoPlayer 1 300) [edgePrey; bystander] 0 100 0.

(** A titan of size 50 at distance 499 from a player of size 20: inside
    its detection radius of 500, far outside the shake radius of 200. *)
Definition farTitan : FishEntity.t := demoEnemy 1 Titan 1139 50 (-1).

Definition farTitanSession : Session :=
  demoSession (demoPlayer 640 20) [farTitan] 0 100 0.

(** The session right after [spawnShockwave] at scale factor 1 with a draw
    of one half: a single shockwave with [maxRadius = 100],
    [currentRadius = 10], [alpha = 200] and [lineWidth = 8]. *)
Definition ripple : Session :=
  exec (spawnShockwave quietP5 640 400 (255, 50, 50))
    (demoSession (demoPlayer 640 20) [] 0 100 0).

(** The session after [n] further frames of [drawShockwaves]. *)
Definition rippleAfter (n : nat) : Session :=
  Nat.iter n (exec (drawShockwaves quietP5)) ripple.

(** Shockwaves compared field by field as rational numbers, and a
    shockwave with its fields in lowest terms. *)
Definition sw_eq (a b : Shockwave.t) : Prop :=
  Shockwave.x a == Shockwave.x b /\
  Shockwave.y a == Shockwave.y b /\
  Shockwave.maxRadius a == Shockwave.maxRadius b /\
  Shockwave.currentRadius a == Shockwave.currentRadius b /\
  Shockwave.alpha a == Shockwave.alpha b /\
  Shockwave.color a = Shockwave.color b /\
  Shockwave.lineWidth a == Shockwave.lineWidth b.

Definition norm (sw : Shockwave.t) : Shockwave.t :=
  Shockwave.mk (Qred (Shockwave.x sw)) (Qred (Shockwave.y sw))
    (Qred (Shockwave.maxRadius sw)) (Qred (Shockwave.currentRadius sw))
    (Qred (Shockwave.alpha sw)) (Shockwave.color sw)
    (Qred (Shockwave.lineWidth sw)).

(** The shockwave of [ripple] after [n] frames at scale factor 1, each
    field kept in lowest terms. *)
Definition track (n : nat) : Shockwave.t :=
  Nat.iter n (fun sw => norm (advance 1 sw))
    (Shockwave.mk 640 400 100 10 200 (255, 50, 50) 8).

(** ** Uniform draws

    [p.random()] is uniform on [[0, 1)].  The probability of a band of
    draws is read off a grid: [grid n] holds the midpoints of the [n]
    equal cells of [[0, 1)], and [share n P] is the fraction of them that
    satisfy [P].  For a band whose ends are multiples of [1 / n] this is
    the length of the band. *)
Definition grid (n : nat) : list Q :=
  List.map
    (fun k => (2 * inject_Z (Z.of_nat k) + 1) / (2 * inject_Z (Z.of_nat n)))
    (seq 0 n).

Definition share (n : nat) (P : Q -> bool) : Q :=
  inject_Z (Z.of_nat (length (List.filter P (grid n))))
  / inject_Z (Z.of_nat n).

Definition isPredator (u : Q) : bool := negb (isPrey u).

Definition selects (v : FishVariant) (rand : Q) : bool :=
  FishVariant_eqb (predatorVariant rand) v.

(** ** Vocabulary of the properties *)

(** [preserves R m]: running [m] relates every session to the one it
    leaves behind. *)
Definition preserves {A : Type} (R : relation Session) (m : M A) : Prop :=
  forall s, R s (snd (m s)).

(** The refs that effects never touch: everything but the particle and
    shockwave lists and the position in the stream of draws. *)
Definition core (s : Session) :=
  (scaleFactor s, player s, enemies s, scoreRef s, lastSpawnTime s,
   dangerIntensity s, playerHealth s, invulnTimer s, screenShake s,
   damageEffectVal s, mathRandomCount s, calls s).

Definition same_core : relation Session := fun s s' => core s' = core s.

(** The refs that decide health, timing, the log and the enemy list. *)
Definition vitals (s : Session) :=
  (playerHealth s, invulnTimer s, calls s, enemies s).

Definition same_vitals : relation Session :=
  fun s s' => vitals s' = vitals s.

(** A relation is tolerant when it is a preorder that holds across any
    change that leaves the vitals alone. *)
Class Tolerant (R : relation Session) : Prop := {
  tolerant_preorder :: PreOrder R;
  tolerant_vitals : forall s s', same_vitals s s' -> R s s'
}.

(** Everything but the player's position and the screen shake. *)
Definition standing (s : Session) :=
  (scaleFactor s, FishEntity.static (player s), enemies s, particles s,
   shockwaves s, scoreRef s, lastSpawnTime s, dangerIntensity s,
   playerHealth s, invulnTimer s, damageEffectVal s, randomCount s,
   mathRandomCount s, calls s).

Definition same_standing : relation Session :=
  fun s s' => standing s' = standing s.

(** [eats evs] and [hurts evs]: some call of the log segment [evs] is the
    eat, respectively the hurt sound, which the source plays exactly in
    the consume, respectively the damage, branch. *)
Definition eats (evs : list Call) : bool :=
  existsb (fun c => match c with PlaySound Eat => true | _ => false end) evs.

Definition hurts (evs : list Call) : bool :=
  existsb (fun c => match c with PlaySound Hurt => true | _ => false end) evs.

(** Health stays under the cap. *)
Definition capped : relation Session :=
  fun s s' => playerHealth s <= 100 -> playerHealth s' <= 100.

(** Health does not rise over a stretch in which nothing is eaten. *)
Definition unfed : relation Session :=
  fun s s' => exists evs,
    calls s' = evs ++ calls s /\
    (eats evs = false -> playerHealth s' <= playerHealth s).

(** Over a stretch without a damage event the timer is untouched; after a
    damage event it reads 1500. *)
Definition unhurt : relation Session :=
  fun s s' => exists evs,
    calls s' = evs ++ calls s /\
    (hurts evs = false -> invulnTimer s' = invulnTimer s) /\
    (hurts evs = true -> invulnTimer s' = 1500).

(** [ends evs]: some call of the log segment [evs] reports the end of the
    game, which the source does in the damage branch alone. *)
Definition ends (evs : list Call) : bool :=
  existsb
    (fun c => match c with SetGameState GAME_OVER => true | _ => false end)
    evs.

(** Over a stretch without a damage event a positive health stays
    positive; after a damage event health is positive or the end of the
    game has been reported. *)
Definition reporting : relation Session :=
  fun s s' => exists evs,
    calls s' = evs ++ calls s /\
    (hurts evs = false -> 0 < playerHealth s -> 0 < playerHealth s') /\
    (hurts evs = true -> 0 < playerHealth s' \/ ends evs = true).

(** The enemy that an iteration hands to the collision block: the element
    at index [i] after steering and moving. *)
Definition steered (p : P5.t) (ct sf : Q) (e : FishEntity.t) (md : Q)
  (s : Session) : FishEntity.t :=
  move (fst (fst (steer p ct sf e
    (P5.dist p (FishEntity.x (player s)) (FishEntity.y (player s))
       (FishEntity.x e) (FishEntity.y e)) md s))).

(** [same_on f]: the transition leaves the field [f] alone. *)
Definition same_on {A : Type} (f : Session -> A) : relation Session :=
  fun s s' => f s' = f s.

(** [pushes P m]: running [m] appends exactly one enemy, which
    satisfies [P]. *)
Definition pushes {A : Type} (P : FishEntity.t -> Prop) (m : M A) : Prop :=
  forall s, exists e, enemies (snd (m s)) = enemies s ++ [e] /\ P e.

(** [yields P m]: the value returned by [m] satisfies [P]. *)
Definition yields {A : Type} (P : A -> Prop) (m : M A) : Prop :=
  forall s, P (fst (m s)).

(** The static fields of the enemies after the transition form a
    subsequence of those before it: survivors keep their order and their
    [id], [size], [speed], [color], [variant] and [noiseOffset]. *)
Definition kept : relation Session :=
  fun s s' =>
    sublist (FishEntity.static <$> enemies s')
            (FishEntity.static <$> enemies s).

(** ** FishGame.tsx: the rest of the frame

    The state updates of [drawParticles] (lines 685-705), the screen-shake
    block of [p.draw] (lines 334-340) and the damage flash of [drawPlayer]
    (lines 768-770); the drawing calls are left out. *)

(** The three assignments that [drawParticles] makes to a particle:
    [y -= vy], [alpha -= 1] and
    [x += sin (millis * 0.01 + y * 0.1) * 0.5 * sf], the last one reading
    the new [y]. *)
Definition drift (p : P5.t) (sf : Q) (part : Particle.t) : Particle.t :=
  let y := Particle.y part - Particle.vy part in
  let alpha := Particle.alpha part - 1 in
  let x :=
    Particle.x part + P5.sin p (P5.millis p * 0.01 + y * 0.1) * 0.5 * sf in
  Particle.mk x y (Particle.size part) (Particle.vy part) alpha
    (Particle.color part).

(** [part.alpha <= 0 || part.y < -10]. *)
Definition spent (part : Particle.t) : bool :=
  Qleb (Particle.alpha part) 0 || Qltb (Particle.y part) (-10).

Definition drawParticles_iteration (p : P5.t) (sf : Q) (i : nat) (_ : unit)
  : M unit :=
  parts <- get particles ;;
  match parts !! i with
  | None => ret tt
  | Some part =>
      let part := drift p sf part in
      modify (fun s => set_particles s (<[i := part]> (particles s))) ;;;
      when (spent part)
        (modify (fun s => set_particles s (delete i (particles s))))
  end.

Definition drawParticles (p : P5.t) : M unit :=
  sf <- get scaleFactor ;;
  n <- get (fun s => length (particles s)) ;;
  for_down n (drawParticles_iteration p sf) tt.

(** The screen-shake block at the head of [p.draw]; [p.translate] is a
    drawing call. *)
Definition shakeStep (p : P5.t) : M unit :=
  shake <- get screenShake ;;
  when (Qgtb shake 0)
    (shakeX <- random_between p (- shake) shake ;;
     shakeY <- random_between p (- shake) shake ;;
     modify (fun s => set_screenShake s (screenShake s * 0.9)) ;;;
     shake' <- get screenShake ;;
     when (Qltb shake' 0.5) (modify (fun s => set_screenShake s 0))).

(** The decay of the damage flash in [drawPlayer]:
    [if (damageEffectVal.current > 0.01) damageEffectVal.current -= 0.05]. *)
Definition flashStep : M unit :=
  v <- get damageEffectVal ;;
  when (Qgtb v 0.01)
    (modify (fun s => set_damageEffectVal s (damageEffectVal s - 0.05))).

(** ** Vocabulary of the effect loops *)

(** One visit of a reverse splice loop: the element at index [i] is
    replaced by its update [f] and spliced out when the update is
    [dead]. *)
Definition sweep {A : Type} (f : A -> A) (dead : A -> bool) (i : nat)
  (l : list A) : list A :=
  match l !! i with
  | None => l
  | Some x => if dead (f x) then delete i l else <[i := f x]> l
  end.

(** The visits for the indices [n - 1] down to [0]. *)
Fixpoint sweep_down {A : Type} (f : A -> A) (dead : A -> bool) (n : nat)
  (l : list A) : list A :=
  match n with
  | O => l
  | S i => sweep_down f dead i (sweep f dead i l)
  end.

(** Update every element, then keep the ones that are not dead. *)
Definition refresh {A : Type} (f : A -> A) (dead : A -> bool) (l : list A)
  : list A :=
  List.filter (fun x => negb (dead x)) (List.map f l).


(** [replay m ps s]: the frames [ps], in order, each running [m]. *)
Definition replay (m : P5.t -> M unit) (ps : list P5.t) (s : Session)
  : Session :=
  fold_left (fun s p => exec (m p) s) ps s.


(** [drawn p u]: the number [u] is one of the draws of the frame [p]. *)
Definition drawn (p : P5.t) (u : Q) : Prop := exists k, u = P5.draws p k.

(** Every draw of the frame lies in [[0, 1)], the range of [p.random()]. *)
Definition fair (p : P5.t) : Prop :=
  forall k, 0 <= P5.draws p k /\ P5.draws p k < 1.

(** The bands in which the size and the speed of a fresh enemy of variant
    [v] lie, for a player of size [pSize] at scale factor [sf]. *)
Definition banded (pSize sf : Q) (v : FishVariant) (size speed : Q)
  : Prop :=
  match v with
  | Prey =>
      10 * sf <= size <= 300 * sf /\ (10 * sf < pSize -> size < pSize) /\
      3 * sf <= speed <= 6 * sf
  | Hunter =>
      pSize * 1.1 <= size <= pSize * 2 /\ 2 * sf <= speed <= 4 * sf
  | Dasher =>
      pSize <= size <= pSize * 1.4 /\ 5 * sf <= speed <= 7 * sf
  | Viper =>
      pSize * 1.1 <= size <= pSize * 1.6 /\ 3 * sf <= speed <= 5 * sf
  | Titan =>
      pSize * 1.8 <= size <= pSize * 3 /\ 0.5 * sf <= speed <= 1.5 * sf
  | Player => False
  end.


(** The scale factor and every size of the session are positive. *)
Definition thriving (s : Session) : Prop :=
  0 < scaleFactor s /\ 0 < FishEntity.size (player s) /\
  Forall (fun e => 0 < FishEntity.size e) (enemies s).

(** The transition keeps the scale factor; from a thriving session, with
    scores computed at the positive scale [sf], it leads to a thriving
    session in which neither the score nor the player's size is lower. *)
Definition growing (sf : Q) : relation Session :=
  fun s s' =>
    scaleFactor s' = scaleFactor s /\
    (0 < sf -> thriving s ->
     thriving s' /\ (scoreRef s <= scoreRef s')%Z /\
     FishEntity.size (player s) <= FishEntity.size (player s')).


(** The number of hurt sounds, and of game-state changes, in a segment of
    the log. *)
Definition hurtCount (evs : list Call) : nat :=
  length (List.filter
    (fun c => match c with PlaySound Hurt => true | _ => false end) evs).

Definition stateChanges (evs : list Call) : nat :=
  length (List.filter
    (fun c => match c with SetGameState _ => true | _ => false end) evs).

(** From a health under the cap: the stretch holds no damage event, the
    timer is untouched and health has not dropped; or it holds exactly one,
    taken with an expired timer, which leaves the timer at 1500 and costs
    at most 60.  The game state changes at most as often as the player is
    hurt. *)
Definition struck : relation Session :=
  fun s s' =>
    playerHealth s <= 100 ->
    playerHealth s' <= 100 /\
    exists evs,
      calls s' = evs ++ calls s /\
      (stateChanges evs <= hurtCount evs)%nat /\
      ((hurtCount evs = 0%nat /\ invulnTimer s' = invulnTimer s /\
        playerHealth s <= playerHealth s') \/
       (hurtCount evs = 1%nat /\ invulnTimer s <= 0 /\
        invulnTimer s' = 1500 /\
        playerHealth s - 60 <= playerHealth s')).


(** ** FishGame.tsx: hand input, audio, and the scene around the game

    [handleHandInput] (lines 362-410), [updateAudioDynamics]
    (lines 261-278), [updateScaleFactor], [p.setup] and [p.windowResized]
    (lines 301-321), the state updates of [drawWaterAtmosphere]
    (lines 1113-1170) and [resetGame] (lines 1172-1216). *)

Module Point.
Record t := mk {
  x : Q;
  y : Q
}.
End Point.

(** [p.map(n, start1, stop1, start2, stop2, true)]: the mapped value is
    constrained between [start2] and [stop2], whichever is smaller. *)
Definition map_within (n start1 stop1 start2 stop2 : Q) : Q :=
  let newval := P5.map n start1 stop1 start2 stop2 in
  if Qltb start2 stop2 then P5.constrain newval start2 stop2
  else P5.constrain newval stop2 start2.

Definition with_speed (e : FishEntity.t) (speed' : Q) : FishEntity.t :=
  FishEntity.mk (FishEntity.id e) (FishEntity.x e) (FishEntity.y e)
    (FishEntity.size e) (FishEntity.vx e) (FishEntity.vy e)
    (FishEntity.color e) speed' (FishEntity.noiseOffset e)
    (FishEntity.variant e).

(** What [handleHandInput] reads of the [<video>] element. *)
Module Video.
Record t := mk {
  readyState : Z;
  videoWidth : Z;
  videoHeight : Z;
  currentTime : Q
}.
End Video.

(** The outcome of [detectForVideo]: an exception, or a result whose
    [landmarks] may be missing and otherwise lists, hand by hand, the
    landmarks found. *)
Inductive Detection :=
| Throws
| Results (landmarks : option (list (list Point.t))).

Module HandLandmarker.
Record t := mk {
  detectForVideo : Video.t -> Q -> Detection
}.
End HandLandmarker.

(** What a frame finds in [handLandmarkerRef] and [videoRef], either of
    which may still be [null]. *)
Record Camera := mkCamera {
  handLandmarkerRef : option HandLandmarker.t;
  videoRef : option Video.t
}.

(** The refs that [handleHandInput] works on: those of the game, and
    [lastVideoTime], which starts at [-1] (line 74). *)
Record Tracking := mkTracking {
  game : Session;
  lastVideoTime : Q
}.

Definition set_lastVideoTime (t : Tracking) (v : Q) : Tracking :=
  mkTracking (game t) v.

(** The block of lines 382-404: the player follows [point]. *)
Definition followPoint (p : P5.t) (point : Point.t) : M unit :=
  let margin := 0.1 in
  let rawX := 1 - Point.x point in
  let rawY := Point.y point in
  let targetX := map_within rawX margin (1 - margin) 0 (P5.width p) in
  let targetY := map_within rawY margin (1 - margin) 0 (P5.height p) in
  prevX <- get (fun s => FishEntity.x (player s)) ;;
  prevY <- get (fun s => FishEntity.y (player s)) ;;
  modify (fun s => set_player s
    (FishEntity.with_pos (player s)
       (P5.lerp (FishEntity.x (player s)) targetX 0.2)
       (FishEntity.y (player s)))) ;;;
  modify (fun s => set_player s
    (FishEntity.with_pos (player s)
       (FishEntity.x (player s))
       (P5.lerp (FishEntity.y (player s)) targetY 0.2))) ;;;
  modify (fun s => set_player s
    (FishEntity.with_vel (player s)
       (FishEntity.x (player s) - prevX)
       (FishEntity.vy (player s)))) ;;;
  modify (fun s => set_player s
    (FishEntity.with_vel (player s)
       (FishEntity.vx (player s))
       (FishEntity.y (player s) - prevY))) ;;;
  modify (fun s => set_player s
    (with_speed (player s)
       (P5.dist p 0 0 (FishEntity.vx (player s))
          (FishEntity.vy (player s))))).

(** The guard of line 368. *)
Definition notReady (video : Video.t) : bool :=
  (Video.readyState video <? 2)%Z
  || (Video.videoWidth video <? 1)%Z
  || (Video.videoHeight video <? 1)%Z.

(** [handleHandInput] (lines 362-410).  [now] is the reading of
    [performance.now()].  [lastVideoTime] is written as soon as the video
    shows a new frame, before the detection is attempted.  Inside the
    [try], [detectForVideo] may throw, and so does reading [point.x] when
    the first hand has no landmark 9; both happen before the player is
    touched, and the [catch] swallows them. *)
Definition handleHandInput (p : P5.t) (now : Q) (cam : Camera)
  (t : Tracking) : Tracking :=
  match handLandmarkerRef cam, videoRef cam with
  | Some handLandmarker, Some video =>
      if notReady video then t
      else if Qeq_bool (Video.currentTime video) (lastVideoTime t) then t
      else
        let t := set_lastVideoTime t (Video.currentTime video) in
        let startTimeMs := now in
        match
          HandLandmarker.detectForVideo handLandmarker video startTimeMs
        with
        | Throws => t
        | Results None => t
        | Results (Some []) => t
        | Results (Some (landmarks :: _)) =>
            match landmarks !! 9%nat with
            | None => t
            | Some point =>
                mkTracking (exec (followPoint p point) (game t))
                  (lastVideoTime t)
            end
        end
  | _, _ => t
  end.

(** The targets that [updateAudioDynamics] hands to [setTargetAtTime]
    when the audio nodes exist: the filter frequency and the gain of the
    water noise. *)
Definition updateAudioDynamics (s : Session) : Q * Q :=
  let sf := scaleFactor s in
  let rawSpeed := FishEntity.speed (player s) / sf in
  let speed := P5.constrain rawSpeed 0 25 in
  let targetFreq := P5.map speed 0 25 200 1200 in
  let targetGain := P5.map speed 0 25 0.05 0.25 in
  (targetFreq, targetGain).

Definition set_scaleFactor (s : Session) (v : Q) : Session :=
  mkSession v (player s) (enemies s) (particles s) (shockwaves s)
    (scoreRef s) (lastSpawnTime s) (dangerIntensity s) (playerHealth s)
    (invulnTimer s) (screenShake s) (damageEffectVal s) (randomCount s)
    (mathRandomCount s) (calls s).

Definition updateScaleFactor (p : P5.t) : M unit :=
  modify (fun s => set_scaleFactor s
    (Math_min (P5.width p) (P5.height p) / 800)).

(** The refs of the game together with the two decorative lists. *)
Record Scene := mkScene {
  refs : Session;
  plankton : list Particle.t;
  bubbles : list Particle.t
}.

(** [for (let i = 0; i < n; i++) list.push(one ())]. *)
Fixpoint seed (n : nat) (one : M Particle.t) : M (list Particle.t) :=
  match n with
  | O => ret []
  | S n' =>
      part <- one ;;
      rest <- seed n' one ;;
      ret (part :: rest)
  end.

Definition planktonSeed (p : P5.t) (sf : Q) : M Particle.t :=
  x <- random_max p (P5.width p) ;;
  y <- random_max p (P5.height p) ;;
  size <- random_between p 1 3 ;;
  ret (Particle.mk x y (size * sf) 0 255 None).

Definition bubbleSeed (p : P5.t) (sf : Q) : M Particle.t :=
  x <- random_max p (P5.width p) ;;
  y <- random_max p (P5.height p) ;;
  size <- random_between p 4 12 ;;
  vy <- random_between p 1 3 ;;
  ret (Particle.mk x y (size * sf) (vy * sf) 255 None).

(** The assignments at the head of [resetGame] (lines 1174-1193). *)
Definition resetGame_core (p : P5.t) (sf : Q) : M unit :=
  modify (fun s => set_player s
    (FishEntity.with_pos (player s) (P5.width p / 2)
       (FishEntity.y (player s)))) ;;;
  modify (fun s => set_player s
    (FishEntity.with_pos (player s) (FishEntity.x (player s))
       (P5.height p / 2))) ;;;
  modify (fun s => set_player s
    (FishEntity.with_size (player s) (20 * sf))) ;;;
  modify (fun s => set_player s
    (FishEntity.with_vel (player s) 0 (FishEntity.vy (player s)))) ;;;
  modify (fun s => set_player s
    (FishEntity.with_vel (player s) (FishEntity.vx (player s)) 0)) ;;;
  modify (fun s => set_player s (with_speed (player s) 0)) ;;;
  modify (fun s => set_scoreRef s 0%Z) ;;;
  setScore 0%Z ;;;
  modify (fun s => set_playerHealth s maxHealth) ;;;
  modify (fun s => set_invulnTimer s 0) ;;;
  modify (fun s => set_screenShake s 0) ;;;
  modify (fun s => set_damageEffectVal s 0) ;;;
  modify (fun s => set_enemies s []) ;;;
  modify (fun s => set_lastSpawnTime s (P5.millis p)) ;;;
  modify (fun s => set_particles s []) ;;;
  modify (fun s => set_shockwaves s []).

(** [resetGame] on the refs of the game; it returns the new plankton and
    bubbles. *)
Definition resetGame_refs (p : P5.t)
  : M (list Particle.t * list Particle.t) :=
  sf <- get scaleFactor ;;
  resetGame_core p sf ;;;
  plankton <- seed 60 (planktonSeed p sf) ;;
  bubbles <- seed 15 (bubbleSeed p sf) ;;
  ret (plankton, bubbles).

Definition resetGame (p : P5.t) (sc : Scene) : Scene :=
  let r := resetGame_refs p (refs sc) in
  mkScene (snd r) (fst (fst r)) (snd (fst r)).

(** [p.setup], on the canvas that [p] describes. *)
Definition setup (p : P5.t) (sc : Scene) : Scene :=
  resetGame p
    (mkScene (exec (updateScaleFactor p) (refs sc)) (plankton sc)
       (bubbles sc)).

(** [p.windowResized], on the resized canvas that [p] describes. *)
Definition windowResized (p : P5.t) (sc : Scene) : Scene :=
  let sc := mkScene (exec (updateScaleFactor p) (refs sc)) (plankton sc)
              (bubbles sc) in
  if (length (plankton sc) =? 0)%nat then resetGame p sc else sc.

(** The assignments that [drawWaterAtmosphere] makes to a plankton: the
    sway of [x], the sway of [y], which reads the new [x], and the four
    wrap-arounds in the order of the source. *)
Definition sway (p : P5.t) (sf : Q) (pt : Particle.t) : Particle.t :=
  let t := P5.millis p * 0.0005 in
  let x := Particle.x pt + P5.cos p (t + Particle.y pt * 0.01) * 0.2 * sf in
  let y := Particle.y pt + P5.sin p (t + x * 0.01) * 0.2 * sf in
  let x := if Qltb x 0 then P5.width p else x in
  let x := if Qgtb x (P5.width p) then 0 else x in
  let y := if Qltb y 0 then P5.height p else y in
  let y := if Qgtb y (P5.height p) then 0 else y in
  Particle.mk x y (Particle.size pt) (Particle.vy pt) (Particle.alpha pt)
    (Particle.color pt).

(** The assignments that [drawWaterAtmosphere] makes to a bubble. *)
Definition rise (p : P5.t) (sf : Q) (b : Particle.t) : M Particle.t :=
  let t := P5.millis p * 0.0005 in
  let y := Particle.y b - Particle.vy b in
  let x := Particle.x b + P5.sin p (t * 3 + y * 0.02) * 1 * sf in
  if Qltb y (-50)
  then
    x <- random_max p (P5.width p) ;;
    ret (Particle.mk x (P5.height p + 50) (Particle.size b) (Particle.vy b)
           (Particle.alpha b) (Particle.color b))
  else
    ret (Particle.mk x y (Particle.size b) (Particle.vy b)
           (Particle.alpha b) (Particle.color b)).

(** [list.forEach], for a callback that updates the element it visits. *)
Fixpoint forEach {A : Type} (f : A -> M A) (l : list A) : M (list A) :=
  match l with
  | [] => ret []
  | a :: l' =>
      a' <- f a ;;
      rest <- forEach f l' ;;
      ret (a' :: rest)
  end.

Definition drawWaterAtmosphere (p : P5.t) (sc : Scene) : Scene :=
  let sf := scaleFactor (refs sc) in
  let r := forEach (rise p sf) (bubbles sc) (refs sc) in
  mkScene (snd r) (List.map (sway p sf) (plankton sc)) (fst r).

(** ** App.tsx: the game-over effect (lines 48-67) *)

Module HighScore.
Record t := mk {
  score : Z;
  date : String.string
}.
End HighScore.

(** What [formattedTime] shows: [`${seconds}s`] under a minute,
    [`${minutes}m ${seconds % 60}s`] from one minute on; the embedding
    keeps the numbers instead of the rendered string. *)
Inductive SurvivalTime :=
| Seconds (seconds : Z)
| MinutesSeconds (minutes seconds : Z).

(** [duration] is a difference of two [Date.now()] values, an integer
    number of milliseconds. *)
Definition formattedTime (duration : Z) : SurvivalTime :=
  let seconds := (duration / 1000)%Z in
  let minutes := (seconds / 60)%Z in
  if (0 <? minutes)%Z then MinutesSeconds minutes (Z.rem seconds 60)
  else Seconds seconds.

(** [newScores.sort((a, b) => b.score - a.score)].  [Array.prototype.sort]
    is stable, so among equal scores the earlier element stays first: an
    element goes in front of the first one whose score is not higher. *)
Fixpoint insertScore (a : HighScore.t) (l : list HighScore.t)
  : list HighScore.t :=
  match l with
  | [] => [a]
  | b :: l' =>
      if (HighScore.score b - HighScore.score a <=? 0)%Z
      then a :: b :: l'
      else b :: insertScore a l'
  end.

Definition sortScores (l : list HighScore.t) : list HighScore.t :=
  foldr insertScore [] l.

(** The updater passed to [setHighScores]; the copy written to
    [localStorage] is the value returned. *)
Definition saveScore (prev : list HighScore.t) (score : Z)
  (date : String.string) : list HighScore.t :=
  let newScores := prev ++ [HighScore.mk score date] in
  let newScores := sortScores newScores in
  let top5 := take 5 newScores in
  top5.


(** The transition touches nothing but the position in the stream of
    draws. *)
Definition same_but_draws : relation Session :=
  fun s s' => set_randomCount s' (randomCount s) = s.


(** A board in descending order of score. *)
Definition ranked (l : list HighScore.t) : Prop :=
  StronglySorted
    (fun a b => (HighScore.score b <= HighScore.score a)%Z) l.

(** The entries of a board that stay ahead of a new score: the ones at
    least as high.  The others fall behind it. *)
Definition ahead (score : Z) (l : list HighScore.t) : list HighScore.t :=
  List.filter (fun h => (score <=? HighScore.score h)%Z) l.

Definition behind (score : Z) (l : list HighScore.t) : list HighScore.t :=
  List.filter (fun h => (HighScore.score h <? score)%Z) l.



(** No particle is more opaque than a fresh burst particle (alpha 255),
    and no shockwave more than a fresh shockwave (alpha 200). *)
Definition mild (s : Session) : Prop :=
  Forall (fun part => Particle.alpha part <= 255) (particles s) /\
  Forall (fun sw => Shockwave.alpha sw <= 200) (shockwaves s).

Definition stays_mild : relation Session := fun s s' => mild s -> mild s'.


(** The library functions of the frame stay in their ranges: [p.cos] and
    [p.sin] in [[-1, 1]], [p.noise] in [[0, 1]]. *)
Definition tame (p : P5.t) : Prop :=
  (forall a, -1 <= P5.cos p a <= 1) /\
  (forall a, -1 <= P5.sin p a <= 1) /\
  (forall t, 0 <= P5.noise p t <= 1).

(** The most an enemy of cruising speed [speed] can cover horizontally
    in one frame, chasing or wandering: 2.2 times its speed, plus the
    viper's oscillation of [4 * sf]. *)
Definition reach (sf speed : Q) : Q := speed * 2.2 + 4 * sf.

(** ** Concrete instances for the further properties *)

(** A fresh game on the canvas of [demoP5]: the player of size 20 in the
    middle, no enemy, full health. *)
Definition freshGame : Session :=
  demoSession (demoPlayer 640 20) [] 0 100 0.

(** A frame one second into the session: a spawn is due. *)
Definition spawnP5 : P5.t := demoP5 1000 16 halves.

(** The frame 200 ms after [spawnP5]. *)
Definition soonP5 : P5.t := demoP5 1200 16 halves.

(** [freshGame] right after a hit: shake 40 and a full damage flash. *)
Definition shaken : Session :=
  set_damageEffectVal (set_screenShake freshGame 40) 1.

(** [freshGame] with one burst particle about to fade. *)
Definition fadingBurst : Session :=
  set_particles freshGame [Particle.mk 640 400 5 1 2 (Some (255, 0, 0))].

(** A hunter cruising to the right at speed 3. *)
Definition cruiser : FishEntity.t := demoEnemy 1 Hunter 100 30 3.

(** A hand in the middle of the camera image. *)
Definition centerHand : Point.t := Point.mk 0.5 0.5.

(** A hand of 21 landmarks whose landmark 9 is [centerHand], seen through
    a landmarker that reports it on every frame, on a 640 x 480 video, 40
    ms into its stream, that has enough data. *)
Definition demoHand : list Point.t :=
  replicate 9 (Point.mk 0.4 0.6) ++ centerHand
  :: replicate 11 (Point.mk 0.6 0.4).

Definition demoVideo : Video.t := Video.mk 4 640 480 0.04.

Definition demoCamera : Camera :=
  mkCamera
    (Some (HandLandmarker.mk (fun _ _ => Results (Some [demoHand]))))
    (Some demoVideo).

Definition demoScene (s : Session) : Scene :=
  mkScene s [Particle.mk (-5) 900 2 0 255 None]
    [Particle.mk 100 (-49) 6 2 255 None].

(** A board with three entries, the last two tied. *)
Definition demoBoard : list HighScore.t :=
  [HighScore.mk 300 String.EmptyString; HighScore.mk 120 String.EmptyString;
   HighScore.mk 120 String.EmptyString].


(** A stream of draws whose first two values select a titan. *)
Definition titanDraws : nat -> Q :=
  fun k => match k with O => 0.1 | S O => 0.9 | _ => 0.5 end.

Definition titanP5 : P5.t := demoP5 1000 16 titanDraws.

(** A late game: a player of size 100 alone on the canvas. *)
Definition lateGame : Session :=
  demoSession (demoPlayer 640 100) [] 0 100 0.

(** The enemy that the spawn step of [titanP5] pushes in [lateGame]: a
    titan of size 240. *)
Definition lostTitan : FishEntity.t :=
  Eval vm_compute in
    nth 0
      (enemies
         (exec (spawnStep halves titanP5 (P5.millis titanP5))
            (exec (tickTimers (P5.deltaTime titanP5)) lateGame)))
      (player lateGame).

(** * Properties *)

(** ** Comparisons *)

Lemma Qltb_lt a b : Qltb a b = true <-> a < b.
Proof.
  unfold Qltb. rewrite negb_true_iff, <- not_true_iff_false, Qle_bool_iff.
  split; [apply Qnot_le_lt | apply Qlt_not_le].
Qed.

Lemma Qltb_ge a b : Qltb a b = false <-> b <= a.
Proof. unfold Qltb. rewrite negb_false_iff. apply Qle_bool_iff. Qed.

Lemma Qgtb_gt a b : Qgtb a b = true <-> b < a.
Proof. apply Qltb_lt. Qed.

Lemma Qgtb_le a b : Qgtb a b = false <-> a <= b.
Proof. apply Qltb_ge. Qed.

Lemma Qleb_le a b : Qleb a b = true <-> a <= b.
Proof. apply Qle_bool_iff. Qed.

Lemma Qleb_gt a b : Qleb a b = false <-> b < a.
Proof.
  unfold Qleb. rewrite <- not_true_iff_false, Qle_bool_iff.
  split; [apply Qnot_le_lt | apply Qlt_not_le].
Qed.

Lemma Qgeb_ge a b : Qgeb a b = true <-> b <= a.
Proof. apply Qle_bool_iff. Qed.

Lemma Qgeb_lt a b : Qgeb a b = false <-> a < b.
Proof. apply Qleb_gt. Qed.

Lemma FishVariant_eqb_eq a b : FishVariant_eqb a b = true <-> a = b.
Proof. destruct a, b; simpl; split; congruence. Qed.

Lemma Math_min_le_r a b : Math_min a b <= b.
Proof. apply Q.le_min_r. Qed.

(** ** The division of doubles *)

Lemma Number_ulp_pos (q : Q) : 0 < Number_ulp q.
Proof. unfold Number_ulp. apply Qpower_0_lt. reflexivity. Qed.

(** The significand: [Number_round q] is a whole number of units in the last
    place, the one below or the one above [|q|]. *)
Lemma Number_round_shape (q : Q) :
  ~ q == 0 ->
  exists n : Z,
    Number_round q ==
      (if Qltb q 0 then -1 else 1) * (inject_Z n * Number_ulp q) /\
    (n = Qfloor (Qabs q / Number_ulp q) \/
     n = (Qfloor (Qabs q / Number_ulp q) + 1)%Z).
Proof.
  intros Hq. unfold Number_round.
  destruct (Qeq_bool q 0) eqn:E; [apply Qeq_bool_iff in E; contradiction |].
  cbv zeta.
  match goal with
  | |- context [ (if ?c then _ else 1) * (inject_Z ?n * _) ] =>
      exists n; split; [reflexivity |]
  end.
  destruct (Qltb _ _); [left; reflexivity |].
  destruct (Qgtb _ _); [right; reflexivity |].
  destruct (Z.even _); [left | right]; reflexivity.
Qed.

(** The quotient of two numbers of one sign is not negative after rounding
    either. *)
Lemma Number_round_nonneg (q : Q) : 0 <= q -> 0 <= Number_round q.
Proof.
  intros H. destruct (Qeq_dec q 0) as [E | N].
  - unfold Number_round. apply Qeq_bool_iff in E. rewrite E. lra.
  - destruct (Number_round_shape q N) as (n & -> & Hn).
    assert (Hs : Qltb q 0 = false).
    { destruct (Qltb q 0) eqn:L; [apply Qltb_lt in L; lra | reflexivity]. }
    rewrite Hs. pose proof (Number_ulp_pos q) as Hu.
    assert (0 <= Qabs q / Number_ulp q) as Hm.
    { apply Qle_shift_div_l; [exact Hu |].
      rewrite Qmult_0_l. apply Qabs_nonneg. }
    assert (0 <= Qfloor (Qabs q / Number_ulp q))%Z as Hf.
    { change 0%Z with (Qfloor 0). apply Qfloor_resp_le, Hm. }
    assert (0 <= n)%Z as Hn' by (destruct Hn; lia).
    assert (0 <= inject_Z n) as Hq.
    { change 0 with (inject_Z 0). rewrite <- Zle_Qle. exact Hn'. }
    nra.
Qed.

(** Rounding moves a number by half a unit in the last place at most. *)
Lemma Number_round_near (q : Q) :
  Qabs (Number_round q - q) <= Number_ulp q / 2.
Proof.
  pose proof (Number_ulp_pos q) as Hu.
  destruct (Qeq_dec q 0) as [E | N].
  - unfold Number_round. pose proof E as E'.
    apply Qeq_bool_iff in E'. rewrite E'.
    assert (0 - q == 0) as -> by lra. change (Qabs 0) with 0.
    apply Qle_shift_div_l; [reflexivity | lra].
  - unfold Number_round.
    destruct (Qeq_bool q 0) eqn:E; [apply Qeq_bool_iff in E; contradiction |].
    cbv zeta. set (u := Number_ulp q) in *.
    set (m := Qabs q / u). set (f := Qfloor m).
    pose proof (Qfloor_le m) as Hlo. pose proof (Qlt_floor m) as Hhi.
    fold f in Hlo, Hhi. rewrite inject_Z_plus in Hhi.
    change (inject_Z 1) with 1 in Hhi.
    assert (Em : Qabs q == m * u) by (unfold m; field; lra).
    assert (Hk : forall n : Z,
      Qabs (inject_Z n - m) <= 1 # 2 ->
      Qabs ((if Qltb q 0 then -1 else 1) * (inject_Z n * u) - q) <= u / 2).
    { intros n Hn.
      assert (Eq : (if Qltb q 0 then -1 else 1) * (inject_Z n * u) - q ==
                   (if Qltb q 0 then -1 else 1) * ((inject_Z n - m) * u)).
      { destruct (Qltb q 0) eqn:L.
        - apply Qltb_lt in L. rewrite (Qabs_neg q) in Em by lra.
          assert (q == - (m * u)) as -> by lra. ring.
        - assert (0 <= q).
          { destruct (Qlt_le_dec q 0) as [C | C]; [| exact C].
            apply Qltb_lt in C. congruence. }
          rewrite (Qabs_pos q) in Em by assumption. rewrite Em. ring. }
      rewrite Eq. rewrite Qabs_Qmult, Qabs_Qmult.
      rewrite (Qabs_pos u) by lra.
      assert (Qabs (if Qltb q 0 then -1 else 1) == 1) as -> by
        (destruct (Qltb q 0); reflexivity).
      assert (u / 2 == (1 # 2) * u) as -> by field.
      rewrite Qmult_1_l. apply Qmult_le_compat_r; [exact Hn | lra]. }
    apply Hk.
    destruct (Qltb (m - inject_Z f) (1 # 2)) eqn:L1.
    { apply Qltb_lt in L1. apply Qabs_Qle_condition. lra. }
    assert ((1 # 2) <= m - inject_Z f) as G1.
    { destruct (Qlt_le_dec (m - inject_Z f) (1 # 2)) as [C | C]; [| exact C].
      apply Qltb_lt in C. congruence. }
    assert (Hup : Qabs (inject_Z (f + 1) - m) <= 1 # 2).
    { rewrite inject_Z_plus. change (inject_Z 1) with 1.
      apply Qabs_Qle_condition. lra. }
    destruct (Qgtb (m - inject_Z f) (1 # 2)) eqn:L2; [exact Hup |].
    destruct (Z.even f); [| exact Hup].
    assert (m - inject_Z f <= 1 # 2).
    { destruct (Qlt_le_dec (1 # 2) (m - inject_Z f)) as [C | C]; [| exact C].
      apply Qltb_lt in C. unfold Qgtb in L2. congruence. }
    apply Qabs_Qle_condition. lra.
Qed.

Lemma Qpower_2_pos (z : Z) : 0 < 2 ^ z.
Proof. apply Qpower_0_lt. reflexivity. Qed.

Lemma Qpower_2_succ (z : Z) : 2 ^ (z + 1) == 2 * 2 ^ z.
Proof. rewrite Qpower_plus by discriminate. change (2 ^ 1) with 2. ring. Qed.

Lemma Qpower_2_minus (a b : Z) : 2 ^ (a - b) == 2 ^ a / 2 ^ b.
Proof.
  unfold Z.sub. rewrite Qpower_plus by discriminate. rewrite Qpower_opp.
  reflexivity.
Qed.

Lemma Qpower_2_inject (z : Z) : (0 <= z)%Z -> inject_Z (2 ^ z) == 2 ^ z.
Proof. intros H. apply (Zpower_Qpower 2 z H). Qed.

(** [Number_exponent q] is the exponent of the binade that holds [q]. *)
Lemma Number_exponent_spec (q : Q) :
  ~ q == 0 ->
  2 ^ Number_exponent q <= Qabs q /\ Qabs q < 2 ^ (Number_exponent q + 1).
Proof.
  intros Hq. unfold Number_exponent.
  set (n := Z.abs (Qnum q)). set (d := Z.pos (Qden q)).
  set (a := Z.log2 n). set (b := Z.log2 d).
  assert (Hn : (0 < n)%Z).
  { unfold n. destruct q as [[| k | k] den]; simpl; try lia.
    exfalso. apply Hq. reflexivity. }
  assert (Hd : (0 < d)%Z) by (unfold d; lia).
  assert (Eq : Qabs q == inject_Z n / inject_Z d).
  { destruct q as [num den]. unfold n, d. simpl. apply Qmake_Qdiv. }
  destruct (Z.log2_spec n Hn) as [Ha1 Ha2].
  destruct (Z.log2_spec d Hd) as [Hb1 Hb2].
  fold a in Ha1, Ha2. fold b in Hb1, Hb2.
  pose proof (Z.log2_nonneg n) as Ha0. pose proof (Z.log2_nonneg d) as Hb0.
  fold a in Ha0. fold b in Hb0.
  rewrite Zle_Qle in Ha1, Hb1. rewrite Zlt_Qlt in Ha2, Hb2.
  rewrite Qpower_2_inject in Ha1, Hb1, Ha2, Hb2 by lia.
  unfold Z.succ in Ha2, Hb2. rewrite Qpower_2_succ in Ha2, Hb2.
  assert (HD : 0 < inject_Z d)
    by (change 0 with (inject_Z 0); rewrite <- Zlt_Qlt; exact Hd).
  assert (HN : 0 < inject_Z n)
    by (change 0 with (inject_Z 0); rewrite <- Zlt_Qlt; exact Hn).
  pose proof (Qpower_2_pos a) as HA. pose proof (Qpower_2_pos b) as HB.
  assert (Test : (if (0 <=? a - b)%Z then (d * 2 ^ (a - b) <=? n)%Z
                  else (d <=? n * 2 ^ (- (a - b)))%Z) = true
                 <-> inject_Z d * 2 ^ (a - b) <= inject_Z n).
  { destruct (0 <=? a - b)%Z eqn:S.
    - apply Z.leb_le in S. rewrite Z.leb_le, Zle_Qle, inject_Z_mult.
      rewrite Qpower_2_inject by lia. reflexivity.
    - apply Z.leb_gt in S. rewrite Z.leb_le, Zle_Qle, inject_Z_mult.
      rewrite Qpower_2_inject by lia. rewrite Qpower_opp.
      pose proof (Qpower_2_pos (a - b)) as HE.
      split; intros H.
      + apply (Qmult_le_compat_r _ _ (2 ^ (a - b))) in H; [| lra].
        assert (Er : inject_Z n * / 2 ^ (a - b) * 2 ^ (a - b) == inject_Z n)
          by (field; lra).
        rewrite Er in H. exact H.
      + apply Qle_shift_div_l in H; [| exact HE]. exact H. }
  rewrite Eq.
  pose proof (Qpower_2_minus a b) as Eab.
  destruct (if (0 <=? a - b)%Z then _ else _) eqn:T.
  - apply proj1 in Test. specialize (Test eq_refl).
    rewrite Qpower_2_succ. rewrite Eab in Test |- *.
    set (A := 2 ^ a) in *. set (B := 2 ^ b) in *.
    set (N := inject_Z n) in *. set (D := inject_Z d) in *.
    clearbody A B N D.
    split.
    + apply Qle_shift_div_l; [exact HD | lra].
    + apply Qlt_shift_div_r; [exact HD |].
      assert (2 * (A / B) * D == 2 * A * (D / B)) as -> by (field; lra).
      assert (1 <= D / B) by (apply Qle_shift_div_l; lra).
      nra.
  - assert (Test' : inject_Z n < inject_Z d * 2 ^ (a - b)).
    { apply Qnot_le_lt. intros C. apply Test in C. congruence. }
    replace (a - b - 1 + 1)%Z with (a - b)%Z by lia.
    assert (E1 : 2 ^ (a - b - 1) == 2 ^ (a - b) / 2).
    { apply (Qmult_inj_r _ _ 2); [discriminate |].
      rewrite Qmult_comm, <- Qpower_2_succ.
      replace (a - b - 1 + 1)%Z with (a - b)%Z by lia. field. }
    rewrite E1. rewrite Eab in Test' |- *.
    set (A := 2 ^ a) in *. set (B := 2 ^ b) in *.
    set (N := inject_Z n) in *. set (D := inject_Z d) in *.
    clearbody A B N D.
    split.
    + apply Qle_shift_div_l; [exact HD |].
      assert (A / B / 2 * D == A * (D / (2 * B))) as -> by (field; lra).
      assert (D / (2 * B) <= 1) by (apply Qle_shift_div_r; lra).
      nra.
    + apply Qlt_shift_div_r; [exact HD | lra].
Qed.

(** The scale factor of a canvas 1080 pixels high is the double nearest to
    [1.35], [0x1.599999999999ap+0], a little above [1.35]. *)
Example Number_div_1080_800 :
  Number_div 1080 800 == 6079859496950170 # 4503599627370496.
Proof. vm_compute. reflexivity. Qed.

(** On that canvas the quotient of [13.5] by the scale factor lies below
    [10] by less than half a unit in the last place: the division yields
    [10], and so does [Math.floor]; without the rounding it would be [9]. *)
Example Math_floor_after_rounding :
  let sf := Number_div 1080 800 in
  13.5 / sf < 10 /\
  Number_div 13.5 sf == 10 /\
  Math_floor (Number_div 13.5 sf) = 10%Z /\
  Math_floor (13.5 / sf) = 9%Z.
Proof. vm_compute. repeat split; intros; discriminate. Qed.

(** On a canvas 716 pixels high the scale factor is the double nearest to
    [0.895].  A size computed as [10 * sf] is rounded to a double that lies
    below ten times the scale factor, and the quotient by the scale factor
    comes out under [10]: [Math.floor] yields [9]. *)
Example Math_floor_of_scaled_size :
  let sf := Number_div 716 800 in
  let size := Number_round (10 * sf) in
  size < 10 * sf /\
  Math_floor (Number_div size sf) = 9%Z.
Proof. vm_compute. split; reflexivity. Qed.

(** ** Transitions of the session *)

Section Preserves.

Context (R : relation Session) `{!PreOrder R}.

Lemma preserves_ret {A : Type} (a : A) : preserves R (ret a).
Proof. intros s. reflexivity. Qed.

Lemma preserves_get {A : Type} (f : Session -> A) : preserves R (get f).
Proof. intros s. reflexivity. Qed.

Lemma preserves_bind {A B : Type} (m : M A) (k : A -> M B) :
  preserves R m -> (forall a, preserves R (k a)) -> preserves R (bind m k).
Proof.
  intros Hm Hk s. unfold bind. cbv zeta.
  transitivity (snd (m s)); [apply Hm | apply Hk].
Qed.

Lemma preserves_when (b : bool) (m : M unit) :
  preserves R m -> preserves R (when b m).
Proof. intros Hm. destruct b; [exact Hm | apply preserves_ret]. Qed.

Lemma preserves_modify (f : Session -> Session) :
  (forall s, R s (f s)) -> preserves R (modify f).
Proof. intros Hf s. apply Hf. Qed.

Lemma preserves_for_down {A : Type} (body : nat -> A -> M A) :
  (forall i a, preserves R (body i a)) ->
  forall n a, preserves R (for_down n body a).
Proof.
  intros Hbody n. induction n as [| i IH]; intros a; simpl.
  - apply preserves_ret.
  - apply preserves_bind; [apply Hbody | exact IH].
Qed.

End Preserves.

Create HintDb walk discriminated.

(** [walk] follows the structure of a monadic program down to its calls
    and assignments. *)
Ltac walk_step :=
  lazymatch goal with
  | |- PreOrder _ => typeclasses eauto
  | |- preserves _ (bind _ _) =>
      apply preserves_bind; [typeclasses eauto | | intros ?]
  | |- preserves _ (ret _) => apply preserves_ret; typeclasses eauto
  | |- preserves _ (get _) => apply preserves_get; typeclasses eauto
  | |- preserves _ (when _ _) =>
      apply preserves_when; [typeclasses eauto |]
  | |- preserves _ (for_down _ _ _) =>
      apply preserves_for_down; [typeclasses eauto | intros ? ?]
  | |- preserves _ (modify _) => apply preserves_modify; intros ?
  | |- preserves _ (match ?x with _ => _ end) => destruct x
  | |- preserves _ _ => progress cbv zeta
  end.

Ltac walk := repeat walk_step.

#[export] Instance same_core_preorder : PreOrder same_core.
Proof.
  split.
  - intros s. reflexivity.
  - intros s1 s2 s3 H12 H23. unfold same_core in *. congruence.
Qed.

#[export] Instance same_vitals_preorder : PreOrder same_vitals.
Proof.
  split.
  - intros s. reflexivity.
  - intros s1 s2 s3 H12 H23. unfold same_vitals in *. congruence.
Qed.

#[export] Instance same_vitals_tolerant : Tolerant same_vitals.
Proof. split; [apply _ | auto]. Qed.

Lemma same_core_vitals s s' : same_core s s' -> same_vitals s s'.
Proof.
  unfold same_core, same_vitals, core, vitals. intros H.
  injection H. intros. congruence.
Qed.

(** *** What the effect emitters leave alone *)

Lemma random_same_core p : preserves same_core (random p).
Proof. intros s. reflexivity. Qed.

Lemma random_between_same_core p a b :
  preserves same_core (random_between p a b).
Proof. intros s. reflexivity. Qed.

Lemma random_max_same_core p a : preserves same_core (random_max p a).
Proof. intros s. reflexivity. Qed.

Lemma random_choice_same_core {A : Type} p (l : list A) d :
  preserves same_core (random_choice p l d).
Proof. intros s. reflexivity. Qed.

#[export] Hint Resolve random_same_core random_between_same_core
  random_max_same_core random_choice_same_core : walk.

Lemma spawnParticles_loop_same_core p sf x y c n :
  preserves same_core (spawnParticles_loop p sf x y c n).
Proof.
  induction n as [| n IH]; simpl.
  - walk.
  - walk; [auto with walk .. | reflexivity | exact IH].
Qed.

Lemma spawnParticles_same_core p x y c n :
  preserves same_core (spawnParticles p x y c n).
Proof.
  unfold spawnParticles. walk. apply spawnParticles_loop_same_core.
Qed.

Lemma spawnShockwave_same_core p x y c :
  preserves same_core (spawnShockwave p x y c).
Proof. intros s. reflexivity. Qed.

Lemma ambientParticle_same_core p sf :
  preserves same_core (ambientParticle p sf).
Proof.
  unfold ambientParticle. walk; auto with walk. reflexivity.
Qed.

Arguments spawnParticles : simpl never.
Arguments spawnShockwave : simpl never.

Lemma same_core_fields s s' :
  same_core s s' ->
  scaleFactor s' = scaleFactor s /\ player s' = player s /\
  enemies s' = enemies s /\ scoreRef s' = scoreRef s /\
  lastSpawnTime s' = lastSpawnTime s /\
  dangerIntensity s' = dangerIntensity s /\
  playerHealth s' = playerHealth s /\ invulnTimer s' = invulnTimer s /\
  screenShake s' = screenShake s /\
  damageEffectVal s' = damageEffectVal s /\
  mathRandomCount s' = mathRandomCount s /\ calls s' = calls s.
Proof.
  unfold same_core, core. intros H. injection H. intros. repeat split; assumption.
Qed.

Ltac frame_of H :=
  apply same_core_fields in H;
  destruct H as (? & ? & ? & ? & ? & ? & ? & ? & ? & ? & ? & ?).

Ltac frames :=
  repeat match goal with
  | |- context [snd (spawnParticles ?p ?x ?y ?c ?n ?s)] =>
      let H := fresh "H" in
      pose proof (spawnParticles_same_core p x y c n s) as H;
      generalize dependent (snd (spawnParticles p x y c n s));
      intros ? H; frame_of H
  | |- context [snd (spawnShockwave ?p ?x ?y ?c ?s)] =>
      let H := fresh "H" in
      pose proof (spawnShockwave_same_core p x y c s) as H;
      generalize dependent (snd (spawnShockwave p x y c s));
      intros ? H; frame_of H
  end.

Ltac proj :=
  cbn [fst snd scaleFactor player enemies particles shockwaves scoreRef
       lastSpawnTime dangerIntensity playerHealth invulnTimer screenShake
       damageEffectVal randomCount mathRandomCount calls
       set_player set_enemies set_particles set_shockwaves set_scoreRef
       set_lastSpawnTime set_dangerIntensity set_playerHealth
       set_invulnTimer set_screenShake set_damageEffectVal set_randomCount
       set_mathRandomCount set_calls
       FishEntity.id FishEntity.x FishEntity.y FishEntity.size
       FishEntity.vx FishEntity.vy FishEntity.color FishEntity.speed
       FishEntity.noiseOffset FishEntity.variant
       FishEntity.with_pos FishEntity.with_vel FishEntity.with_size
       FishEntity.static].

Ltac proj_all :=
  cbn [fst snd scaleFactor player enemies particles shockwaves scoreRef
       lastSpawnTime dangerIntensity playerHealth invulnTimer screenShake
       damageEffectVal randomCount mathRandomCount calls
       set_player set_enemies set_particles set_shockwaves set_scoreRef
       set_lastSpawnTime set_dangerIntensity set_playerHealth
       set_invulnTimer set_screenShake set_damageEffectVal set_randomCount
       set_mathRandomCount set_calls
       FishEntity.id FishEntity.x FishEntity.y FishEntity.size
       FishEntity.vx FishEntity.vy FishEntity.color FishEntity.speed
       FishEntity.noiseOffset FishEntity.variant
       FishEntity.with_pos FishEntity.with_vel FishEntity.with_size
       FishEntity.static] in *.


(** [run] unfolds the monad down to applications of the session
    functions; [frames] then names the session left by each effect
    emitter, and [proj_all] reads the fields. *)
Ltac run :=
  unfold setScore, setFinalSize, setCauseOfDeath, setGameState, playSound,
    call; unfold exec, bind, when, get, modify, ret;
  cbv beta zeta; cbn [fst snd].

Ltac settle := cbv beta; cbn [fst snd]; frames; proj_all.

Lemma consume_fields p sf i e s :
  let s' := exec (consume p sf i e) s in
  scaleFactor s' = scaleFactor s /\
  player s' =
    FishEntity.with_size (player s)
      (FishEntity.size (player s) + FishEntity.size e * 0.1) /\
  enemies s' = delete i (enemies s) /\
  scoreRef s' =
    (scoreRef s + Math_floor (Number_div (FishEntity.size e) sf))%Z /\
  playerHealth s' = Math_min (playerHealth s + 10) maxHealth /\
  invulnTimer s' = invulnTimer s /\
  calls s' =
    PlaySound Eat
    :: SetScore
         (scoreRef s + Math_floor (Number_div (FishEntity.size e) sf))
    :: calls s.
Proof.
  unfold consume. run. settle. repeat split; congruence.
Qed.

(** The damage branch while the invulnerability window is open. *)
Lemma damage_shielded p sf e s :
  0 < invulnTimer s -> exec (damage p sf e) s = s.
Proof.
  intros H. apply Qleb_gt in H. unfold damage. run. rewrite H. reflexivity.
Qed.

(** The damage branch once the window has expired. *)
Lemma damage_fields p sf e s :
  invulnTimer s <= 0 ->
  let s' := exec (damage p sf e) s in
  let h := playerHealth s - damageOf (FishEntity.variant e) in
  scaleFactor s' = scaleFactor s /\
  player s' = player s /\
  enemies s' = enemies s /\
  scoreRef s' = scoreRef s /\
  playerHealth s' = h /\
  invulnTimer s' = 1500 /\
  calls s' =
    (if Qleb h 0
     then [SetGameState GAME_OVER; SetCauseOfDeath (FishEntity.variant e);
           SetFinalSize
             (Math_floor (Number_div (FishEntity.size (player s)) sf))]
     else []) ++ PlaySound Hurt :: calls s.
Proof.
  intros H. apply Qleb_le in H. unfold damage. run. rewrite H. settle.
  match goal with E : playerHealth _ = _ |- _ => rewrite E end.
  destruct (Qleb (playerHealth s - _) 0); settle; cbn [app];
    repeat split; congruence.
Qed.

(** *** Steering *)

#[export] Instance same_standing_preorder : PreOrder same_standing.
Proof.
  split.
  - intros s. reflexivity.
  - intros s1 s2 s3 H12 H23. unfold same_standing in *. congruence.
Qed.

Lemma same_standing_fields s s' :
  same_standing s s' ->
  scaleFactor s' = scaleFactor s /\
  FishEntity.size (player s') = FishEntity.size (player s) /\
  enemies s' = enemies s /\ scoreRef s' = scoreRef s /\
  playerHealth s' = playerHealth s /\ invulnTimer s' = invulnTimer s /\
  calls s' = calls s.
Proof.
  unfold same_standing, standing, FishEntity.static. intros H.
  injection H. intros. repeat split; assumption.
Qed.

Lemma titanPull_same_standing p sf e d :
  preserves same_standing (titanPull p sf e d).
Proof.
  unfold titanPull. walk; unfold same_standing, standing; proj; reflexivity.
Qed.

Lemma chase_same_standing p ct sf e d md :
  preserves same_standing (chase p ct sf e d md).
Proof.
  unfold chase. walk. apply titanPull_same_standing.
Qed.

Lemma steer_same_standing p ct sf e d md :
  preserves same_standing (steer p ct sf e d md).
Proof. unfold steer. walk. apply chase_same_standing. Qed.

Lemma wander_static p ct sf e :
  FishEntity.static (wander p ct sf e) = FishEntity.static e.
Proof. reflexivity. Qed.

Lemma chase_static p ct sf e d md s :
  FishEntity.static (fst (fst (chase p ct sf e d md s))) =
  FishEntity.static e.
Proof. reflexivity. Qed.

Lemma steer_static p ct sf e d md s :
  FishEntity.static (fst (fst (steer p ct sf e d md s))) =
  FishEntity.static e.
Proof.
  unfold steer, bind, get. cbn [fst snd].
  destruct (chasing _ _ _ _); [apply chase_static | reflexivity].
Qed.

Lemma steer_wander p ct sf e d md s :
  chasing e (player s) d sf = false ->
  steer p ct sf e d md s = (wander p ct sf e, md, s).
Proof.
  intros H. unfold steer, bind, get. cbn [fst snd]. rewrite H. reflexivity.
Qed.

Lemma move_static e : FishEntity.static (move e) = FishEntity.static e.
Proof. reflexivity. Qed.

(** *** The shape of one iteration *)

Lemma iteration_none p ct sf i md s :
  enemies s !! i = None ->
  updateGameLogic_iteration p ct sf i md s = (md, s).
Proof.
  intros H. unfold updateGameLogic_iteration, bind, get. cbn [fst snd].
  rewrite H. reflexivity.
Qed.

Lemma iteration_some p ct sf i md s e :
  enemies s !! i = Some e ->
  let d :=
    P5.dist p (FishEntity.x (player s)) (FishEntity.y (player s))
      (FishEntity.x e) (FishEntity.y e) in
  let r := steer p ct sf e d md s in
  let e' := move (fst (fst r)) in
  let s1 := set_enemies (snd r) (<[i := e']> (enemies (snd r))) in
  let s2 := exec (resolveCollision p sf i e' d) s1 in
  updateGameLogic_iteration p ct sf i md s =
  (snd (fst r), exec (pruneOffscreen p sf i e') s2).
Proof.
  intros H. unfold updateGameLogic_iteration, bind, get, exec.
  cbn [fst snd]. rewrite H. reflexivity.
Qed.

(** *** The collision block *)

Lemma resolveCollision_consume p sf i e d s :
  colliding (player s) e d = true ->
  Qgeb (FishEntity.size (player s)) (FishEntity.size e) = true ->
  resolveCollision p sf i e d s = consume p sf i e s.
Proof.
  intros Hc Hge. unfold resolveCollision. run. rewrite Hc, Hge. reflexivity.
Qed.

Lemma resolveCollision_damage p sf i e d s :
  colliding (player s) e d = true ->
  Qgeb (FishEntity.size (player s)) (FishEntity.size e) = false ->
  resolveCollision p sf i e d s = damage p sf e s.
Proof.
  intros Hc Hge. unfold resolveCollision. run. rewrite Hc, Hge. reflexivity.
Qed.

Lemma resolveCollision_miss p sf i e d s :
  colliding (player s) e d = false ->
  resolveCollision p sf i e d s = (tt, s).
Proof.
  intros Hc. unfold resolveCollision. run. rewrite Hc. reflexivity.
Qed.

Lemma resolveCollision_miss_exec p sf i e d s :
  colliding (player s) e d = false ->
  exec (resolveCollision p sf i e d) s = s.
Proof.
  intros Hc. unfold exec. rewrite resolveCollision_miss by exact Hc.
  reflexivity.
Qed.

Lemma pruneOffscreen_enemies p sf i e s :
  enemies (exec (pruneOffscreen p sf i e) s) =
  if offscreen p sf e then delete i (enemies s) else enemies s.
Proof. unfold pruneOffscreen. run. destruct (offscreen p sf e); reflexivity. Qed.

Lemma pruneOffscreen_same p sf i e s :
  let s' := exec (pruneOffscreen p sf i e) s in
  player s' = player s /\ scoreRef s' = scoreRef s /\
  playerHealth s' = playerHealth s /\ invulnTimer s' = invulnTimer s /\
  calls s' = calls s.
Proof.
  unfold pruneOffscreen. run.
  destruct (offscreen p sf e); repeat split; reflexivity.
Qed.

Lemma delete_insert_same {A : Type} (l : list A) (i : nat) (x : A) :
  delete i (<[i := x]> l) = delete i l.
Proof.
  rewrite !delete_take_drop.
  rewrite take_insert_ge by lia. rewrite drop_insert_lt by lia. reflexivity.
Qed.

Lemma length_delete_le {A : Type} (l : list A) (i : nat) :
  (length (delete i l) <= length l)%nat.
Proof.
  rewrite delete_take_drop, length_app, length_take, length_drop. lia.
Qed.

Lemma length_delete_lt {A : Type} (l : list A) (i : nat) :
  (i < length l)%nat -> (length (delete i l) < length l)%nat.
Proof.
  intros H. rewrite delete_take_drop, length_app, length_take, length_drop.
  lia.
Qed.

Lemma not_predator_wanders e pl d sf :
  FishEntity.size e <= FishEntity.size pl -> chasing e pl d sf = false.
Proof.
  intros H. unfold chasing, actuallyPredator.
  apply Qgtb_le in H. rewrite H. reflexivity.
Qed.

(** ** The gate of [p.draw] *)

Lemma drawLogic_playing Math_random p :
  drawLogic Math_random PLAYING p = updateGameLogic Math_random p.
Proof. reflexivity. Qed.

Lemma drawLogic_idle Math_random gameState p s :
  gameState <> PLAYING -> drawLogic Math_random gameState p s = (tt, s).
Proof.
  intros H.
  destruct gameState; [reflexivity .. | contradiction | reflexivity].
Qed.

(** ** Consuming an enemy *)

(** An iteration on a colliding enemy no larger than the player: the enemy
    wanders and moves, and the consume branch runs before the off-screen
    block. *)
Lemma iteration_consume p ct sf i md s e :
  enemies s !! i = Some e ->
  P5.dist p (FishEntity.x (player s)) (FishEntity.y (player s))
    (FishEntity.x e) (FishEntity.y e)
  < FishEntity.size (player s) * 0.6 + FishEntity.size e * 0.6 ->
  FishEntity.size e <= FishEntity.size (player s) ->
  let e' := move (wander p ct sf e) in
  exec (updateGameLogic_iteration p ct sf i md) s =
  exec (pruneOffscreen p sf i e')
    (exec (consume p sf i e') (set_enemies s (<[i := e']> (enemies s)))).
Proof.
  intros Hi Hd Hsize e'. unfold exec.
  rewrite (iteration_some _ _ _ _ _ _ _ Hi). cbv zeta. cbn [fst snd].
  rewrite (steer_wander _ _ _ _ _ _ _ (not_predator_wanders _ _ _ _ Hsize)).
  cbn [fst snd]. fold e'. unfold exec.
  rewrite resolveCollision_consume; [reflexivity | |]; proj.
  - apply Qltb_lt. exact Hd.
  - apply Qgeb_ge. exact Hsize.
Qed.

(** What a consuming iteration leaves behind. *)
Lemma iteration_consume_fields p ct sf i md s e :
  enemies s !! i = Some e ->
  P5.dist p (FishEntity.x (player s)) (FishEntity.y (player s))
    (FishEntity.x e) (FishEntity.y e)
  < FishEntity.size (player s) * 0.6 + FishEntity.size e * 0.6 ->
  FishEntity.size e <= FishEntity.size (player s) ->
  let s' := exec (updateGameLogic_iteration p ct sf i md) s in
  FishEntity.size (player s') =
    FishEntity.size (player s) + FishEntity.size e * 0.1 /\
  scoreRef s' =
    (scoreRef s + Math_floor (Number_div (FishEntity.size e) sf))%Z /\
  playerHealth s' = Math_min (playerHealth s + 10) 100 /\
  enemies s' =
    (if offscreen p sf (move (wander p ct sf e))
     then delete i (delete i (enemies s))
     else delete i (enemies s)).
Proof.
  intros Hi Hd Hsize s'. subst s'.
  rewrite (iteration_consume p ct sf i md s e Hi Hd Hsize).
  set (e' := move (wander p ct sf e)).
  set (s1 := set_enemies s (<[i := e']> (enemies s))).
  destruct (consume_fields p sf i e' s1) as (_ & Hpl & Hen & Hsc & Hh & _).
  destruct (pruneOffscreen_same p sf i e' (exec (consume p sf i e') s1))
    as (Epl & Esc & Eh & _).
  pose proof (pruneOffscreen_enemies p sf i e' (exec (consume p sf i e') s1))
    as Een.
  revert Hpl Hen Hsc Hh Epl Esc Eh Een.
  generalize (exec (consume p sf i e') s1). intros s2.
  generalize (exec (pruneOffscreen p sf i e') s2). intros s3.
  intros Hpl Hen Hsc Hh Epl Esc Eh Een.
  rewrite Epl, Esc, Eh, Een, Hpl, Hsc, Hh, Hen.
  subst s1. proj. rewrite delete_insert_same.
  repeat split; reflexivity.
Qed.

(** C1. In an iteration of the enemy loop of a [PLAYING] tick, let the enemy
    [e] at index [i] be closer to the player than the collision threshold
    [0.6 * player.size + 0.6 * e.size], with [e.size <= player.size] (a tie
    goes to the player), on a canvas of scale [sf > 0] where the quotient
    [e.size / sf] is within the range of the doubles.  Then the iteration
    adds exactly [0.1 * e.size] to the player's size, adds exactly
    [Math.floor(e.size / sf)] to the score, [/] being the division of
    doubles, sets the health to [min (health + 10) 100], and leaves the
    enemy list without the element at index [i]. *)
Theorem C1_consume_outcome (p : P5.t) (currentTime sf maxDanger : Q)
  (i : nat) (s : Session) (e : FishEntity.t) :
  0 < sf ->
  Qabs (FishEntity.size e / sf) <= Number_MAX_VALUE ->
  enemies s !! i = Some e ->
  P5.dist p (FishEntity.x (player s)) (FishEntity.y (player s))
    (FishEntity.x e) (FishEntity.y e)
  < FishEntity.size (player s) * 0.6 + FishEntity.size e * 0.6 ->
  FishEntity.size e <= FishEntity.size (player s) ->
  let s' :=
    exec (updateGameLogic_iteration p currentTime sf i maxDanger) s in
  FishEntity.size (player s') =
    FishEntity.size (player s) + FishEntity.size e * 0.1 /\
  scoreRef s' =
    (scoreRef s + Math_floor (Number_div (FishEntity.size e) sf))%Z /\
  playerHealth s' = Math_min (playerHealth s + 10) 100 /\
  playerHealth s' <= 100 /\
  enemies s' =
    (if offscreen p sf (move (wander p currentTime sf e))
     then delete i (delete i (enemies s))
     else delete i (enemies s)) /\
  (length (enemies s') < length (enemies s))%nat.
Proof.
  intros _ _ Hi Hd Hsize s'.
  assert (Hlen : (i < length (enemies s))%nat)
    by (apply lookup_lt_is_Some; eauto).
  destruct (iteration_consume_fields p currentTime sf i maxDanger s e
              Hi Hd Hsize) as (Hpl & Hsc & Hh & Hen).
  fold s' in Hpl, Hsc, Hh, Hen. clearbody s'.
  repeat split; try assumption.
  - rewrite Hh. apply Math_min_le_r.
  - rewrite Hen.
    pose proof (length_delete_lt (enemies s) i Hlen) as L1.
    pose proof (length_delete_le (delete i (enemies s)) i) as L2.
    destruct (offscreen p sf _); lia.
Qed.

(** ** Relations kept by a whole tick *)

Lemma same_standing_vitals s s' : same_standing s s' -> same_vitals s s'.
Proof.
  unfold same_standing, same_vitals, standing, vitals. intros H.
  injection H. intros. congruence.
Qed.

Section Tick.

Context (Math_random : nat -> Q) (R : relation Session) `{!Tolerant R}.

Lemma tolerant_core (A : Type) (m : M A) :
  preserves same_core m -> preserves R m.
Proof. intros H s. apply tolerant_vitals, same_core_vitals, H. Qed.

Lemma tolerant_standing (A : Type) (m : M A) :
  preserves same_standing m -> preserves R m.
Proof. intros H s. apply tolerant_vitals, same_standing_vitals, H. Qed.

(** What the relation must allow besides changes outside the vitals: the
    two collision outcomes, the timer step, and any edit of the enemy
    list. *)
Hypothesis R_consume : forall p sf i e, preserves R (consume p sf i e).
Hypothesis R_damage : forall p sf e, preserves R (damage p sf e).
Hypothesis R_tickTimers : forall dt, preserves R (tickTimers dt).
Hypothesis R_enemies : forall s v, R s (set_enemies s v).

Lemma iteration_preserves p ct sf i md :
  preserves R (updateGameLogic_iteration p ct sf i md).
Proof.
  unfold updateGameLogic_iteration, resolveCollision, pruneOffscreen.
  walk; try apply R_enemies.
  - apply tolerant_standing, steer_same_standing.
  - apply R_consume.
  - apply R_damage.
Qed.

Lemma loop_preserves p ct sf : preserves R (updateGameLogic_loop p ct sf).
Proof. unfold updateGameLogic_loop. walk. apply iteration_preserves. Qed.

Lemma spawnEnemy_preserves p : preserves R (spawnEnemy Math_random p).
Proof.
  unfold spawnEnemy. walk; try apply R_enemies;
    try (apply tolerant_core;
         first [ apply random_same_core | apply random_between_same_core
               | apply random_max_same_core | apply random_choice_same_core ]).
  all: intros s; apply tolerant_vitals; reflexivity.
Qed.

Lemma spawnStep_preserves p ct : preserves R (spawnStep Math_random p ct).
Proof.
  unfold spawnStep. walk.
  - apply spawnEnemy_preserves.
  - apply tolerant_vitals. reflexivity.
Qed.

Lemma afterTimers_preserves p sf :
  preserves R
    (spawnStep Math_random p (P5.millis p) ;;;
     maxDanger <- updateGameLogic_loop p (P5.millis p) sf ;;
     modify (fun s => set_dangerIntensity s
       (P5.lerp (dangerIntensity s) maxDanger 0.1)) ;;;
     ambientParticle p sf).
Proof.
  walk.
  - apply spawnStep_preserves.
  - apply loop_preserves.
  - apply tolerant_vitals. reflexivity.
  - apply tolerant_core, ambientParticle_same_core.
Qed.

Lemma updateGameLogic_preserves p :
  preserves R (updateGameLogic Math_random p).
Proof.
  unfold updateGameLogic. walk.
  - apply R_tickTimers.
  - apply spawnStep_preserves.
  - apply loop_preserves.
  - apply tolerant_vitals. reflexivity.
  - apply tolerant_core, ambientParticle_same_core.
Qed.

End Tick.

(** ** Health *)

Lemma same_vitals_fields s s' :
  same_vitals s s' ->
  playerHealth s' = playerHealth s /\ invulnTimer s' = invulnTimer s /\
  calls s' = calls s /\ enemies s' = enemies s.
Proof.
  unfold same_vitals, vitals. intros H. injection H. intros.
  repeat split; assumption.
Qed.

#[export] Instance capped_tolerant : Tolerant capped.
Proof.
  split; [split |].
  - intros s H. exact H.
  - intros s1 s2 s3 H12 H23 H. apply H23, H12, H.
  - intros s s' E H. apply same_vitals_fields in E as (-> & _). exact H.
Qed.

#[export] Instance unfed_tolerant : Tolerant unfed.
Proof.
  split; [split |].
  - intros s. exists []. split; [reflexivity | intros _; apply Qle_refl].
  - intros s1 s2 s3 (evs1 & E1 & H1) (evs2 & E2 & H2).
    exists (evs2 ++ evs1). split.
    + rewrite E2, E1. apply app_assoc.
    + unfold eats in *. rewrite existsb_app. intros H.
      apply orb_false_iff in H as [Ha Hb].
      eapply Qle_trans; [apply H2, Ha | apply H1, Hb].
  - intros s s' E. apply same_vitals_fields in E as (Eh & _ & Ec & _).
    exists []. split; [exact Ec | intros _; rewrite Eh; apply Qle_refl].
Qed.

#[export] Instance unhurt_tolerant : Tolerant unhurt.
Proof.
  split; [split |].
  - intros s. exists [].
    split; [reflexivity | split; [intros _; reflexivity | discriminate]].
  - intros s1 s2 s3 (evs1 & E1 & Q1 & D1) (evs2 & E2 & Q2 & D2).
    exists (evs2 ++ evs1). split; [rewrite E2, E1; apply app_assoc |].
    unfold hurts in *. rewrite existsb_app.
    destruct (existsb _ evs2) eqn:H2; cbn [orb].
    + split; [discriminate | intros _; apply D2; reflexivity].
    + rewrite (Q2 eq_refl). split; assumption.
  - intros s s' E. apply same_vitals_fields in E as (_ & Et & Ec & _).
    exists []. split; [exact Ec | split; [intros _; exact Et | discriminate]].
Qed.

Lemma damageOf_pos v : 0 < damageOf v.
Proof. unfold damageOf. destruct (FishVariant_eqb v Titan); reflexivity. Qed.

Lemma damage_cases p sf e s :
  let s' := exec (damage p sf e) s in
  (0 < invulnTimer s /\ s' = s) \/
  (invulnTimer s <= 0 /\
   playerHealth s' = playerHealth s - damageOf (FishEntity.variant e) /\
   invulnTimer s' = 1500 /\
   exists evs, calls s' = evs ++ PlaySound Hurt :: calls s /\
               eats evs = false).
Proof.
  intros s'. destruct (Qlt_le_dec 0 (invulnTimer s)) as [H | H].
  - left. split; [exact H | apply damage_shielded, H].
  - right. destruct (damage_fields p sf e s H) as (_ & _ & _ & _ & Hh & Ht & Hc).
    repeat split; [exact H | exact Hh | exact Ht |].
    eexists. split; [exact Hc |]. destruct (Qleb _ 0); reflexivity.
Qed.

Lemma consume_capped p sf i e : preserves capped (consume p sf i e).
Proof.
  intros s _. destruct (consume_fields p sf i e s) as (_ & _ & _ & _ & H & _).
  unfold exec in H. revert H. generalize (snd (consume p sf i e s)).
  intros s' H. rewrite H. apply Math_min_le_r.
Qed.

Lemma damage_capped p sf e : preserves capped (damage p sf e).
Proof.
  intros s H.
  destruct (damage_cases p sf e s) as [[_ E] | (_ & E & _)];
    unfold exec in E; rewrite E; [exact H |].
  pose proof (damageOf_pos (FishEntity.variant e)). lra.
Qed.

Lemma tickTimers_capped dt : preserves capped (tickTimers dt).
Proof.
  intros s H. unfold tickTimers. run.
  destruct (Qgtb (invulnTimer s) 0); cbv beta; cbn [fst snd]; proj;
    destruct (_ && _); cbv beta; cbn [fst snd]; proj;
    first [exact H | apply Math_min_le_r].
Qed.

Lemma consume_unfed p sf i e : preserves unfed (consume p sf i e).
Proof.
  intros s. destruct (consume_fields p sf i e s) as (_ & _ & _ & _ & _ & _ & H).
  unfold exec in H. revert H. generalize (snd (consume p sf i e s)).
  intros s' H.
  exists [PlaySound Eat;
          SetScore
            (scoreRef s + Math_floor (Number_div (FishEntity.size e) sf))].
  split; [exact H |]. cbn [eats existsb orb]. discriminate.
Qed.

Lemma damage_unfed p sf e : preserves unfed (damage p sf e).
Proof.
  intros s.
  destruct (damage_cases p sf e s) as [[_ E] | (_ & E & _ & evs & Ec & Hev)];
    unfold exec in *.
  - rewrite E. reflexivity.
  - exists (evs ++ [PlaySound Hurt]). split.
    + rewrite Ec, <- app_assoc. reflexivity.
    + intros _. rewrite E.
      pose proof (damageOf_pos (FishEntity.variant e)). lra.
Qed.

Lemma tickTimers_fields dt s :
  let t1 :=
    if Qgtb (invulnTimer s) 0 then invulnTimer s - dt else invulnTimer s in
  let s1 := exec (tickTimers dt) s in
  invulnTimer s1 = t1 /\
  playerHealth s1 =
    (if Qltb (playerHealth s) maxHealth && Qleb t1 0
     then Math_min (playerHealth s + 0.05) maxHealth
     else playerHealth s) /\
  calls s1 = calls s /\ enemies s1 = enemies s /\
  scaleFactor s1 = scaleFactor s /\ scoreRef s1 = scoreRef s /\
  player s1 = player s.
Proof.
  unfold tickTimers. run.
  destruct (Qgtb (invulnTimer s) 0); cbv beta; cbn [fst snd]; proj;
    destruct (_ && _); cbv beta; cbn [fst snd]; proj;
    repeat split; reflexivity.
Qed.

(** A tick is the timer step followed by the rest of [updateGameLogic]. *)
Lemma updateGameLogic_split Math_random p s :
  exec (updateGameLogic Math_random p) s =
  exec
    (spawnStep Math_random p (P5.millis p) ;;;
     maxDanger <- updateGameLogic_loop p (P5.millis p) (scaleFactor s) ;;
     modify (fun s => set_dangerIntensity s
       (P5.lerp (dangerIntensity s) maxDanger 0.1)) ;;;
     ambientParticle p (scaleFactor s))
    (exec (tickTimers (P5.deltaTime p)) s).
Proof.
  unfold updateGameLogic. unfold exec, bind at 1 2, get. cbv zeta.
  cbn [fst snd]. reflexivity.
Qed.

Lemma capped_enemies s v : capped s (set_enemies s v).
Proof. intros H. exact H. Qed.

Lemma unfed_enemies s v : unfed s (set_enemies s v).
Proof.
  exists []. split; [reflexivity | intros _; apply Qle_refl].
Qed.

Lemma unhurt_enemies s v : unhurt s (set_enemies s v).
Proof.
  exists []. split; [reflexivity | split; [intros _; reflexivity | discriminate]].
Qed.

#[export] Instance reporting_tolerant : Tolerant reporting.
Proof.
  split; [split |].
  - intros s. exists [].
    split; [reflexivity | split; [intros _ H; exact H | discriminate]].
  - intros s1 s2 s3 (evs1 & E1 & Q1 & D1) (evs2 & E2 & Q2 & D2).
    exists (evs2 ++ evs1). split; [rewrite E2, E1; apply app_assoc |].
    unfold hurts, ends in *. rewrite !existsb_app.
    destruct (existsb _ evs2) eqn:H2; cbn [orb].
    + split; [discriminate | intros _].
      destruct (D2 eq_refl) as [H | H]; [left; exact H | right].
      rewrite H. reflexivity.
    + split.
      * intros H1 Hpos. apply (Q2 eq_refl), (Q1 H1), Hpos.
      * intros H1. destruct (D1 H1) as [H | H].
        -- left. apply (Q2 eq_refl), H.
        -- right. rewrite H. apply orb_true_r.
  - intros s s' E. apply same_vitals_fields in E as (Eh & _ & Ec & _).
    exists []. split; [exact Ec |].
    split; [intros _ H; rewrite Eh; exact H | discriminate].
Qed.

Lemma Math_min_pos a b : 0 < a -> 0 < b -> 0 < Math_min a b.
Proof. intros Ha Hb. unfold Math_min. apply Q.min_glb_lt; assumption. Qed.

Lemma consume_reporting p sf i e : preserves reporting (consume p sf i e).
Proof.
  intros s.
  destruct (consume_fields p sf i e s) as (_ & _ & _ & _ & Hh & _ & Hc).
  unfold exec in Hh, Hc. revert Hh Hc. generalize (snd (consume p sf i e s)).
  intros s' Hh Hc.
  exists [PlaySound Eat;
          SetScore
            (scoreRef s + Math_floor (Number_div (FishEntity.size e) sf))].
  split; [exact Hc |]. cbn [hurts existsb orb].
  split; [intros _ Hpos | discriminate].
  rewrite Hh. apply Math_min_pos; [lra | reflexivity].
Qed.

Lemma damage_reporting p sf e : preserves reporting (damage p sf e).
Proof.
  intros s. destruct (Qlt_le_dec 0 (invulnTimer s)) as [H | H].
  - pose proof (damage_shielded p sf e s H) as E. unfold exec in E.
    rewrite E. reflexivity.
  - destruct (damage_fields p sf e s H) as (_ & _ & _ & _ & Hh & _ & Hc).
    unfold exec in Hh, Hc. revert Hh Hc. generalize (snd (damage p sf e s)).
    intros s' Hh Hc.
    set (h := playerHealth s - damageOf (FishEntity.variant e)) in *.
    exists ((if Qleb h 0
             then [SetGameState GAME_OVER;
                   SetCauseOfDeath (FishEntity.variant e);
                   SetFinalSize
                     (Math_floor
                        (Number_div (FishEntity.size (player s)) sf))]
             else []) ++ [PlaySound Hurt]).
    split; [rewrite Hc, <- app_assoc; reflexivity |].
    unfold hurts, ends. rewrite !existsb_app. cbn [existsb].
    rewrite !orb_true_r. split; [discriminate | intros _].
    rewrite Hh.
    destruct (Qleb h 0) eqn:G; [right; reflexivity | left].
    apply Qleb_gt in G. exact G.
Qed.

Lemma tickTimers_reporting dt : preserves reporting (tickTimers dt).
Proof.
  intros s.
  destruct (tickTimers_fields dt s) as (_ & Hh & Hc & _).
  unfold exec in Hh, Hc. revert Hh Hc. generalize (snd (tickTimers dt s)).
  intros s' Hh Hc. exists [].
  split; [exact Hc | split; [intros _ Hpos | discriminate]].
  rewrite Hh. destruct (_ && _); [| exact Hpos].
  apply Math_min_pos; [lra | reflexivity].
Qed.

Lemma reporting_enemies s v : reporting s (set_enemies s v).
Proof.
  exists [].
  split; [reflexivity | split; [intros _ H; exact H | discriminate]].
Qed.

Lemma static_fields a b :
  FishEntity.static a = FishEntity.static b ->
  FishEntity.id a = FishEntity.id b /\
  FishEntity.size a = FishEntity.size b /\
  FishEntity.speed a = FishEntity.speed b /\
  FishEntity.color a = FishEntity.color b /\
  FishEntity.variant a = FishEntity.variant b /\
  FishEntity.noiseOffset a = FishEntity.noiseOffset b.
Proof.
  unfold FishEntity.static. intros H. injection H. intros.
  repeat split; assumption.
Qed.

Lemma steered_static p ct sf e md s :
  FishEntity.static (steered p ct sf e md s) = FishEntity.static e.
Proof. unfold steered. rewrite move_static. apply steer_static. Qed.

(** An iteration on a colliding enemy larger than the player is the damage
    branch, run on a session with the same vitals, score and player size,
    followed by the off-screen block. *)
Lemma iteration_damage p ct sf i md s e :
  enemies s !! i = Some e ->
  P5.dist p (FishEntity.x (player s)) (FishEntity.y (player s))
    (FishEntity.x e) (FishEntity.y e)
  < FishEntity.size (player s) * 0.6 + FishEntity.size e * 0.6 ->
  FishEntity.size (player s) < FishEntity.size e ->
  exists s1,
    playerHealth s1 = playerHealth s /\ invulnTimer s1 = invulnTimer s /\
    calls s1 = calls s /\ scoreRef s1 = scoreRef s /\
    FishEntity.size (player s1) = FishEntity.size (player s) /\
    enemies s1 = <[i := steered p ct sf e md s]> (enemies s) /\
    exec (updateGameLogic_iteration p ct sf i md) s =
    exec (pruneOffscreen p sf i (steered p ct sf e md s))
      (exec (damage p sf (steered p ct sf e md s)) s1).
Proof.
  intros Hi Hd Hsize. unfold exec.
  rewrite (iteration_some _ _ _ _ _ _ _ Hi). cbv zeta. cbn [fst snd].
  fold (steered p ct sf e md s).
  destruct (static_fields _ _ (steered_static p ct sf e md s))
    as (_ & Es & _).
  set (e' := steered p ct sf e md s) in *.
  set (d := P5.dist p _ _ _ _) in *.
  destruct (same_standing_fields _ _ (steer_same_standing p ct sf e d md s))
    as (_ & Ep & Ee & Esc & Eh & Et & Ec).
  revert Ep Ee Esc Eh Et Ec. generalize (snd (steer p ct sf e d md s)).
  intros s0 Ep Ee Esc Eh Et Ec.
  exists (set_enemies s0 (<[i := e']> (enemies s0))).
  proj. rewrite Ee. repeat split; try assumption.
  unfold exec. rewrite resolveCollision_damage; [reflexivity | |]; proj.
  - apply Qltb_lt. rewrite Ep, Es. exact Hd.
  - apply Qgeb_lt. rewrite Ep, Es. exact Hsize.
Qed.

(** The log of an iteration in which a larger enemy hits the player with
    the invulnerability window expired: the hurt sound, then, when health
    is at most 0 after the subtraction, the three calls that end the
    game. *)
Lemma iteration_damage_fields p ct sf i md s e :
  enemies s !! i = Some e ->
  P5.dist p (FishEntity.x (player s)) (FishEntity.y (player s))
    (FishEntity.x e) (FishEntity.y e)
  < FishEntity.size (player s) * 0.6 + FishEntity.size e * 0.6 ->
  FishEntity.size (player s) < FishEntity.size e ->
  invulnTimer s <= 0 ->
  let s' := exec (updateGameLogic_iteration p ct sf i md) s in
  let h := playerHealth s - damageOf (FishEntity.variant e) in
  playerHealth s' = h /\
  invulnTimer s' = 1500 /\
  calls s' =
    (if Qleb h 0
     then [SetGameState GAME_OVER; SetCauseOfDeath (FishEntity.variant e);
           SetFinalSize
             (Math_floor (Number_div (FishEntity.size (player s)) sf))]
     else []) ++ PlaySound Hurt :: calls s.
Proof.
  intros Hi Hd Hsize Hexp s' h. subst s' h.
  destruct (iteration_damage p ct sf i md s e Hi Hd Hsize)
    as (s1 & Eh & Et & Ec & _ & Ep & _ & Eit).
  destruct (static_fields _ _ (steered_static p ct sf e md s))
    as (_ & _ & _ & _ & Ev & _).
  rewrite Eit. clear Eit.
  set (e' := steered p ct sf e md s) in *.
  destruct (pruneOffscreen_same p sf i e' (exec (damage p sf e') s1))
    as (_ & _ & Ph & Pt & Pc).
  rewrite Ph, Pt, Pc. clear Ph Pt Pc.
  rewrite <- Et in Hexp.
  destruct (damage_fields p sf e' s1 Hexp) as (_ & _ & _ & _ & Dh & Dt & Dc).
  rewrite Dh, Dt, Dc, Eh, Ec, Ep, Ev. repeat split; reflexivity.
Qed.

(** C3 (amended). Health never exceeds 100 after a tick that starts with
    health at most 100.  The passive regeneration of 0.05 is applied by
    the timer step exactly when the timer, after this tick's decrement, is
    at most 0 (and health is below 100); in a tick whose timer is still
    positive after the decrement, the timer step leaves health as it is,
    and health at the end of the tick is at most the health at its start
    unless an enemy was eaten during it.  Eating sets health to
    [min (health + 10) 100] whatever the timer.  No lower bound is kept: a
    damage event, taken with the timer at most 0, subtracts 60 for a titan
    and 35 otherwise without clamping, and when the result is at most 0
    the same iteration reports the final size ([Math.floor(size / sf)],
    for [sf > 0] and a quotient within the range of the doubles), the
    cause of death and [GAME_OVER].  Over a whole tick: without a damage event a positive
    health stays positive, and a tick with a damage event that ends with
    health at most 0 has reported [GAME_OVER]. *)
Theorem C3_health_capped_regen_gated (Math_random : nat -> Q) (p : P5.t)
  (s : Session) :
  playerHealth s <= 100 ->
  let s1 := exec (tickTimers (P5.deltaTime p)) s in
  let s' := exec (updateGameLogic Math_random p) s in
  playerHealth s' <= 100 /\
  (0 < invulnTimer s1 -> playerHealth s1 = playerHealth s) /\
  (0 < invulnTimer s1 ->
   exists evs, calls s' = evs ++ calls s /\
     (eats evs = false -> playerHealth s' <= playerHealth s)) /\
  (invulnTimer s1 <= 0 -> playerHealth s < 100 ->
   playerHealth s1 = Math_min (playerHealth s + 0.05) 100) /\
  (exists evs, calls s' = evs ++ calls s /\
     (hurts evs = false -> 0 < playerHealth s -> 0 < playerHealth s') /\
     (hurts evs = true -> playerHealth s' <= 0 -> ends evs = true)) /\
  (forall (currentTime sf maxDanger : Q) (i : nat) (t : Session)
          (e : FishEntity.t),
     enemies t !! i = Some e ->
     P5.dist p (FishEntity.x (player t)) (FishEntity.y (player t))
       (FishEntity.x e) (FishEntity.y e)
     < FishEntity.size (player t) * 0.6 + FishEntity.size e * 0.6 ->
     let t' :=
       exec (updateGameLogic_iteration p currentTime sf i maxDanger) t in
     (FishEntity.size e <= FishEntity.size (player t) ->
      playerHealth t' = Math_min (playerHealth t + 10) 100) /\
     (FishEntity.size (player t) < FishEntity.size e ->
      invulnTimer t <= 0 ->
      let h :=
        playerHealth t -
        (match FishEntity.variant e with Titan => 60 | _ => 35 end) in
      playerHealth t' = h /\
      (0 < sf ->
       Qabs (FishEntity.size (player t) / sf) <= Number_MAX_VALUE ->
       calls t' =
         (if Qleb h 0
          then [SetGameState GAME_OVER;
                SetCauseOfDeath (FishEntity.variant e);
                SetFinalSize
                  (Math_floor
                     (Number_div (FishEntity.size (player t)) sf))]
          else []) ++ PlaySound Hurt :: calls t))).
Proof.
  intros Hcap s1 s'.
  destruct (tickTimers_fields (P5.deltaTime p) s)
    as (Ht & Hh & Hc & _). fold s1 in Ht, Hh, Hc.
  assert (Hgate : 0 < invulnTimer s1 -> playerHealth s1 = playerHealth s).
  { intros Hpos. rewrite Hh. rewrite Ht in Hpos.
    apply Qleb_gt in Hpos. rewrite Hpos, andb_false_r. reflexivity. }
  split; [| split; [exact Hgate | split; [| split; [| split]]]].
  - apply (updateGameLogic_preserves Math_random capped); auto using
      consume_capped, damage_capped, tickTimers_capped, capped_enemies.
  - intros Hpos. subst s'. rewrite updateGameLogic_split. fold s1.
    destruct (afterTimers_preserves Math_random unfed consume_unfed
                damage_unfed unfed_enemies p (scaleFactor s) s1)
      as (evs & Ec & Hle).
    exists evs. unfold exec. split.
    + rewrite Ec, Hc. reflexivity.
    + intros Hev. rewrite <- (Hgate Hpos). apply Hle, Hev.
  - intros Hexp Hlow. rewrite Hh. rewrite Ht in Hexp.
    apply Qleb_le in Hexp.
    assert (L : Qltb (playerHealth s) maxHealth = true)
      by (apply Qltb_lt; exact Hlow).
    rewrite Hexp, L. reflexivity.
  - destruct (updateGameLogic_preserves Math_random reporting
                consume_reporting damage_reporting tickTimers_reporting
                reporting_enemies p s) as (evs & Ec & Hq & Hd).
    exists evs. split; [exact Ec |]. split; [exact Hq |].
    intros Hev Hdead. destruct (Hd Hev) as [Hpos | Hend]; [| exact Hend].
    exfalso. unfold s', exec in Hdead. lra.
  - intros ct sf md i t e Hi Hd t'. split.
    + intros Hsize.
      destruct (iteration_consume_fields p ct sf i md t e Hi Hd Hsize)
        as (_ & _ & Hhealth & _).
      exact Hhealth.
    + intros Hsize Hexp h.
      destruct (iteration_damage_fields p ct sf i md t e Hi Hd Hsize Hexp)
        as (Dh & _ & Dc).
      assert (Ed : damageOf (FishEntity.variant e) =
                   match FishEntity.variant e with Titan => 60 | _ => 35 end)
        by (unfold damageOf; destruct (FishEntity.variant e); reflexivity).
      rewrite Ed in Dh, Dc. split; [exact Dh | intros _ _; exact Dc].
Qed.

(** C3, as stated, fails: a titan hit takes a health of 40 below zero; a
    meal raises health while the invulnerability timer is positive before
    and after the tick; and in the tick in which a positive timer runs
    out, the passive regeneration already applies. *)
Lemma C3_counterexample :
  (let s' := exec (updateGameLogic halves quietP5) titanHit in
   0 <= playerHealth titanHit /\ playerHealth titanHit <= 100 /\
   playerHealth s' < 0) /\
  (let s' := exec (updateGameLogic halves quietP5) shieldedMeal in
   0 < invulnTimer shieldedMeal /\ 0 < invulnTimer s' /\
   playerHealth shieldedMeal < playerHealth s') /\
  (let s' := exec (updateGameLogic halves quietP5) expiringShield in
   0 < invulnTimer expiringShield /\
   playerHealth expiringShield < playerHealth s').
Proof.
  repeat split; vm_compute; first [reflexivity | discriminate].
Qed.

(** ** Damage and the invulnerability window *)

Lemma consume_unhurt p sf i e : preserves unhurt (consume p sf i e).
Proof.
  intros s.
  destruct (consume_fields p sf i e s) as (_ & _ & _ & _ & _ & Ht & Hc).
  unfold exec in Ht, Hc. revert Ht Hc. generalize (snd (consume p sf i e s)).
  intros s' Ht Hc.
  exists [PlaySound Eat;
          SetScore
            (scoreRef s + Math_floor (Number_div (FishEntity.size e) sf))].
  split; [exact Hc |]. cbn [hurts existsb orb].
  split; [intros _; exact Ht | discriminate].
Qed.

Lemma damage_unhurt p sf e : preserves unhurt (damage p sf e).
Proof.
  intros s.
  destruct (damage_cases p sf e s) as [[_ E] | (_ & _ & Et & evs & Ec & _)];
    unfold exec in *.
  - rewrite E. reflexivity.
  - exists (evs ++ [PlaySound Hurt]). split.
    + rewrite Ec, <- app_assoc. reflexivity.
    + unfold hurts. rewrite existsb_app. cbn [existsb]. rewrite !orb_true_r.
      split; [discriminate | intros _; exact Et].
Qed.

(** C4. When an enemy larger than the player collides with it, health
    changes only if the invulnerability timer is at most 0: then the loss
    is exactly 60 for a titan and exactly 35 for any other variant,
    whatever the enemy's size, and the timer reads exactly 1500 after the
    iteration; with a positive timer health and timer are untouched.
    Over a whole tick with a non-negative frame time, a damage event
    leaves the timer at 1500, and without one the timer loses the frame
    time while positive, never grows, and stays put once it is at most
    0. *)
Theorem C4_damage_and_timer (Math_random : nat -> Q) (p : P5.t)
  (currentTime sf maxDanger : Q) (i : nat) (s : Session)
  (e : FishEntity.t) :
  enemies s !! i = Some e ->
  P5.dist p (FishEntity.x (player s)) (FishEntity.y (player s))
    (FishEntity.x e) (FishEntity.y e)
  < FishEntity.size (player s) * 0.6 + FishEntity.size e * 0.6 ->
  FishEntity.size (player s) < FishEntity.size e ->
  let s' :=
    exec (updateGameLogic_iteration p currentTime sf i maxDanger) s in
  (0 < invulnTimer s ->
   playerHealth s' = playerHealth s /\ invulnTimer s' = invulnTimer s) /\
  (invulnTimer s <= 0 ->
   playerHealth s' =
     playerHealth s -
     (match FishEntity.variant e with Titan => 60 | _ => 35 end) /\
   invulnTimer s' = 1500) /\
  (forall t : Session,
     0 <= P5.deltaTime p ->
     let t' := exec (updateGameLogic Math_random p) t in
     exists evs, calls t' = evs ++ calls t /\
       (hurts evs = true -> invulnTimer t' = 1500) /\
       (hurts evs = false ->
        (0 < invulnTimer t ->
         invulnTimer t' = invulnTimer t - P5.deltaTime p) /\
        (invulnTimer t <= 0 -> invulnTimer t' = invulnTimer t) /\
        invulnTimer t' <= invulnTimer t)).
Proof.
  intros Hi Hd Hsize s'.
  destruct (iteration_damage p currentTime sf i maxDanger s e Hi Hd Hsize)
    as (s1 & Eh & Et & _ & _ & _ & _ & Eit).
  destruct (static_fields _ _
              (steered_static p currentTime sf e maxDanger s))
    as (_ & _ & _ & _ & Ev & _).
  subst s'. rewrite Eit. clear Eit.
  set (e' := steered p currentTime sf e maxDanger s) in *.
  destruct (pruneOffscreen_same p sf i e' (exec (damage p sf e') s1))
    as (_ & _ & Ph & Pt & _).
  rewrite Ph, Pt. clear Ph Pt.
  split; [| split].
  - intros Hpos. rewrite <- Et in Hpos.
    rewrite (damage_shielded p sf e' s1 Hpos). split; assumption.
  - intros Hexp. rewrite <- Et in Hexp.
    destruct (damage_fields p sf e' s1 Hexp) as (_ & _ & _ & _ & Dh & Dt & _).
    rewrite Dh, Dt, Eh, Ev. split; [| reflexivity].
    unfold damageOf. destruct (FishEntity.variant e); reflexivity.
  - intros t Hdt t'. subst t'. rewrite updateGameLogic_split.
    destruct (tickTimers_fields (P5.deltaTime p) t) as (Tt & _ & Tc & _).
    revert Tt Tc. generalize (exec (tickTimers (P5.deltaTime p)) t).
    intros t1 Tt Tc.
    destruct (afterTimers_preserves Math_random unhurt consume_unhurt
                damage_unhurt unhurt_enemies p (scaleFactor t) t1)
      as (evs & Ec & Hq & Hh).
    exists evs. unfold exec. split; [rewrite Ec, Tc; reflexivity |].
    split; [exact Hh |]. intros Hev. rewrite (Hq Hev), Tt.
    destruct (Qgtb (invulnTimer t) 0) eqn:G.
    + apply Qgtb_gt in G.
      split; [intros _; reflexivity | split; [intros G'; exfalso; lra | lra]].
    + apply Qgtb_le in G.
      split; [intros G'; exfalso; lra | split; [intros _; reflexivity | lra]].
Qed.

(** ** Off-screen enemies *)


(** Every iteration on a live index: steering leaves a session [s0] that
    differs from [s] in the player's position and the screen shake only;
    the steered enemy is written back, the collision block runs, and the
    off-screen block comes last. *)
Lemma iteration_shape p ct sf i md s e :
  enemies s !! i = Some e ->
  let d :=
    P5.dist p (FishEntity.x (player s)) (FishEntity.y (player s))
      (FishEntity.x e) (FishEntity.y e) in
  let e' := steered p ct sf e md s in
  exists s0,
    same_standing s s0 /\
    exec (updateGameLogic_iteration p ct sf i md) s =
    exec (pruneOffscreen p sf i e')
      (exec (resolveCollision p sf i e' d)
         (set_enemies s0 (<[i := e']> (enemies s)))).
Proof.
  intros Hi d e'. unfold exec.
  rewrite (iteration_some _ _ _ _ _ _ _ Hi). cbv zeta. cbn [fst snd].
  fold d. fold (steered p ct sf e md s). fold e'.
  pose proof (steer_same_standing p ct sf e d md s) as Hst.
  destruct (same_standing_fields _ _ Hst) as (_ & _ & Ee & _).
  revert Hst Ee. generalize (snd (steer p ct sf e d md s)).
  intros s0 Hst Ee. exists s0. rewrite Ee. split; [exact Hst | reflexivity].
Qed.





(** A whole tick at [edgeMealFollowed]: the second prey stays on screen
    and out of the player's reach, yet the tick leaves no enemy, the second
    splice at index 0 having taken it. *)
Example second_splice_takes_follower :
  let s' := exec (updateGameLogic halves quietP5) edgeMealFollowed in
  let e := move (wander quietP5 100 1 bystander) in
  offscreen quietP5 1 e = false /\
  colliding (player edgeMealFollowed) e
    (P5.dist quietP5 (FishEntity.x (player edgeMealFollowed))
       (FishEntity.y (player edgeMealFollowed))
       (FishEntity.x bystander) (FishEntity.y bystander)) = false /\
  enemies s' = [] /\
  calls s' = [PlaySound Eat; SetScore 200].
Proof. vm_compute. repeat split; reflexivity. Qed.

(** ** The titan's pull *)

Lemma steer_chase p ct sf e d md s :
  chasing e (player s) d sf = true ->
  steer p ct sf e d md s = chase p ct sf e d md s.
Proof.
  intros H. unfold steer, bind, get. cbn [fst snd]. rewrite H. reflexivity.
Qed.

Lemma chasing_spec e pl d sf :
  chasing e pl d sf = true <->
  FishEntity.size pl < FishEntity.size e /\
  d < detectionRange (FishEntity.variant e) sf.
Proof.
  unfold chasing, actuallyPredator.
  rewrite andb_true_iff, Qgtb_gt, Qltb_lt. reflexivity.
Qed.

(** C5 (amended). A titan larger than the player pulls the player's
    position by [0.4 * sf] towards itself whenever the player is inside the
    titan's whole detection radius [500 * sf], not a closer sub-radius;
    the added screen shake of 0.2 applies only below the distance
    [200 * sf].  Outside the detection radius, or when the titan is not
    larger than the player, steering moves neither the player nor the
    screen shake. *)
Theorem C5_titan_pull_range (p : P5.t) (currentTime sf d maxDanger : Q)
  (e : FishEntity.t) (s : Session) :
  FishEntity.variant e = Titan ->
  let s' := snd (steer p currentTime sf e d maxDanger s) in
  let angleToTitan :=
    P5.atan2 p (FishEntity.y e - FishEntity.y (player s))
               (FishEntity.x e - FishEntity.x (player s)) in
  (FishEntity.size (player s) < FishEntity.size e -> d < 500 * sf ->
   FishEntity.x (player s') =
     FishEntity.x (player s) + P5.cos p angleToTitan * (0.4 * sf) /\
   FishEntity.y (player s') =
     FishEntity.y (player s) + P5.sin p angleToTitan * (0.4 * sf) /\
   (d < 200 * sf -> screenShake s' = screenShake s + 0.2) /\
   (200 * sf <= d -> screenShake s' = screenShake s)) /\
  (FishEntity.size e <= FishEntity.size (player s) \/ 500 * sf <= d ->
   s' = s).
Proof.
  intros Hv s' a. split.
  - intros Hsize Hd.
    assert (Hch : chasing e (player s) d sf = true).
    { apply chasing_spec. rewrite Hv. split; assumption. }
    subst s'. rewrite (steer_chase _ _ _ _ _ _ _ Hch).
    unfold chase, titanPull. rewrite Hv. run. fold a.
    destruct (Qltb d (200 * sf)) eqn:Hclose; cbv beta; cbn [fst snd]; proj.
    + apply Qltb_lt in Hclose.
      repeat split; try reflexivity. intros Hfar. exfalso. lra.
    + apply Qltb_ge in Hclose.
      repeat split; try reflexivity. intros Hnear. exfalso. lra.
  - intros Hout.
    assert (Hch : chasing e (player s) d sf = false).
    { apply not_true_iff_false. rewrite chasing_spec, Hv.
      intros [Hsize Hd]. cbn [detectionRange] in Hd.
      destruct Hout as [Hout | Hout]; lra. }
    subst s'. rewrite (steer_wander _ _ _ _ _ _ _ Hch). reflexivity.
Qed.

(** C5, as stated, fails: at distance 499, just inside the detection
    radius of 500 and well outside the shake radius of 200, the titan
    still pulls the player (from 640 to 640.4); only the shake is
    confined to a closer range. *)
Lemma C5_counterexample :
  let d := P5.dist quietP5 640 400 1139 400 in
  let s' := exec (updateGameLogic halves quietP5) farTitanSession in
  d == 499 /\ detectionRange Titan 1 == 500 /\
  FishEntity.x (player farTitanSession) == 640 /\
  FishEntity.x (player s') == 640.4 /\
  screenShake s' == screenShake farTitanSession.
Proof. vm_compute. repeat split; reflexivity. Qed.

(** ** The spawner *)

#[export] Instance same_on_preorder {A : Type} (f : Session -> A) :
  PreOrder (same_on f).
Proof.
  split.
  - intros s. reflexivity.
  - intros s1 s2 s3 H12 H23. unfold same_on in *. congruence.
Qed.

Lemma pushes_bind {A B : Type} P (m : M A) (k : A -> M B) :
  preserves (same_on enemies) m -> (forall a, pushes P (k a)) ->
  pushes P (bind m k).
Proof.
  intros Hm Hk s. unfold bind. cbv zeta.
  destruct (Hk (fst (m s)) (snd (m s))) as (e & He & HP).
  exists e. split; [| exact HP]. rewrite He. f_equal. apply Hm.
Qed.

Lemma yields_bind {A B : Type} (P : B -> Prop) (m : M A) (k : A -> M B) :
  (forall a, yields P (k a)) -> yields P (bind m k).
Proof. intros Hk s. unfold bind. cbv zeta. apply Hk. Qed.

Lemma yields_ret {A : Type} (P : A -> Prop) (a : A) : P a -> yields P (ret a).
Proof. intros H s. exact H. Qed.

Lemma bind_get {A B : Type} (f : Session -> A) (k : A -> M B) s :
  bind (get f) k s = k (f s) s.
Proof. reflexivity. Qed.

Lemma bind_random {B : Type} p (k : Q -> M B) s :
  bind (random p) k s =
  k (P5.draws p (randomCount s)) (set_randomCount s (S (randomCount s))).
Proof. reflexivity. Qed.

Lemma random_same_enemies p : preserves (same_on enemies) (random p).
Proof. intros s. reflexivity. Qed.

Lemma random_between_same_enemies p a b :
  preserves (same_on enemies) (random_between p a b).
Proof. intros s. reflexivity. Qed.

Lemma random_max_same_enemies p a :
  preserves (same_on enemies) (random_max p a).
Proof. intros s. reflexivity. Qed.

Lemma random_choice_same_enemies {A : Type} p (l : list A) d :
  preserves (same_on enemies) (random_choice p l d).
Proof. intros s. reflexivity. Qed.

(** The tail of [spawnEnemy], from the draw of [y] on, pushes an enemy of
    the variant that was drawn. *)
Ltac same_enemies :=
  walk;
  first [ apply random_same_enemies | apply random_between_same_enemies
        | apply random_max_same_enemies | apply random_choice_same_enemies
        | intros ?; reflexivity ].

Lemma predatorVariant_cases rand :
  predatorVariant rand = Hunter \/ predatorVariant rand = Dasher \/
  predatorVariant rand = Viper \/ predatorVariant rand = Titan.
Proof.
  unfold predatorVariant.
  destruct (Qltb rand 0.35); [auto |].
  destruct (Qltb rand 0.65); [auto |].
  destruct (Qltb rand 0.85); auto.
Qed.

Lemma bind_pushes_drawn {A : Type} (m : M A) (k : A -> M unit)
  (f : A -> FishVariant) (v : FishVariant) (s : Session) :
  enemies (snd (m s)) = enemies s ->
  f (fst (m s)) = v ->
  (forall a, pushes (fun e => FishEntity.variant e = f a) (k a)) ->
  exists e,
    enemies (snd (bind m k s)) = enemies s ++ [e] /\
    FishEntity.variant e = v.
Proof.
  intros Hen Hv Hk. unfold bind. cbv zeta.
  destruct (Hk (fst (m s)) (snd (m s))) as (e & He & Hve).
  exists e. split; [rewrite He, Hen; reflexivity | rewrite Hve; exact Hv].
Qed.

Lemma spawnEnemy_variant Math_random p s :
  exists e,
    enemies (exec (spawnEnemy Math_random p) s) = enemies s ++ [e] /\
    FishEntity.variant e =
      spawnVariant (P5.draws p (randomCount s))
                   (P5.draws p (S (randomCount s))).
Proof.
  unfold exec, spawnEnemy, spawnVariant.
  rewrite bind_get. cbv beta. rewrite bind_random. cbv beta.
  rewrite bind_get. cbv beta.
  set (u := P5.draws p (randomCount s)).
  set (rand := P5.draws p (S (randomCount s))).
  set (s1 := set_randomCount s (S (randomCount s))).
  change (enemies s) with (enemies s1).
  apply (bind_pushes_drawn _ _ snd).
  - destruct (isPrey u).
    + assert (H : preserves (same_on enemies)
        (size <- random_between p
                   (FishEntity.size (player s1) * 0.3)
                   (FishEntity.size (player s1) * 0.8) ;;
         color <- random_choice p preyColors (0, 0, 0) ;;
         speed <- random_between p 3 6 ;;
         ret (P5.constrain size (10 * scaleFactor s) (300 * scaleFactor s),
              color, speed * scaleFactor s, Prey)))
        by same_enemies.
      apply H.
    + rewrite bind_random. cbv beta.
      destruct (predatorVariant_cases (P5.draws p (randomCount s1)))
        as [E | [E | [E | E]]]; rewrite E; cbv iota.
      all: match goal with
           | |- enemies (snd (?m ?s2)) = _ =>
               assert (H : preserves (same_on enemies) m) by same_enemies;
               apply (H s2)
           end.
  - destruct (isPrey u).
    + apply (yields_bind (fun a => snd a = Prey)). intros ?.
      apply yields_bind. intros ?. apply yields_bind. intros ?.
      apply yields_ret. reflexivity.
    + rewrite bind_random. cbv beta.
      change (P5.draws p (randomCount s1)) with rand.
      destruct (predatorVariant_cases rand) as [E | [E | [E | E]]];
        rewrite E; cbv iota;
        apply (yields_bind (fun a => snd a = _)); intros ?;
        apply yields_bind; intros ?; apply yields_bind; intros ?;
        apply yields_ret; reflexivity.
  - intros a.
    repeat (apply pushes_bind; [same_enemies | intros ?]).
    intros s2. eexists. split; reflexivity.
Qed.

Lemma spawnEnemy_pushes Math_random p :
  pushes (fun _ => True) (spawnEnemy Math_random p).
Proof.
  intros s. destruct (spawnEnemy_variant Math_random p s) as (e & He & _).
  exists e. split; [exact He | exact I].
Qed.

Lemma spawnStep_enemies Math_random p ct s :
  let due :=
    Qgtb (ct - lastSpawnTime s)
      (activeSpawnInterval (scoreRef s) (length (enemies s))) in
  exists e,
    enemies (exec (spawnStep Math_random p ct) s) =
    enemies s ++ (if due then [e] else []).
Proof.
  intros due. unfold spawnStep. run. fold due. destruct due.
  - destruct (spawnEnemy_pushes Math_random p s) as (e & He & _).
    exists e. cbv beta. cbn [fst snd].
    revert He. generalize (snd (spawnEnemy Math_random p s)).
    intros s1 He. proj. exact He.
  - exists (player s). cbn [fst snd]. symmetry. apply app_nil_r.
Qed.

(** ** Survivors keep their static fields *)

#[export] Instance kept_preorder : PreOrder kept.
Proof.
  split.
  - intros s. unfold kept. reflexivity.
  - intros s1 s2 s3 H12 H23. unfold kept in *. etransitivity; eassumption.
Qed.

Lemma kept_same_enemies s s' : enemies s' = enemies s -> kept s s'.
Proof. intros H. unfold kept. rewrite H. reflexivity. Qed.

Lemma kept_delete s i : kept s (set_enemies s (delete i (enemies s))).
Proof.
  unfold kept. proj. rewrite list_fmap_delete. apply sublist_delete.
Qed.

Lemma consume_kept p sf i e : preserves kept (consume p sf i e).
Proof.
  intros s. destruct (consume_fields p sf i e s) as (_ & _ & H & _).
  unfold exec in H. revert H. generalize (snd (consume p sf i e s)).
  intros s' H. unfold kept. rewrite H, list_fmap_delete.
  apply sublist_delete.
Qed.

Lemma damage_kept p sf e : preserves kept (damage p sf e).
Proof.
  intros s. apply kept_same_enemies.
  destruct (damage_cases p sf e s) as [[_ E] | (Hexp & _)]; unfold exec in *.
  - rewrite E. reflexivity.
  - destruct (damage_fields p sf e s Hexp) as (_ & _ & E & _). exact E.
Qed.

Lemma resolveCollision_kept p sf i e d :
  preserves kept (resolveCollision p sf i e d).
Proof.
  unfold resolveCollision. walk; [apply consume_kept | apply damage_kept].
Qed.

Lemma pruneOffscreen_kept p sf i e : preserves kept (pruneOffscreen p sf i e).
Proof. unfold pruneOffscreen. walk. apply kept_delete. Qed.

Lemma iteration_kept p ct sf i md :
  preserves kept (updateGameLogic_iteration p ct sf i md).
Proof.
  intros s. destruct (enemies s !! i) as [e |] eqn:Hi.
  - destruct (iteration_shape p ct sf i md s e Hi) as (s0 & _ & Eit).
    unfold exec in Eit. rewrite Eit. clear Eit.
    set (e' := steered p ct sf e md s).
    set (d := P5.dist p _ _ _ _).
    transitivity (set_enemies s0 (<[i := e']> (enemies s))).
    + unfold kept. proj. rewrite list_fmap_insert.
      subst e'. rewrite steered_static.
      rewrite list_insert_id; [reflexivity |].
      rewrite list_lookup_fmap, Hi. reflexivity.
    + etransitivity; [apply resolveCollision_kept | apply pruneOffscreen_kept].
  - rewrite iteration_none by exact Hi. reflexivity.
Qed.

Lemma loop_kept p ct sf : preserves kept (updateGameLogic_loop p ct sf).
Proof. unfold updateGameLogic_loop. walk. apply iteration_kept. Qed.

(** Over a whole tick: the survivors come from the enemies at the start of
    the tick, followed by the enemy spawned in this tick when one was
    due. *)
Lemma updateGameLogic_kept Math_random p s :
  let s1 := exec (tickTimers (P5.deltaTime p)) s in
  let due :=
    Qgtb (P5.millis p - lastSpawnTime s)
      (activeSpawnInterval (scoreRef s) (length (enemies s))) in
  exists e,
    enemies (exec (spawnStep Math_random p (P5.millis p)) s1) =
      enemies s ++ (if due then [e] else []) /\
    sublist
      (FishEntity.static <$> enemies (exec (updateGameLogic Math_random p) s))
      (FishEntity.static <$> (enemies s ++ (if due then [e] else []))).
Proof.
  intros s1 due.
  assert (Hs1 : enemies s1 = enemies s /\ scoreRef s1 = scoreRef s /\
                lastSpawnTime s1 = lastSpawnTime s).
  { subst s1. unfold tickTimers. run.
    destruct (Qgtb (invulnTimer s) 0); cbv beta; cbn [fst snd]; proj;
      destruct (_ && _); cbv beta; cbn [fst snd]; proj;
      repeat split; reflexivity. }
  destruct Hs1 as (Ee & Esc & El).
  destruct (spawnStep_enemies Math_random p (P5.millis p) s1) as [e He].
  rewrite Ee, Esc, El in He. fold due in He.
  exists e. split; [exact He |].
  rewrite updateGameLogic_split. fold s1. rewrite <- He.
  unfold exec at 1. unfold bind at 1. cbv zeta. fold (exec (spawnStep Math_random p (P5.millis p)) s1).
  generalize (exec (spawnStep Math_random p (P5.millis p)) s1). intros s2.
  change (kept s2
    (snd ((maxDanger <- updateGameLogic_loop p (P5.millis p) (scaleFactor s) ;;
           modify (fun s => set_dangerIntensity s
             (P5.lerp (dangerIntensity s) maxDanger 0.1)) ;;;
           ambientParticle p (scaleFactor s)) s2))).
  revert s2. change (preserves kept
    (maxDanger <- updateGameLogic_loop p (P5.millis p) (scaleFactor s) ;;
     modify (fun s => set_dangerIntensity s
       (P5.lerp (dangerIntensity s) maxDanger 0.1)) ;;;
     ambientParticle p (scaleFactor s))).
  walk.
  - apply loop_kept.
  - apply kept_same_enemies. reflexivity.
  - intros s2. apply kept_same_enemies.
    destruct (same_core_fields _ _ (ambientParticle_same_core p (scaleFactor s) s2))
      as (_ & _ & E & _). exact E.
Qed.

Lemma sublist_static_origin (l' l : list FishEntity.t) :
  sublist (FishEntity.static <$> l') (FishEntity.static <$> l) ->
  forall e', e' ∈ l' ->
  exists e, e ∈ l /\
    FishEntity.id e' = FishEntity.id e /\
    FishEntity.size e' = FishEntity.size e /\
    FishEntity.speed e' = FishEntity.speed e /\
    FishEntity.color e' = FishEntity.color e /\
    FishEntity.variant e' = FishEntity.variant e /\
    FishEntity.noiseOffset e' = FishEntity.noiseOffset e.
Proof.
  intros Hsub e' He'.
  assert (Hin : FishEntity.static e' ∈ FishEntity.static <$> l).
  { eapply elem_of_sublist; [| exact Hsub].
    apply list_elem_of_fmap_2, He'. }
  apply list_elem_of_fmap in Hin as (e & Hst & He).
  exists e. split; [exact He |]. apply static_fields, Hst.
Qed.

(** C10. Every enemy in the list after the enemy loop stems from an enemy
    in the list before it with the same [id], [size], [speed], [color],
    [variant] and [noiseOffset], in the same order: the loop assigns only
    [x], [y], [vx] and [vy] of an enemy.  Over a whole tick the same holds
    with respect to the enemies at the start of the tick followed by the
    at most one enemy spawned in it.  The loop never changes an enemy's
    size; the player's size is the only one that grows. *)
Theorem C10_survivors_keep_static_fields (Math_random : nat -> Q)
  (p : P5.t) (s : Session) :
  (forall currentTime sf,
     let s' := exec (updateGameLogic_loop p currentTime sf) s in
     sublist (FishEntity.static <$> enemies s')
             (FishEntity.static <$> enemies s) /\
     forall e', e' ∈ enemies s' ->
       exists e, e ∈ enemies s /\
         FishEntity.id e' = FishEntity.id e /\
         FishEntity.size e' = FishEntity.size e /\
         FishEntity.speed e' = FishEntity.speed e /\
         FishEntity.color e' = FishEntity.color e /\
         FishEntity.variant e' = FishEntity.variant e /\
         FishEntity.noiseOffset e' = FishEntity.noiseOffset e) /\
  (let s' := exec (updateGameLogic Math_random p) s in
   exists spawned,
     (length spawned <= 1)%nat /\
     sublist (FishEntity.static <$> enemies s')
             (FishEntity.static <$> (enemies s ++ spawned)) /\
     forall e', e' ∈ enemies s' ->
       exists e, e ∈ enemies s ++ spawned /\
         FishEntity.id e' = FishEntity.id e /\
         FishEntity.size e' = FishEntity.size e /\
         FishEntity.speed e' = FishEntity.speed e /\
         FishEntity.color e' = FishEntity.color e /\
         FishEntity.variant e' = FishEntity.variant e /\
         FishEntity.noiseOffset e' = FishEntity.noiseOffset e).
Proof.
  split.
  - intros ct sf s'. pose proof (loop_kept p ct sf s) as H.
    split; [exact H | apply sublist_static_origin, H].
  - intros s'. destruct (updateGameLogic_kept Math_random p s) as (e & _ & H).
    eexists. split; [| split; [exact H | apply sublist_static_origin, H]].
    destruct (Qgtb _ _); cbn; lia.
Qed.

(** ** The spawn interval *)

Lemma activeSpawnInterval_sparse score alive :
  (alive < 8)%nat -> activeSpawnInterval score alive = 300.
Proof.
  intros H. unfold activeSpawnInterval.
  apply Nat.ltb_lt in H. rewrite H. reflexivity.
Qed.

(** C7. The active spawn interval is [max 600 (1500 - 5 * score)], except
    that it is exactly 300 when fewer than 8 enemies are alive and is
    capped at 800 when fewer than 15 are alive; with score 0 and 3 enemies
    it is 300.  A tick spawns an enemy exactly when the time since the last
    spawn exceeds this interval, then exactly one, so the enemy list grows
    by at most one element per tick. *)
Theorem C7_spawn_interval (Math_random : nat -> Q) (p : P5.t)
  (s : Session) :
  (forall score alive,
     ((alive < 8)%nat -> activeSpawnInterval score alive = 300) /\
     ((8 <= alive < 15)%nat ->
      activeSpawnInterval score alive =
        Math_min (Math_max 600 (1500 - inject_Z score * 5)) 800 /\
      activeSpawnInterval score alive <= 800) /\
     ((15 <= alive)%nat ->
      activeSpawnInterval score alive =
        Math_max 600 (1500 - inject_Z score * 5)) /\
     ((8 <= alive)%nat -> 600 <= activeSpawnInterval score alive)) /\
  activeSpawnInterval 0 3 = 300 /\
  (let interval := activeSpawnInterval (scoreRef s) (length (enemies s)) in
   let s1 := exec (tickTimers (P5.deltaTime p)) s in
   let s2 := exec (spawnStep Math_random p (P5.millis p)) s1 in
   let s' := exec (updateGameLogic Math_random p) s in
   (interval < P5.millis p - lastSpawnTime s ->
    exists e, enemies s2 = enemies s ++ [e]) /\
   (P5.millis p - lastSpawnTime s <= interval -> enemies s2 = enemies s) /\
   (length (enemies s') <= length (enemies s) + 1)%nat /\
   (P5.millis p - lastSpawnTime s <= interval ->
    (length (enemies s') <= length (enemies s))%nat)).
Proof.
  split; [| split].
  - intros score alive. unfold activeSpawnInterval.
    split; [| split; [| split]].
    + intros H. apply Nat.ltb_lt in H. rewrite H. reflexivity.
    + intros [H8 H15]. apply Nat.ltb_ge in H8. apply Nat.ltb_lt in H15.
      rewrite H8, H15. split; [reflexivity | apply Math_min_le_r].
    + intros H15. assert (H8 : (8 <= alive)%nat) by lia.
      apply Nat.ltb_ge in H8, H15. rewrite H8, H15. reflexivity.
    + intros H8. apply Nat.ltb_ge in H8. rewrite H8.
      assert (Hmax : 600 <= Math_max 600 (1500 - inject_Z score * 5))
        by apply Q.le_max_l.
      destruct (alive <? 15)%nat; [| exact Hmax].
      apply Q.min_glb; [exact Hmax | discriminate].
  - reflexivity.
  - intros interval s1 s2 s'.
    destruct (updateGameLogic_kept Math_random p s) as (e & He & Hsub).
    fold s1 in He. fold s2 in He. fold s' in Hsub. fold interval in He, Hsub.
    apply sublist_length in Hsub. rewrite !length_fmap, length_app in Hsub.
    split; [| split; [| split]].
    + intros Hdue. apply Qgtb_gt in Hdue. rewrite Hdue in He.
      exists e. exact He.
    + intros Hnot. apply Qgtb_le in Hnot. rewrite Hnot, app_nil_r in He.
      exact He.
    + destruct (Qgtb _ _); cbn [length] in Hsub; lia.
    + intros Hnot. apply Qgtb_le in Hnot. rewrite Hnot in Hsub.
      cbn [length] in Hsub. lia.
Qed.

(** ** Predator classification *)

(** C8. An enemy is classified as predatory exactly when its size is
    strictly greater than the player's current size: for every [eps > 0]
    an enemy of size [player.size - eps] is not predatory, so that
    steering takes the wander branch whatever the distance, and one of
    size [player.size + eps] is predatory, so that steering takes the
    chase branch inside the detection radius; at equal sizes the enemy is
    not predatory. *)
Theorem C8_predator_boundary (p : P5.t) (currentTime sf d maxDanger : Q)
  (e : FishEntity.t) (s : Session) (eps : Q) :
  0 < eps ->
  (actuallyPredator e (player s) = true <->
   FishEntity.size (player s) < FishEntity.size e) /\
  (FishEntity.size e == FishEntity.size (player s) - eps ->
   actuallyPredator e (player s) = false /\
   steer p currentTime sf e d maxDanger s =
     (wander p currentTime sf e, maxDanger, s)) /\
  (FishEntity.size e == FishEntity.size (player s) + eps ->
   actuallyPredator e (player s) = true /\
   (d < detectionRange (FishEntity.variant e) sf ->
    steer p currentTime sf e d maxDanger s =
      chase p currentTime sf e d maxDanger s)) /\
  (FishEntity.size e == FishEntity.size (player s) ->
   actuallyPredator e (player s) = false).
Proof.
  intros Heps. split; [apply Qgtb_gt | split; [| split]].
  - intros E.
    assert (H : FishEntity.size e <= FishEntity.size (player s)) by lra.
    split; [apply Qgtb_le, H |].
    apply steer_wander, not_predator_wanders, H.
  - intros E.
    assert (H : FishEntity.size (player s) < FishEntity.size e) by lra.
    split; [apply Qgtb_gt, H |].
    intros Hd. apply steer_chase, chasing_spec. split; assumption.
  - intros E. apply Qgtb_le. lra.
Qed.

(** ** Shockwaves *)

Lemma sw_eq_norm sw : sw_eq (norm sw) sw.
Proof. unfold sw_eq, norm. cbn. repeat split; apply Qred_correct. Qed.

Lemma sw_eq_trans a b c : sw_eq a b -> sw_eq b c -> sw_eq a c.
Proof.
  unfold sw_eq.
  intros (A1 & A2 & A3 & A4 & A5 & A6 & A7) (B1 & B2 & B3 & B4 & B5 & B6 & B7).
  repeat split; solve [etransitivity; eassumption].
Qed.

Lemma advance_sw_eq sf a b : sw_eq a b -> sw_eq (advance sf a) (advance sf b).
Proof.
  unfold sw_eq, advance. cbn.
  intros (A1 & A2 & A3 & A4 & A5 & A6 & A7).
  repeat split; try assumption.
  - rewrite A3, A4. reflexivity.
  - rewrite A5. reflexivity.
  - rewrite A7. reflexivity.
Qed.

Lemma faded_sw_eq a b : sw_eq a b -> faded a = faded b.
Proof.
  unfold sw_eq, faded, Qleb, Qltb.
  intros (_ & _ & _ & _ & A5 & _ & A7). rewrite A5, A7. reflexivity.
Qed.

(** While the radius is below [maxRadius + sf / 0.15], an update makes it
    strictly larger. *)
Lemma advance_grows sf sw :
  (Shockwave.currentRadius sw - Shockwave.maxRadius sw) * 0.15 < sf ->
  Shockwave.currentRadius sw < Shockwave.currentRadius (advance sf sw).
Proof. unfold advance. cbn. intros H. lra. Qed.

Lemma advance_alpha sf sw :
  Shockwave.alpha (advance sf sw) = Shockwave.alpha sw - 10.
Proof. reflexivity. Qed.

(** One frame of [drawShockwaves] on a session holding one shockwave. *)
Lemma drawShockwaves_single p s sw :
  shockwaves s = [sw] ->
  let s' := exec (drawShockwaves p) s in
  scaleFactor s' = scaleFactor s /\
  shockwaves s' =
    if faded (advance (scaleFactor s) sw) then []
    else [advance (scaleFactor s) sw].
Proof.
  intros H. unfold drawShockwaves. run. rewrite H. cbn [length for_down].
  unfold drawShockwaves_iteration. run. rewrite H.
  cbn [lookup list_lookup]. cbv beta iota zeta. cbn [fst snd]. proj.
  rewrite H. destruct (faded _); cbv beta; cbn [fst snd]; proj;
    split; reflexivity.
Qed.

Lemma track_alive k : (1 <= k <= 19)%nat -> faded (track k) = false.
Proof.
  intros [H1 H19].
  do 20 (destruct k as [| k]; [first [lia | vm_compute; reflexivity] |]).
  lia.
Qed.

Lemma rippleAfter_S n :
  rippleAfter (S n) = exec (drawShockwaves quietP5) (rippleAfter n).
Proof. reflexivity. Qed.

Lemma track_20_faded : faded (track 20) = true.
Proof. vm_compute. reflexivity. Qed.

Lemma track_S n : track (S n) = norm (advance 1 (track n)).
Proof. reflexivity. Qed.

(** For its first 19 frames the shockwave of [ripple] is alone in the
    list and equal, as rationals, to [track n]. *)
Lemma ripple_tracks n :
  (n <= 19)%nat ->
  exists sw,
    shockwaves (rippleAfter n) = [sw] /\ sw_eq sw (track n) /\
    scaleFactor (rippleAfter n) = 1.
Proof.
  induction n as [| n IH]; intros Hn.
  - eexists. split; [vm_compute; reflexivity |].
    split; [| reflexivity]. vm_compute. repeat split; reflexivity.
  - destruct IH as (sw & Hsw & Heq & Hsf); [lia |].
    rewrite rippleAfter_S.
    destruct (drawShockwaves_single quietP5 (rippleAfter n) sw Hsw)
      as (Esf & Esw).
    rewrite Hsf in Esf, Esw.
    assert (Hnext : sw_eq (advance 1 sw) (track (S n))).
    { rewrite track_S. eapply sw_eq_trans.
      - apply advance_sw_eq, Heq.
      - destruct (sw_eq_norm (advance 1 (track n)))
          as (A1 & A2 & A3 & A4 & A5 & A6 & A7).
        unfold sw_eq. repeat split; symmetry; assumption. }
    rewrite (faded_sw_eq _ _ Hnext), track_alive in Esw by lia.
    exists (advance 1 sw). split; [exact Esw | split; [exact Hnext | exact Esf]].
Qed.

Lemma advance_tracks sw n :
  sw_eq sw (track n) -> sw_eq (advance 1 sw) (track (S n)).
Proof.
  intros Heq. rewrite track_S. eapply sw_eq_trans.
  - apply advance_sw_eq, Heq.
  - destruct (sw_eq_norm (advance 1 (track n)))
      as (A1 & A2 & A3 & A4 & A5 & A6 & A7).
    unfold sw_eq. repeat split; symmetry; assumption.
Qed.

Lemma track_table n :
  (n <= 19)%nat ->
  (Shockwave.currentRadius (track n) - Shockwave.maxRadius (track n)) * 0.15
    < 1 /\
  Shockwave.alpha (track n) == 200 - 10 * inject_Z (Z.of_nat n).
Proof.
  intros H.
  do 20 (destruct n as [| n]; [vm_compute; split; reflexivity |]).
  lia.
Qed.

(** A frame of the ripple's first 19: the shockwave is replaced by its
    update and stays in the list. *)
Lemma ripple_step n :
  (n < 19)%nat ->
  exists sw,
    shockwaves (rippleAfter n) = [sw] /\ sw_eq sw (track n) /\
    shockwaves (rippleAfter (S n)) = [advance 1 sw].
Proof.
  intros Hn. destruct (ripple_tracks n) as (sw & Hsw & Heq & Hsf); [lia |].
  exists sw. split; [exact Hsw | split; [exact Heq |]].
  rewrite rippleAfter_S.
  destruct (drawShockwaves_single quietP5 (rippleAfter n) sw Hsw)
    as (_ & Esw).
  rewrite Hsf in Esw.
  rewrite (faded_sw_eq _ _ (advance_tracks sw n Heq)), track_alive in Esw
    by lia.
  exact Esw.
Qed.

(** C9. The shockwave created with [maxRadius = 100] and
    [currentRadius = 10] (alpha 200) is updated once per frame.  In each
    of its first 19 frames it stays in the list, its radius strictly
    increases and its alpha drops by exactly 10, so that alpha is
    [200 - 10 * n] after [n] frames; after 16 frames the radius is within
    1 of 100.  The 20th update again increases the radius and brings alpha
    to 0, and that frame removes the shockwave. *)
Theorem C9_shockwave_lifetime :
  (exists sw0,
     shockwaves ripple = [sw0] /\ Shockwave.maxRadius sw0 == 100 /\
     Shockwave.currentRadius sw0 == 10 /\ Shockwave.alpha sw0 == 200) /\
  (forall n, (n < 19)%nat ->
     exists sw sw',
       shockwaves (rippleAfter n) = [sw] /\
       shockwaves (rippleAfter (S n)) = [sw'] /\
       Shockwave.currentRadius sw < Shockwave.currentRadius sw' /\
       Shockwave.alpha sw == 200 - 10 * inject_Z (Z.of_nat n) /\
       Shockwave.alpha sw' == Shockwave.alpha sw - 10 /\
       0 < Shockwave.alpha sw') /\
  (exists sw,
     shockwaves (rippleAfter 16) = [sw] /\
     100 - 1 < Shockwave.currentRadius sw /\
     Shockwave.currentRadius sw < 100 + 1) /\
  (exists sw,
     shockwaves (rippleAfter 19) = [sw] /\
     Shockwave.currentRadius sw
       < Shockwave.currentRadius (advance 1 sw) /\
     Shockwave.alpha (advance 1 sw) <= 0) /\
  shockwaves (rippleAfter 20) = [].
Proof.
  split; [| split; [| split; [| split]]].
  - eexists. split; [vm_compute; reflexivity |].
    vm_compute. repeat split; reflexivity.
  - intros n Hn. destruct (ripple_step n Hn) as (sw & Hsw & Heq & Hnext).
    destruct Heq as (_ & _ & Emax & Ecur & Ealpha & _).
    destruct (track_table n) as (Tr & Ta); [lia |].
    exists sw, (advance 1 sw).
    split; [exact Hsw | split; [exact Hnext |]].
    split; [| split; [| split]].
    + apply advance_grows. rewrite Emax, Ecur. exact Tr.
    + rewrite Ealpha. exact Ta.
    + rewrite advance_alpha. reflexivity.
    + rewrite advance_alpha, Ealpha, Ta.
      assert (Hz : inject_Z (Z.of_nat n) <= inject_Z 18)
        by (rewrite <- Zle_Qle; lia).
      change (inject_Z 18) with 18 in Hz. lra.
  - destruct (ripple_tracks 16) as (sw & Hsw & Heq & _); [lia |].
    destruct Heq as (_ & _ & _ & Ecur & _).
    exists sw. split; [exact Hsw |]. rewrite Ecur.
    vm_compute. split; reflexivity.
  - destruct (ripple_tracks 19) as (sw & Hsw & Heq & _); [lia |].
    destruct Heq as (_ & _ & Emax & Ecur & Ealpha & _).
    destruct (track_table 19) as (Tr & Ta); [lia |].
    exists sw. split; [exact Hsw |]. split.
    + apply advance_grows. rewrite Emax, Ecur. exact Tr.
    + rewrite advance_alpha, Ealpha, Ta. vm_compute. discriminate.
  - destruct (ripple_tracks 19) as (sw & Hsw & Heq & Hsf); [lia |].
    rewrite (rippleAfter_S 19).
    destruct (drawShockwaves_single quietP5 (rippleAfter 19) sw Hsw)
      as (_ & Esw).
    rewrite Hsf in Esw.
    rewrite (faded_sw_eq _ _ (advance_tracks sw 19 Heq)), track_20_faded
      in Esw.
    exact Esw.
Qed.

(** ** Variant selection *)

Lemma predatorVariant_bands rand :
  (predatorVariant rand = Hunter <-> rand < 0.35) /\
  (predatorVariant rand = Dasher <-> 0.35 <= rand /\ rand < 0.65) /\
  (predatorVariant rand = Viper <-> 0.65 <= rand /\ rand < 0.85) /\
  (predatorVariant rand = Titan <-> 0.85 <= rand).
Proof.
  unfold predatorVariant.
  destruct (Qltb rand 0.35) eqn:H1;
    [apply Qltb_lt in H1 | apply Qltb_ge in H1].
  { repeat split; intros; try discriminate; try lra; tauto. }
  destruct (Qltb rand 0.65) eqn:H2;
    [apply Qltb_lt in H2 | apply Qltb_ge in H2].
  { repeat split; intros; try discriminate; try lra; tauto. }
  destruct (Qltb rand 0.85) eqn:H3;
    [apply Qltb_lt in H3 | apply Qltb_ge in H3].
  { repeat split; intros; try discriminate; try lra; tauto. }
  repeat split; intros; try discriminate; try lra; tauto.
Qed.

(** C2 (amended). A spawn takes the prey branch exactly when its first
    draw exceeds 0.4, that is with probability 60%, and the predator
    branch otherwise, with probability 40%.  Within the predator branch
    the second draw selects hunter below 0.35, dasher from 0.35 to 0.65,
    viper from 0.65 to 0.85 and titan from 0.85 on: 35%, 30%, 20% and
    15%.  The enemy that [spawnEnemy] appends has the variant selected by
    its first two draws. *)
Theorem C2_spawn_bands (Math_random : nat -> Q) (p : P5.t) (s : Session) :
  (forall u, isPrey u = true <-> 0.4 < u) /\
  (forall u, isPredator u = true <-> u <= 0.4) /\
  (forall rand,
     (predatorVariant rand = Hunter <-> rand < 0.35) /\
     (predatorVariant rand = Dasher <-> 0.35 <= rand /\ rand < 0.65) /\
     (predatorVariant rand = Viper <-> 0.65 <= rand /\ rand < 0.85) /\
     (predatorVariant rand = Titan <-> 0.85 <= rand)) /\
  (share 1000 isPrey == 0.6 /\ share 1000 isPredator == 0.4 /\
   share 1000 (selects Hunter) == 0.35 /\
   share 1000 (selects Dasher) == 0.30 /\
   share 1000 (selects Viper) == 0.20 /\
   share 1000 (selects Titan) == 0.15) /\
  (exists e,
     enemies (exec (spawnEnemy Math_random p) s) = enemies s ++ [e] /\
     FishEntity.variant e =
       spawnVariant (P5.draws p (randomCount s))
                    (P5.draws p (S (randomCount s)))).
Proof.
  split; [| split; [| split; [| split]]].
  - intros u. apply Qgtb_gt.
  - intros u. unfold isPredator. rewrite negb_true_iff. apply Qgtb_le.
  - apply predatorVariant_bands.
  - vm_compute. repeat split; reflexivity.
  - apply spawnEnemy_variant.
Qed.

(** C2, as stated, fails: the prey branch, not the predator branch, is
    the one taken 60% of the time.  A draw of one half takes the prey
    branch, and the predator branch covers 40% of the draws. *)
Lemma C2_counterexample :
  isPredator 0.5 = false /\
  spawnVariant 0.5 0.9 = Prey /\
  share 1000 isPredator == 0.4 /\
  ~ share 1000 isPredator == 0.6.
Proof.
  vm_compute. repeat split; try reflexivity. discriminate.
Qed.

(** ** The theorems at concrete sessions *)

(** C1 at [shieldedMeal]: the prey of size 10, at distance 10 from the
    player of size 20, is eaten. *)
Lemma C1_consume_outcome_witness :
  let s' := exec (updateGameLogic_iteration quietP5 100 1 0 0) shieldedMeal in
  0 < 1 /\
  Qabs (FishEntity.size mealPrey / 1) <= Number_MAX_VALUE /\
  enemies shieldedMeal !! 0%nat = Some mealPrey /\
  FishEntity.size mealPrey <= FishEntity.size (player shieldedMeal) /\
  FishEntity.size (player s') =
    FishEntity.size (player shieldedMeal) + FishEntity.size mealPrey * 0.1 /\
  scoreRef s' =
    (scoreRef shieldedMeal
     + Math_floor (Number_div (FishEntity.size mealPrey) 1))%Z /\
  playerHealth s' = Math_min (playerHealth shieldedMeal + 10) 100.
Proof.
  assert (Hsf : 0 < 1) by reflexivity.
  assert (Hfin : Qabs (FishEntity.size mealPrey / 1) <= Number_MAX_VALUE)
    by (vm_compute; discriminate).
  destruct (C1_consume_outcome quietP5 100 1 0 0 shieldedMeal mealPrey
              Hsf Hfin)
    as (Hsize & Hscore & Hhealth & _).
  - reflexivity.
  - vm_compute. reflexivity.
  - vm_compute. discriminate.
  - split; [exact Hsf |]. split; [exact Hfin |].
    split; [reflexivity |]. split; [vm_compute; discriminate |].
    split; [exact Hsize | split; [exact Hscore | exact Hhealth]].
Defined.

(** C3 at [titanHit]: health starts at 40, under the cap; the titan's hit
    takes it below 0 and the tick reports the end of the game. *)
Lemma C3_health_capped_regen_gated_witness :
  let s' := exec (updateGameLogic halves quietP5) titanHit in
  playerHealth titanHit <= 100 /\
  playerHealth s' <= 100 /\
  exists evs,
    calls s' = evs ++ calls titanHit /\
    (hurts evs = true -> playerHealth s' <= 0 -> ends evs = true).
Proof.
  assert (H : playerHealth titanHit <= 100) by (vm_compute; discriminate).
  destruct (C3_health_capped_regen_gated halves quietP5 titanHit H)
    as (Hcap & _ & _ & _ & (evs & Ec & _ & Hend) & _).
  split; [exact H |]. split; [exact Hcap |].
  exists evs. split; [exact Ec | exact Hend].
Defined.

(** C4 at [titanHit]: the titan of size 50, at distance 20 from the player
    of size 20, hits with the timer at 0. *)
Lemma C4_damage_and_timer_witness :
  let s' := exec (updateGameLogic_iteration quietP5 100 1 0 0) titanHit in
  enemies titanHit !! 0%nat = Some nearTitan /\
  FishEntity.size (player titanHit) < FishEntity.size nearTitan /\
  invulnTimer titanHit <= 0 /\
  playerHealth s' = playerHealth titanHit - 60 /\
  invulnTimer s' = 1500.
Proof.
  destruct (C4_damage_and_timer halves quietP5 100 1 0 0 titanHit nearTitan)
    as (_ & Hexpired & _).
  - reflexivity.
  - vm_compute. reflexivity.
  - vm_compute. reflexivity.
  - assert (Ht : invulnTimer titanHit <= 0) by (vm_compute; discriminate).
    split; [reflexivity |]. split; [vm_compute; reflexivity |].
    split; [exact Ht |]. exact (Hexpired Ht).
Defined.

(** C5 at [farTitanSession]: the titan at distance 499. *)
Lemma C5_titan_pull_range_witness :
  let s' := snd (steer quietP5 100 1 farTitan 499 0 farTitanSession) in
  FishEntity.variant farTitan = Titan /\
  FishEntity.x (player s') =
    FishEntity.x (player farTitanSession)
    + P5.cos quietP5
        (P5.atan2 quietP5
           (FishEntity.y farTitan - FishEntity.y (player farTitanSession))
           (FishEntity.x farTitan - FishEntity.x (player farTitanSession)))
      * (0.4 * 1).
Proof.
  destruct (C5_titan_pull_range quietP5 100 1 499 0 farTitan farTitanSession
              eq_refl) as (Hin & _).
  split; [reflexivity |].
  apply Hin; vm_compute; reflexivity.
Defined.


(** C8 at [titanHit] with [eps = 1]. *)
Lemma C8_predator_boundary_witness :
  0 < 1 /\
  (actuallyPredator nearTitan (player titanHit) = true <->
   FishEntity.size (player titanHit) < FishEntity.size nearTitan).
Proof.
  assert (H : 0 < 1) by reflexivity.
  split; [exact H |].
  apply (C8_predator_boundary quietP5 100 1 20 0 nearTitan titanHit 1 H).
Defined.

(** * Further properties of the frame *)

(** ** Reverse splice loops *)

Lemma sweep_middle {A : Type} (f : A -> A) (dead : A -> bool)
  (pre post : list A) (x : A) :
  sweep f dead (length pre) (pre ++ x :: post) =
  pre ++ (if dead (f x) then post else f x :: post).
Proof.
  unfold sweep. rewrite list_lookup_middle by reflexivity.
  destruct (dead (f x)).
  - apply delete_middle.
  - rewrite insert_app_r_alt by lia.
    replace (length pre - length pre)%nat with O by lia. reflexivity.
Qed.

(** Once the indices from [length pre] down have been visited, the
    elements behind them are done: the remaining visits refresh [pre]. *)
Lemma sweep_down_app {A : Type} (f : A -> A) (dead : A -> bool)
  (pre post : list A) :
  sweep_down f dead (length pre) (pre ++ post) = refresh f dead pre ++ post.
Proof.
  revert post. induction pre as [| x pre IH] using rev_ind; intros post.
  - reflexivity.
  - rewrite length_app, Nat.add_comm. simpl.
    rewrite <- app_assoc. simpl. rewrite sweep_middle.
    rewrite IH. unfold refresh.
    rewrite map_app, List.filter_app. simpl.
    rewrite <- app_assoc. destruct (dead (f x)); reflexivity.
Qed.

Lemma sweep_down_refresh {A : Type} (f : A -> A) (dead : A -> bool)
  (l : list A) :
  sweep_down f dead (length l) l = refresh f dead l.
Proof.
  rewrite <- (app_nil_r l) at 2. rewrite sweep_down_app.
  apply app_nil_r.
Qed.

Lemma set_shockwaves_id s : set_shockwaves s (shockwaves s) = s.
Proof. destruct s. reflexivity. Qed.

Lemma set_particles_id s : set_particles s (particles s) = s.
Proof. destruct s. reflexivity. Qed.

Lemma drawShockwaves_iteration_sweep sf i u s :
  drawShockwaves_iteration sf i u s =
  (tt, set_shockwaves s (sweep (advance sf) faded i (shockwaves s))).
Proof.
  unfold drawShockwaves_iteration, sweep. run.
  destruct (shockwaves s !! i) as [sw |].
  - run. proj. destruct (faded (advance sf sw)); run; proj.
    + rewrite delete_insert_same. reflexivity.
    + reflexivity.
  - unfold ret. rewrite set_shockwaves_id. reflexivity.
Qed.

Lemma drawShockwaves_loop_sweep sf n s :
  for_down n (drawShockwaves_iteration sf) tt s =
  (tt, set_shockwaves s (sweep_down (advance sf) faded n (shockwaves s))).
Proof.
  revert s. induction n as [| i IH]; intros s; simpl.
  - unfold ret. rewrite set_shockwaves_id. reflexivity.
  - unfold bind. rewrite drawShockwaves_iteration_sweep. cbn [fst snd].
    rewrite IH. reflexivity.
Qed.

Lemma drawParticles_iteration_sweep p sf i u s :
  drawParticles_iteration p sf i u s =
  (tt, set_particles s (sweep (drift p sf) spent i (particles s))).
Proof.
  unfold drawParticles_iteration, sweep. run.
  destruct (particles s !! i) as [part |].
  - run. proj. destruct (spent (drift p sf part)); run; proj.
    + rewrite delete_insert_same. reflexivity.
    + reflexivity.
  - unfold ret. rewrite set_particles_id. reflexivity.
Qed.

Lemma drawParticles_loop_sweep p sf n s :
  for_down n (drawParticles_iteration p sf) tt s =
  (tt, set_particles s (sweep_down (drift p sf) spent n (particles s))).
Proof.
  revert s. induction n as [| i IH]; intros s; simpl.
  - unfold ret. rewrite set_particles_id. reflexivity.
  - unfold bind. rewrite drawParticles_iteration_sweep. cbn [fst snd].
    rewrite IH. reflexivity.
Qed.

Lemma drawShockwaves_sweeps (p : P5.t) (s : Session) :
  exec (drawShockwaves p) s =
  set_shockwaves s
    (refresh (advance (scaleFactor s)) faded (shockwaves s)).
Proof.
  unfold drawShockwaves, exec. rewrite !bind_get.
  rewrite drawShockwaves_loop_sweep. cbn [snd].
  rewrite sweep_down_refresh. reflexivity.
Qed.

Lemma drawParticles_sweeps (p : P5.t) (s : Session) :
  exec (drawParticles p) s =
  set_particles s
    (refresh (drift p (scaleFactor s)) spent (particles s)).
Proof.
  unfold drawParticles, exec. rewrite !bind_get.
  rewrite drawParticles_loop_sweep. cbn [snd].
  rewrite sweep_down_refresh. reflexivity.
Qed.

Lemma refresh_elem {A : Type} (f : A -> A) (dead : A -> bool) (l : list A)
  (x' : A) :
  x' ∈ refresh f dead l <->
  exists x, x ∈ l /\ x' = f x /\ dead x' = false.
Proof.
  unfold refresh. rewrite list_elem_of_In, List.filter_In, in_map_iff.
  split.
  - intros ((x & E & Hx) & Hd). exists x.
    split; [apply list_elem_of_In, Hx |]. split; [symmetry; exact E |].
    apply negb_true_iff, Hd.
  - intros (x & Hx & E & Hd). split.
    + exists x. split; [symmetry; exact E | apply list_elem_of_In, Hx].
    + apply negb_true_iff, Hd.
Qed.

Lemma refresh_length {A : Type} (f : A -> A) (dead : A -> bool)
  (l : list A) :
  (length (refresh f dead l) <= length l)%nat.
Proof.
  unfold refresh. etransitivity; [apply List.filter_length_le |].
  rewrite length_map. reflexivity.
Qed.

(** X1. One call of [drawShockwaves] advances every shockwave of the list
    exactly once and removes exactly the ones that have faded after the
    advance: splicing inside the reverse loop neither skips nor repeats an
    element, the survivors keep their order, and no other ref changes. *)
Theorem drawShockwaves_refreshes (p : P5.t) (s : Session) :
  let sf := scaleFactor s in
  let s' := exec (drawShockwaves p) s in
  s' = set_shockwaves s (refresh (advance sf) faded (shockwaves s)) /\
  (forall sw', sw' ∈ shockwaves s' <->
     exists sw, sw ∈ shockwaves s /\ sw' = advance sf sw /\
                faded sw' = false) /\
  (length (shockwaves s') <= length (shockwaves s))%nat.
Proof.
  intros sf s'. subst s'. rewrite drawShockwaves_sweeps. fold sf. proj.
  split; [reflexivity |]. split; [| apply refresh_length].
  intros sw'. apply refresh_elem.
Qed.

(** X2. One call of [drawParticles] drifts every particle of the list
    exactly once and removes exactly the ones that are spent after the
    drift ([alpha <= 0] or [y < -10]); the survivors keep their order, and
    no other ref changes. *)
Theorem drawParticles_refreshes (p : P5.t) (s : Session) :
  let sf := scaleFactor s in
  let s' := exec (drawParticles p) s in
  s' = set_particles s (refresh (drift p sf) spent (particles s)) /\
  (forall part', part' ∈ particles s' <->
     exists part, part ∈ particles s /\ part' = drift p sf part /\
                  spent part' = false) /\
  (length (particles s') <= length (particles s))%nat.
Proof.
  intros sf s'. subst s'. rewrite drawParticles_sweeps. fold sf. proj.
  split; [reflexivity |]. split; [| apply refresh_length].
  intros part'. apply refresh_elem.
Qed.

(** ** Lifetimes *)

Lemma refresh_Forall {A : Type} (f : A -> A) (dead : A -> bool)
  (P Q : A -> Prop) (l : list A) :
  (forall x, P x -> dead (f x) = false -> Q (f x)) ->
  Forall P l -> Forall Q (refresh f dead l).
Proof.
  intros H HP. unfold refresh. induction HP as [| x l Hx _ IH]; simpl.
  - constructor.
  - destruct (dead (f x)) eqn:E; simpl; [exact IH |].
    constructor; [apply H; assumption | exact IH].
Qed.

Lemma replay_cons m p ps s :
  replay m (p :: ps) s = replay m ps (exec (m p) s).
Proof. reflexivity. Qed.

Lemma inject_S (n : nat) :
  inject_Z (Z.of_nat (S n)) == inject_Z (Z.of_nat n) + 1.
Proof. rewrite Nat2Z.inj_succ. unfold Z.succ. rewrite inject_Z_plus. reflexivity. Qed.

Lemma shockwaves_cool a ps p s :
  Forall (fun sw => Shockwave.alpha sw <= a) (shockwaves s) ->
  Forall (fun sw => 0 < Shockwave.alpha sw /\
            Shockwave.alpha sw <= a - 10 * inject_Z (Z.of_nat (S (length ps))))
    (shockwaves (replay drawShockwaves (p :: ps) s)).
Proof.
  revert a p s. induction ps as [| q ps IH]; intros a p s H.
  - rewrite replay_cons. cbn [replay fold_left].
    rewrite drawShockwaves_sweeps. proj.
    eapply refresh_Forall; [| exact H].
    intros sw Hsw Hd. unfold faded in Hd.
    apply orb_false_elim in Hd as (Hd & _). apply Qleb_gt in Hd.
    unfold advance in *. cbn [Shockwave.alpha] in *.
    cbn [length]. change (inject_Z (Z.of_nat 1)) with 1. split; lra.
  - rewrite replay_cons.
    assert (H1 : Forall (fun sw => Shockwave.alpha sw <= a - 10)
                   (shockwaves (exec (drawShockwaves p) s))).
    { rewrite drawShockwaves_sweeps. proj.
      eapply refresh_Forall; [| exact H].
      intros sw Hsw _. unfold advance. cbn [Shockwave.alpha] in *. lra. }
    apply (IH _ q) in H1. eapply Forall_impl; [exact H1 | clear H1]. cbv beta.
    intros sw (Hpos & Hle). split; [exact Hpos |].
    cbn [length]. rewrite inject_S in Hle. rewrite 2 inject_S. lra.
Qed.

(** X3. Shockwaves do not outlive their alpha: when every shockwave has
    [alpha <= 10 * n], the list is empty after any [n >= 1] frames of
    [drawShockwaves], whatever the scale factor and the radii.  A
    shockwave is emitted with [alpha = 200], so it is gone within 20
    frames. *)
Theorem shockwaves_fade_out (ps : list P5.t) (s : Session) :
  ps <> [] ->
  Forall (fun sw => Shockwave.alpha sw <= 10 * inject_Z (Z.of_nat (length ps)))
    (shockwaves s) ->
  shockwaves (replay drawShockwaves ps s) = [].
Proof.
  intros Hps H. destruct ps as [| p ps]; [contradiction |].
  apply shockwaves_cool with (ps := ps) (p := p) in H.
  destruct (shockwaves (replay drawShockwaves (p :: ps) s)) as [| sw l];
    [reflexivity |].
  apply Forall_cons in H as ((Hpos & Hle) & _). cbn [length] in Hle. lra.
Qed.

Lemma particles_cool a ps p s :
  Forall (fun part => Particle.alpha part <= a) (particles s) ->
  Forall (fun part => 0 < Particle.alpha part /\
            Particle.alpha part <= a - inject_Z (Z.of_nat (S (length ps))))
    (particles (replay drawParticles (p :: ps) s)).
Proof.
  revert a p s. induction ps as [| q ps IH]; intros a p s H.
  - rewrite replay_cons. cbn [replay fold_left].
    rewrite drawParticles_sweeps. proj.
    eapply refresh_Forall; [| exact H].
    intros part Hpart Hd. unfold spent in Hd.
    apply orb_false_elim in Hd as (Hd & _). apply Qleb_gt in Hd.
    unfold drift in *. cbn [Particle.alpha] in *.
    cbn [length]. change (inject_Z (Z.of_nat 1)) with 1. split; lra.
  - rewrite replay_cons.
    assert (H1 : Forall (fun part => Particle.alpha part <= a - 1)
                   (particles (exec (drawParticles p) s))).
    { rewrite drawParticles_sweeps. proj.
      eapply refresh_Forall; [| exact H].
      intros part Hpart _. unfold drift. cbn [Particle.alpha] in *. lra. }
    apply (IH _ q) in H1. eapply Forall_impl; [exact H1 | clear H1]. cbv beta.
    intros part (Hpos & Hle). split; [exact Hpos |].
    cbn [length]. rewrite inject_S in Hle. rewrite 2 inject_S. lra.
Qed.

(** X4. Particles do not outlive their alpha: when every particle has
    [alpha <= n], the list is empty after any [n >= 1] frames of
    [drawParticles].  Burst particles are emitted with [alpha = 255] and
    ambient ones with [alpha = 100]. *)
Theorem particles_fade_out (ps : list P5.t) (s : Session) :
  ps <> [] ->
  Forall (fun part => Particle.alpha part <= inject_Z (Z.of_nat (length ps)))
    (particles s) ->
  particles (replay drawParticles ps s) = [].
Proof.
  intros Hps H. destruct ps as [| p ps]; [contradiction |].
  apply particles_cool with (ps := ps) (p := p) in H.
  destruct (particles (replay drawParticles (p :: ps) s)) as [| part l];
    [reflexivity |].
  apply Forall_cons in H as ((Hpos & Hle) & _). cbn [length] in Hle. lra.
Qed.

(** ** Screen shake and damage flash *)

Lemma shakeStep_screenShake p s :
  screenShake (exec (shakeStep p) s) =
  if Qgtb (screenShake s) 0
  then if Qltb (screenShake s * 0.9) 0.5 then 0 else screenShake s * 0.9
  else screenShake s.
Proof.
  unfold shakeStep, random_between, random. run.
  destruct (Qgtb (screenShake s) 0); run; proj; [| reflexivity].
  destruct (Qltb (screenShake s * 0.9) 0.5); reflexivity.
Qed.

Lemma shakeStep_bounds p s :
  0 <= screenShake s ->
  let v' := screenShake (exec (shakeStep p) s) in
  (v' == 0 \/ 0.5 <= v') /\ v' <= 0.9 * screenShake s.
Proof.
  intros H v'. subst v'. rewrite shakeStep_screenShake.
  destruct (Qgtb (screenShake s) 0) eqn:E.
  - destruct (Qltb (screenShake s * 0.9) 0.5) eqn:E'.
    + split; [left; reflexivity | lra].
    + apply Qltb_ge in E'. split; [right; lra | lra].
  - apply Qgtb_le in E. split; [left; lra | lra].
Qed.

Lemma Qpower_S (a : Q) (k : nat) :
  a ^ Z.of_nat (S k) == a * a ^ Z.of_nat k.
Proof.
  rewrite Nat2Z.inj_succ. unfold Z.succ.
  destruct k as [| k].
  - simpl. lra.
  - rewrite Qpower_plus' by lia. simpl (a ^ 1). lra.
Qed.

Lemma shake_rests ps s :
  screenShake s == 0 \/ 0.5 <= screenShake s ->
  screenShake s * 0.9 ^ Z.of_nat (length ps) < 0.5 ->
  screenShake (replay shakeStep ps s) == 0.
Proof.
  revert s. induction ps as [| p ps IH]; intros s Hs Hlt.
  - simpl in *. destruct Hs as [Hs | Hs]; [exact Hs | lra].
  - rewrite replay_cons.
    assert (H0 : 0 <= screenShake s) by (destruct Hs; lra).
    destruct (shakeStep_bounds p s H0) as (Hs' & Hle).
    apply IH; [exact Hs' |].
    cbn [length] in Hlt. rewrite Qpower_S in Hlt.
    assert (Hp : 0 <= 0.9 ^ Z.of_nat (length ps))
      by (apply Qpower_0_le; lra).
    nra.
Qed.

(** X5. The shake block of [p.draw] multiplies a positive shake by 0.9 and
    snaps it to 0 once it is under 0.5: after the block a non-negative
    shake is 0 or at least 0.5, and at most nine tenths of what it was.
    The block draws two random numbers exactly when the shake was positive
    and touches no other ref. *)
Theorem shake_step_settles (p : P5.t) (s : Session) :
  0 <= screenShake s ->
  let s' := exec (shakeStep p) s in
  (screenShake s' == 0 \/ 0.5 <= screenShake s') /\
  screenShake s' <= 0.9 * screenShake s /\
  randomCount s' =
    (if Qgtb (screenShake s) 0 then S (S (randomCount s))
     else randomCount s) /\
  set_randomCount (set_screenShake s' (screenShake s)) (randomCount s) = s.
Proof.
  intros H s'. destruct (shakeStep_bounds p s H) as (Hsettled & Hle).
  split; [exact Hsettled |]. split; [exact Hle |].
  subst s'. unfold shakeStep, random_between, random. run.
  destruct (Qgtb (screenShake s) 0); run; proj.
  - destruct (Qltb (screenShake s * 0.9) 0.5); run; proj;
      (split; [reflexivity | destruct s; reflexivity]).
  - split; [reflexivity | destruct s; reflexivity].
Qed.

(** X6. A shake dies out: from a non-negative shake [v], once
    [v * 0.9 ^ k < 0.5] the shake is 0 after any [k >= 1] frames in which
    nothing renews it. *)
Theorem shake_dies_out (ps : list P5.t) (s : Session) :
  ps <> [] ->
  0 <= screenShake s ->
  screenShake s * 0.9 ^ Z.of_nat (length ps) < 0.5 ->
  screenShake (replay shakeStep ps s) == 0.
Proof.
  intros Hps H0 Hlt. destruct ps as [| p ps]; [contradiction |].
  rewrite replay_cons. destruct (shakeStep_bounds p s H0) as (Hs' & Hle).
  apply shake_rests; [exact Hs' |].
  cbn [length] in Hlt. rewrite Qpower_S in Hlt.
  assert (Hp : 0 <= 0.9 ^ Z.of_nat (length ps)) by (apply Qpower_0_le; lra).
  nra.
Qed.

Lemma flashStep_value s :
  damageEffectVal (exec flashStep s) =
  if Qgtb (damageEffectVal s) 0.01 then damageEffectVal s - 0.05
  else damageEffectVal s.
Proof.
  unfold flashStep. run.
  destruct (Qgtb (damageEffectVal s) 0.01); reflexivity.
Qed.

(** X7. The damage flash of [drawPlayer] loses 0.05 per frame while it is
    above 0.01 and is then left alone.  From a value [v] above [-0.04] it
    stays above [-0.04], and once [v <= 0.01 + 0.05 * k] it is at most
    0.01 after [k] frames: the flash of a hit, which starts at 1, is over
    within 20 frames. *)
Theorem flash_fades (k : nat) (s : Session) :
  -0.04 < damageEffectVal s ->
  damageEffectVal s <= 0.01 + 0.05 * inject_Z (Z.of_nat k) ->
  let v' := damageEffectVal (Nat.iter k (exec flashStep) s) in
  -0.04 < v' /\ v' <= 0.01.
Proof.
  revert s. induction k as [| k IH]; intros s Hlo Hhi v'; subst v'.
  - change (inject_Z (Z.of_nat 0)) with 0 in Hhi.
    change (Nat.iter 0 (exec flashStep) s) with s. lra.
  - rewrite Nat.iter_succ_r. rewrite inject_S in Hhi.
    apply IH; rewrite flashStep_value;
      destruct (Qgtb (damageEffectVal s) 0.01) eqn:E;
      [ apply Qgtb_gt in E | apply Qgtb_le in E
      | apply Qgtb_gt in E | apply Qgtb_le in E ]; try lra.
    assert (0 <= inject_Z (Z.of_nat k)).
    { change 0 with (inject_Z 0). rewrite <- Zle_Qle. lia. }
    lra.
Qed.

(** ** The danger level *)

Lemma constrain_bounds n low high :
  low <= high ->
  low <= P5.constrain n low high /\ P5.constrain n low high <= high.
Proof.
  intros H. unfold P5.constrain, Math_max, Math_min. split.
  - apply Q.le_max_r.
  - apply Q.max_lub; [apply Q.le_min_r | exact H].
Qed.

Lemma steer_danger p ct sf e d md s :
  0 <= md <= 1 ->
  0 <= snd (fst (steer p ct sf e d md s)) <= 1.
Proof.
  intros H. unfold steer, bind, get. cbn [fst snd].
  destruct (chasing _ _ _ _); [| exact H].
  unfold chase, bind, get, ret. cbn [fst snd].
  destruct (Qgtb _ md); [| exact H].
  apply constrain_bounds. lra.
Qed.

Lemma iteration_danger p ct sf i md s :
  0 <= md <= 1 ->
  0 <= fst (updateGameLogic_iteration p ct sf i md s) <= 1.
Proof.
  intros H. destruct (enemies s !! i) as [e |] eqn:Hi.
  - rewrite (iteration_some _ _ _ _ _ _ _ Hi). cbn [fst].
    apply steer_danger, H.
  - rewrite iteration_none by exact Hi. exact H.
Qed.

Lemma for_down_danger p ct sf n md s :
  0 <= md <= 1 ->
  0 <= fst (for_down n (updateGameLogic_iteration p ct sf) md s) <= 1.
Proof.
  revert s md. induction n as [| n IH]; intros s md H; simpl.
  - exact H.
  - unfold bind. apply IH, iteration_danger, H.
Qed.

Lemma loop_danger p ct sf s :
  0 <= fst (updateGameLogic_loop p ct sf s) <= 1.
Proof.
  unfold updateGameLogic_loop. rewrite bind_get.
  apply for_down_danger. lra.
Qed.

Lemma steer_same_danger p ct sf e d md :
  preserves (same_on dangerIntensity) (steer p ct sf e d md).
Proof.
  intros s. pose proof (steer_same_standing p ct sf e d md s) as H.
  unfold same_standing, standing in H. injection H. intros. assumption.
Qed.

Lemma same_core_danger (A : Type) (m : M A) :
  preserves same_core m -> preserves (same_on dangerIntensity) m.
Proof.
  intros H s. destruct (same_core_fields _ _ (H s)) as (_ & _ & _ & _ & _ & E & _).
  exact E.
Qed.

Lemma loop_same_danger p ct sf :
  preserves (same_on dangerIntensity) (updateGameLogic_loop p ct sf).
Proof.
  unfold updateGameLogic_loop, updateGameLogic_iteration, resolveCollision,
    consume, damage, pruneOffscreen, setScore, setFinalSize,
    setCauseOfDeath, setGameState, playSound, call.
  walk;
    lazymatch goal with
    | |- preserves _ (steer _ _ _ _ _ _) => apply steer_same_danger
    | |- preserves _ (spawnParticles _ _ _ _ _) =>
        apply same_core_danger, spawnParticles_same_core
    | |- preserves _ (spawnShockwave _ _ _ _) =>
        apply same_core_danger, spawnShockwave_same_core
    | |- _ => reflexivity
    end.
Qed.

Lemma spawnStep_same_danger Math_random p ct :
  preserves (same_on dangerIntensity) (spawnStep Math_random p ct).
Proof.
  unfold spawnStep, spawnEnemy, Math_random_next.
  walk;
    lazymatch goal with
    | |- preserves _ _ => intros s; reflexivity
    | |- _ => reflexivity
    end.
Qed.

Lemma tickTimers_same_danger dt :
  preserves (same_on dangerIntensity) (tickTimers dt).
Proof. unfold tickTimers. walk; reflexivity. Qed.

Lemma updateGameLogic_danger Math_random p s :
  dangerIntensity (exec (updateGameLogic Math_random p) s) =
  P5.lerp (dangerIntensity s)
    (fst (updateGameLogic_loop p (P5.millis p) (scaleFactor s)
       (exec (spawnStep Math_random p (P5.millis p))
          (exec (tickTimers (P5.deltaTime p)) s))))
    0.1.
Proof.
  unfold updateGameLogic, exec. rewrite bind_get.
  unfold bind at 1. cbv zeta.
  pose proof (tickTimers_same_danger (P5.deltaTime p) s) as E1.
  revert E1. generalize (snd (tickTimers (P5.deltaTime p) s)). intros s1 E1.
  unfold bind at 1. cbv zeta.
  pose proof (spawnStep_same_danger Math_random p (P5.millis p) s1) as E2.
  revert E2. generalize (snd (spawnStep Math_random p (P5.millis p) s1)).
  intros s2 E2.
  unfold bind at 1. cbv zeta.
  pose proof (loop_same_danger p (P5.millis p) (scaleFactor s) s2) as E3.
  revert E3.
  generalize (updateGameLogic_loop p (P5.millis p) (scaleFactor s) s2).
  intros [md s3] E3. cbn [fst snd] in *.
  unfold bind, modify. cbn [fst snd].
  destruct (same_core_fields _ _
    (ambientParticle_same_core p (scaleFactor s)
       (set_dangerIntensity s3 (P5.lerp (dangerIntensity s3) md 0.1))))
    as (_ & _ & _ & _ & _ & E4 & _).
  rewrite E4. proj. unfold same_on in *. rewrite E3, E2, E1. reflexivity.
Qed.

(** The running maximum after the iteration on a live index (lines
    467-477): a chasing enemy raises it to its own danger when that is
    larger, any other enemy leaves it. *)
Lemma iteration_maxDanger p ct sf i md s e :
  enemies s !! i = Some e ->
  let d :=
    P5.dist p (FishEntity.x (player s)) (FishEntity.y (player s))
      (FishEntity.x e) (FishEntity.y e) in
  let danger :=
    P5.constrain
      (P5.map d (detectionRange (FishEntity.variant e) sf) (100 * sf) 0 1)
      0 1 in
  fst (updateGameLogic_iteration p ct sf i md s) =
  if chasing e (player s) d sf
  then (if Qgtb danger md then danger else md)
  else md.
Proof.
  intros Hi d danger.
  rewrite (iteration_some _ _ _ _ _ _ _ Hi). cbn [fst]. fold d.
  unfold steer, bind, get. cbn [fst snd].
  destruct (chasing e (player s) d sf); [| reflexivity].
  unfold chase, bind, get, ret. cbn [fst snd]. reflexivity.
Qed.

(** X8. A tick moves the danger level, which drives the red overlay, one
    tenth of the way towards [maxDanger], the value that the enemy loop of
    this tick returns, run after the timer and spawn steps.  The loop
    starts from 0; the iteration on an enemy that chases the player
    replaces the running value by that enemy's danger, its distance mapped
    from the detection range down to [100 * sf] onto [[0, 1]] and clamped,
    when that is larger, and any other iteration keeps it.  So [maxDanger]
    lies in [[0, 1]], it is 0 when no enemy is left to visit, and a level
    in [[0, 1]] stays in [[0, 1]]. *)
Theorem danger_stays_in_unit (Math_random : nat -> Q) (p : P5.t)
  (s : Session) :
  let s2 :=
    exec (spawnStep Math_random p (P5.millis p))
      (exec (tickTimers (P5.deltaTime p)) s) in
  let maxDanger :=
    fst (updateGameLogic_loop p (P5.millis p) (scaleFactor s) s2) in
  let s' := exec (updateGameLogic Math_random p) s in
  dangerIntensity s' = P5.lerp (dangerIntensity s) maxDanger 0.1 /\
  0 <= maxDanger /\ maxDanger <= 1 /\
  (enemies s2 = [] -> maxDanger = 0) /\
  (0 <= dangerIntensity s <= 1 -> 0 <= dangerIntensity s' <= 1) /\
  (forall (currentTime sf running : Q) (i : nat) (t : Session)
          (e : FishEntity.t),
     enemies t !! i = Some e ->
     let d :=
       P5.dist p (FishEntity.x (player t)) (FishEntity.y (player t))
         (FishEntity.x e) (FishEntity.y e) in
     let danger :=
       P5.constrain
         (P5.map d (detectionRange (FishEntity.variant e) sf) (100 * sf)
            0 1)
         0 1 in
     let running' :=
       fst (updateGameLogic_iteration p currentTime sf i running t) in
     running' =
       (if chasing e (player t) d sf
        then (if Qgtb danger running then danger else running)
        else running) /\
     running <= running').
Proof.
  intros s2 maxDanger s'.
  pose proof (updateGameLogic_danger Math_random p s) as E.
  pose proof (loop_danger p (P5.millis p) (scaleFactor s) s2) as [H0 H1].
  assert (Hempty : enemies s2 = [] -> maxDanger = 0).
  { intros He. unfold maxDanger, updateGameLogic_loop.
    rewrite bind_get, He. reflexivity. }
  fold s2 in E. fold maxDanger in E, H0, H1. fold s' in E.
  clearbody maxDanger s' s2.
  split; [exact E |]. split; [exact H0 |]. split; [exact H1 |].
  split; [exact Hempty |]. split.
  - rewrite E. unfold P5.lerp. lra.
  - intros ct sf md i t e Hi d danger running'.
    pose proof (iteration_maxDanger p ct sf i md t e Hi) as Er.
    cbv zeta in Er. fold d danger running' in Er.
    split; [exact Er |]. rewrite Er.
    destruct (chasing e (player t) d sf); [| apply Qle_refl].
    destruct (Qgtb danger md) eqn:G; [| apply Qle_refl].
    apply Qgtb_gt in G. lra.
Qed.

(** ** What the spawner pushes *)

Lemma random_between_range u lo hi :
  0 <= u -> u < 1 -> lo <= hi ->
  lo <= P5.random_between u lo hi /\ P5.random_between u lo hi <= hi.
Proof.
  intros H0 H1 H. unfold P5.random_between.
  destruct (Qgtb lo hi) eqn:E.
  - apply Qgtb_gt in E. lra.
  - split; nra.
Qed.

Lemma bind_pushes_with {A : Type} (m : M A) (k : A -> M unit)
  (P : A -> Prop) (Q : A -> FishEntity.t -> Prop) (s : Session) :
  enemies (snd (m s)) = enemies s ->
  P (fst (m s)) ->
  (forall a, pushes (Q a) (k a)) ->
  exists e a,
    enemies (snd (bind m k s)) = enemies s ++ [e] /\ P a /\ Q a e.
Proof.
  intros Hen HP Hk. unfold bind. cbv zeta.
  destruct (Hk (fst (m s)) (snd (m s))) as (e & He & HQ).
  exists e, (fst (m s)). split; [rewrite He, Hen; reflexivity |].
  split; assumption.
Qed.

Lemma spawnEnemy_tail_pushes Math_random p (size speed : Q) (color : RGB)
  (variant : FishVariant) (sf : Q) :
  pushes
    (fun e =>
       FishEntity.size e = size /\ FishEntity.speed e = speed /\
       FishEntity.variant e = variant /\
       FishEntity.vy e = 0 /\
       ((FishEntity.x e = - size * 2 /\ FishEntity.vx e = speed) \/
        (FishEntity.x e = P5.width p + size * 2 /\
         FishEntity.vx e = - speed)) /\
       exists u, drawn p u /\
         FishEntity.y e =
           P5.random_between u (50 * sf) (P5.height p - 50 * sf))
    (y <- random_between p (50 * sf) (P5.height p - 50 * sf) ;;
     side <- random p ;;
     let fromLeft := Qgtb side 0.5 in
     id <- Math_random_next Math_random ;;
     noiseOffset <- random_max p 1000 ;;
     modify (fun s => set_enemies s
       (enemies s ++
        [FishEntity.mk (RandomId id)
           (if fromLeft then - size * 2 else P5.width p + size * 2)
           y size
           (if fromLeft then speed else - speed) 0
           color speed noiseOffset variant]))).
Proof.
  intros s. unfold bind, random_between, random_max, random,
    Math_random_next, modify, ret. cbv zeta. cbn [fst snd]. proj.
  eexists. split; [reflexivity |]. proj.
  repeat (split; [reflexivity |]). split.
  - destruct (Qgtb _ 0.5); [left | right]; split; reflexivity.
  - eexists. split; [eexists; reflexivity | reflexivity].
Qed.

Lemma constrain_le n low high bound :
  low <= high -> n <= bound -> low <= bound ->
  P5.constrain n low high <= bound.
Proof.
  intros H Hn Hl. unfold P5.constrain, Math_max, Math_min.
  apply Q.max_lub; [| exact Hl].
  apply Qle_trans with n; [apply Q.le_min_l | exact Hn].
Qed.

Ltac draw_range H :=
  match goal with
  | |- context [P5.random_between (P5.draws ?p ?k) ?lo ?hi] =>
      let R := fresh "R" in
      assert (R : lo <= P5.random_between (P5.draws p k) lo hi /\
                  P5.random_between (P5.draws p k) lo hi <= hi)
        by (apply random_between_range; [apply H | apply H | lra]);
      revert R; generalize (P5.random_between (P5.draws p k) lo hi);
      intros ? R
  end.

Lemma spawnEnemy_banded Math_random p s :
  fair p -> 0 < scaleFactor s -> 0 < FishEntity.size (player s) ->
  exists e,
    enemies (exec (spawnEnemy Math_random p) s) = enemies s ++ [e] /\
    banded (FishEntity.size (player s)) (scaleFactor s)
      (FishEntity.variant e) (FishEntity.size e) (FishEntity.speed e) /\
    FishEntity.vy e = 0 /\
    ((FishEntity.x e = - FishEntity.size e * 2 /\
      FishEntity.vx e = FishEntity.speed e) \/
     (FishEntity.x e = P5.width p + FishEntity.size e * 2 /\
      FishEntity.vx e = - FishEntity.speed e)) /\
    (100 * scaleFactor s <= P5.height p ->
     50 * scaleFactor s <= FishEntity.y e <= P5.height p - 50 * scaleFactor s).
Proof.
  intros Hfair Hsf Hp.
  unfold exec, spawnEnemy.
  rewrite bind_get. cbv beta. rewrite bind_random. cbv beta.
  rewrite bind_get. cbv beta.
  set (u := P5.draws p (randomCount s)).
  set (s1 := set_randomCount s (S (randomCount s))).
  change (enemies s) with (enemies s1).
  change (FishEntity.size (player s)) with (FishEntity.size (player s1)) in *.
  set (pSize := FishEntity.size (player s1)) in *.
  set (sf := scaleFactor s) in *.
  match goal with
  | |- exists e, enemies (snd (bind ?m ?k s1)) = _ /\ _ =>
      destruct (bind_pushes_with m k
        (fun a => banded pSize sf (snd a) (fst (fst (fst a))) (snd (fst a)))
        (fun a e =>
           FishEntity.size e = fst (fst (fst a)) /\
           FishEntity.speed e = snd (fst a) /\
           FishEntity.variant e = snd a /\
           FishEntity.vy e = 0 /\
           ((FishEntity.x e = - fst (fst (fst a)) * 2 /\
             FishEntity.vx e = snd (fst a)) \/
            (FishEntity.x e = P5.width p + fst (fst (fst a)) * 2 /\
             FishEntity.vx e = - snd (fst a))) /\
           exists u, drawn p u /\
             FishEntity.y e =
               P5.random_between u (50 * sf) (P5.height p - 50 * sf))
        s1) as (e & a & He & Ha & Hs & Hv & Hvar & Hvy & Hx & uy & Huy & Hy)
  end.
  - destruct (isPrey u).
    + match goal with
      | |- enemies (snd (?m ?s2)) = _ =>
          assert (H : preserves (same_on enemies) m) by same_enemies;
          apply (H s2)
      end.
    + rewrite bind_random. cbv beta.
      destruct (predatorVariant_cases (P5.draws p (randomCount s1)))
        as [E | [E | [E | E]]]; rewrite E; cbv iota.
      all: match goal with
           | |- enemies (snd (?m ?s2)) = _ =>
               assert (H : preserves (same_on enemies) m) by same_enemies;
               apply (H s2)
           end.
  - destruct (isPrey u).
    + unfold random_between, random_choice; unfold bind, random, ret.
      cbv beta zeta. cbn [fst snd]. unfold banded.
      draw_range Hfair. draw_range Hfair.
      destruct (constrain_bounds q (10 * sf) (300 * sf)) as (C1 & C2); [lra |].
      split; [split; assumption |]. split; [| split; nra].
      intros Hbig. apply Qle_lt_trans with (Qmax (pSize * 0.8) (10 * sf)).
      * apply constrain_le; [lra | | apply Q.le_max_r].
        apply Qle_trans with (pSize * 0.8); [apply R | apply Q.le_max_l].
      * apply Q.max_lub_lt; lra.
    + rewrite bind_random. cbv beta.
      destruct (predatorVariant_cases (P5.draws p (randomCount s1)))
        as [E | [E | [E | E]]]; rewrite E; cbv iota;
        unfold random_between, random_choice; unfold bind, random, ret;
        cbv beta zeta; cbn [fst snd]; unfold banded;
        draw_range Hfair; draw_range Hfair; repeat split; nra.
  - intros a. apply spawnEnemy_tail_pushes.
  - exists e. split; [exact He |].
    rewrite Hs, Hv, Hvar. split; [exact Ha |]. split; [exact Hvy |].
    split; [exact Hx |].
    intros Hh. rewrite Hy. destruct Huy as (k & ->).
    apply random_between_range; [apply Hfair | apply Hfair | lra].
Qed.

(** X9. With draws in [[0, 1)], a positive scale factor and a player
    larger than [10 * sf] (the game starts at [20 * sf]), [spawnEnemy]
    pushes exactly one enemy.  A prey is smaller than the player, so it is
    edible; a hunter, viper or titan is strictly larger, so it is a
    predator from its first frame; a dasher is at least as large.  The
    enemy starts two sizes beyond the left or right edge, swimming
    inwards at its cruising speed, at a height between [50 * sf] and
    [height - 50 * sf]. *)
Theorem spawned_enemy_fits (Math_random : nat -> Q) (p : P5.t)
  (s : Session) :
  fair p -> 0 < scaleFactor s ->
  10 * scaleFactor s < FishEntity.size (player s) ->
  let sf := scaleFactor s in
  let pSize := FishEntity.size (player s) in
  exists e,
    enemies (exec (spawnEnemy Math_random p) s) = enemies s ++ [e] /\
    match FishEntity.variant e with
    | Prey =>
        10 * sf <= FishEntity.size e <= 300 * sf /\
        FishEntity.size e < pSize /\
        actuallyPredator e (player s) = false
    | Hunter =>
        pSize * 1.1 <= FishEntity.size e <= pSize * 2 /\
        actuallyPredator e (player s) = true
    | Dasher => pSize <= FishEntity.size e <= pSize * 1.4
    | Viper =>
        pSize * 1.1 <= FishEntity.size e <= pSize * 1.6 /\
        actuallyPredator e (player s) = true
    | Titan =>
        pSize * 1.8 <= FishEntity.size e <= pSize * 3 /\
        actuallyPredator e (player s) = true
    | Player => False
    end /\
    0 < FishEntity.speed e /\
    FishEntity.vy e = 0 /\
    ((FishEntity.x e = - FishEntity.size e * 2 /\
      FishEntity.vx e = FishEntity.speed e) \/
     (FishEntity.x e = P5.width p + FishEntity.size e * 2 /\
      FishEntity.vx e = - FishEntity.speed e)) /\
    (100 * sf <= P5.height p ->
     50 * sf <= FishEntity.y e <= P5.height p - 50 * sf).
Proof.
  intros Hfair Hsf Hbig sf pSize.
  assert (Hp : 0 < FishEntity.size (player s)) by lra.
  destruct (spawnEnemy_banded Math_random p s Hfair Hsf Hp)
    as (e & He & Hb & Hvy & Hx & Hy).
  fold sf pSize in Hb, Hy, Hbig, Hp. fold sf in Hsf.
  exists e. split; [exact He |].
  split; [| split; [| split; [exact Hvy | split; [exact Hx | exact Hy]]]].
  - unfold banded in Hb. unfold actuallyPredator. fold pSize.
    destruct (FishEntity.variant e).
    + destruct Hb as (Hr & Hlt & _). specialize (Hlt Hbig).
      split; [exact Hr |]. split; [exact Hlt |]. apply Qgtb_le. lra.
    + destruct Hb as (Hr & _). split; [exact Hr |]. apply Qgtb_gt. lra.
    + destruct Hb as (Hr & _). exact Hr.
    + destruct Hb as (Hr & _). split; [exact Hr |]. apply Qgtb_gt. lra.
    + destruct Hb as (Hr & _). split; [exact Hr |]. apply Qgtb_gt. lra.
    + exact Hb.
  - unfold banded in Hb.
    destruct (FishEntity.variant e); try contradiction;
      repeat match goal with H : _ /\ _ |- _ => destruct H end; nra.
Qed.

(** ** Sizes and score over a tick *)

#[export] Instance growing_preorder sf : PreOrder (growing sf).
Proof.
  split.
  - intros s. split; [reflexivity |]. intros _ H.
    split; [exact H |]. split; [lia | lra].
  - intros s1 s2 s3 (E12 & H12) (E23 & H23). split; [congruence |].
    intros Hsf H1. destruct (H12 Hsf H1) as (H2 & Hs12 & Hp12).
    destruct (H23 Hsf H2) as (H3 & Hs23 & Hp23).
    split; [exact H3 |]. split; [lia | lra].
Qed.

(** A transition that leaves the scale factor, the player's size, the
    score and the enemies alone. *)
Lemma growing_same sf s s' :
  scaleFactor s' = scaleFactor s ->
  FishEntity.size (player s') = FishEntity.size (player s) ->
  scoreRef s' = scoreRef s ->
  enemies s' = enemies s ->
  growing sf s s'.
Proof.
  intros Esf Ep Esc Een. split; [exact Esf |].
  intros _ (Hsf & Hp & Hen). unfold thriving.
  rewrite Esf, Ep, Esc, Een. repeat split; try assumption; [lia | lra].
Qed.

Lemma growing_core sf (A : Type) (m : M A) :
  preserves same_core m -> preserves (growing sf) m.
Proof.
  intros H s.
  destruct (same_core_fields _ _ (H s)) as (Esf & Ep & Een & Esc & _).
  apply growing_same; congruence.
Qed.

Lemma growing_standing sf s s' : same_standing s s' -> growing sf s s'.
Proof.
  intros H.
  destruct (same_standing_fields _ _ H) as (Esf & Ep & Een & Esc & _).
  apply growing_same; assumption.
Qed.

(** Dropping enemies. *)
Lemma growing_delete sf s i :
  growing sf s (set_enemies s (delete i (enemies s))).
Proof.
  split; [reflexivity |]. intros _ (Hsf & Hp & Hen). unfold thriving. proj.
  repeat split; try assumption; [| lia | lra].
  rewrite delete_take_drop. apply Forall_app.
  split; [apply Forall_take | apply Forall_drop]; exact Hen.
Qed.

Lemma Qfloor_nonneg (q : Q) : 0 <= q -> (0 <= Math_floor q)%Z.
Proof.
  intros H. unfold Math_floor. change 0%Z with (Qfloor 0).
  apply Qfloor_resp_le, H.
Qed.

Lemma consume_growing p sf i e s :
  enemies s !! i = Some e ->
  growing sf s (exec (consume p sf i e) s).
Proof.
  intros Hi.
  destruct (consume_fields p sf i e s) as (Esf & Ep & Een & Esc & _).
  revert Esf Ep Een Esc. generalize (exec (consume p sf i e) s).
  intros s' Esf Ep Een Esc. split; [exact Esf |].
  intros Hsf (Hsf' & Hp & Hen).
  assert (He : 0 < FishEntity.size e).
  { rewrite Forall_lookup in Hen. apply (Hen i e Hi). }
  unfold thriving. rewrite Esf, Ep, Een, Esc. proj.
  repeat split; try assumption.
  - lra.
  - rewrite delete_take_drop. apply Forall_app.
    split; [apply Forall_take | apply Forall_drop]; exact Hen.
  - assert (0 <= Math_floor (Number_div (FishEntity.size e) sf))%Z; [| lia].
    apply Qfloor_nonneg, Number_round_nonneg.
    apply Qle_shift_div_l; [exact Hsf | lra].
  - lra.
Qed.

Lemma damage_growing p sf e : preserves (growing sf) (damage p sf e).
Proof.
  intros s. change (growing sf s (exec (damage p sf e) s)).
  destruct (Qlt_le_dec 0 (invulnTimer s)) as [H | H].
  - rewrite damage_shielded by exact H. reflexivity.
  - destruct (damage_fields p sf e s H) as (Esf & Ep & Een & Esc & _).
    apply growing_same; [exact Esf | rewrite Ep; reflexivity | exact Esc
                        | exact Een].
Qed.

Lemma pruneOffscreen_growing p sf i e :
  preserves (growing sf) (pruneOffscreen p sf i e).
Proof. unfold pruneOffscreen. walk. apply growing_delete. Qed.

Lemma iteration_growing p ct sf i md :
  preserves (growing sf) (updateGameLogic_iteration p ct sf i md).
Proof.
  intros s. destruct (enemies s !! i) as [e |] eqn:Hi.
  - destruct (iteration_shape p ct sf i md s e Hi) as (s0 & Hst & Eit).
    unfold exec in Eit. rewrite Eit. clear Eit.
    set (e' := steered p ct sf e md s).
    set (d := P5.dist p _ _ _ _).
    destruct (same_standing_fields _ _ Hst) as (Esf & Ep & Een & Esc & _).
    set (s1 := set_enemies s0 (<[i := e']> (enemies s))).
    assert (Hi1 : enemies s1 !! i = Some e').
    { subst s1. proj. apply list_lookup_insert_eq.
      apply lookup_lt_is_Some. eauto. }
    transitivity s1; [| etransitivity; [| apply pruneOffscreen_growing]].
    + split; [exact Esf |]. intros _ (Hsf & Hp & Hen).
      unfold thriving. subst s1. proj. rewrite Esf, Ep, Esc.
      repeat split; try assumption; [| lia | lra].
      apply Forall_insert; [exact Hen |].
      destruct (static_fields _ _ (steered_static p ct sf e md s))
        as (_ & Es & _).
      fold e' in Es. rewrite Es. rewrite Forall_lookup in Hen.
      apply (Hen i e Hi).
    + fold (exec (resolveCollision p sf i e' d) s1).
      destruct (colliding (player s1) e' d) eqn:Hc.
      * destruct (Qgeb (FishEntity.size (player s1)) (FishEntity.size e'))
          eqn:Hge.
        -- unfold exec. rewrite resolveCollision_consume by assumption.
           apply consume_growing, Hi1.
        -- unfold exec. rewrite resolveCollision_damage by assumption.
           apply damage_growing.
      * rewrite resolveCollision_miss_exec by exact Hc. reflexivity.
  - rewrite iteration_none by exact Hi. reflexivity.
Qed.

Lemma loop_growing p ct sf :
  preserves (growing sf) (updateGameLogic_loop p ct sf).
Proof. unfold updateGameLogic_loop. walk. apply iteration_growing. Qed.

Lemma spawnEnemy_frame Math_random p :
  preserves (same_on (fun s => (scaleFactor s, player s, scoreRef s)))
    (spawnEnemy Math_random p).
Proof.
  unfold spawnEnemy, Math_random_next.
  walk;
    lazymatch goal with
    | |- preserves _ _ => intros s; reflexivity
    | |- _ => reflexivity
    end.
Qed.

Lemma spawnEnemy_growing Math_random p sf :
  fair p -> preserves (growing sf) (spawnEnemy Math_random p).
Proof.
  intros Hfair s.
  pose proof (spawnEnemy_frame Math_random p s) as Hf.
  assert (Hb : 0 < scaleFactor s -> 0 < FishEntity.size (player s) ->
    exists e,
      enemies (snd (spawnEnemy Math_random p s)) = enemies s ++ [e] /\
      0 < FishEntity.size e).
  { intros Hsf Hp.
    destruct (spawnEnemy_banded Math_random p s Hfair Hsf Hp)
      as (e & He & Hb & _).
    exists e. split; [exact He |]. unfold banded in Hb.
    destruct (FishEntity.variant e); try contradiction;
      repeat match goal with H : _ /\ _ |- _ => destruct H end; nra. }
  revert Hf Hb. generalize (snd (spawnEnemy Math_random p s)).
  intros s' Hf Hb. unfold same_on in Hf. injection Hf as Esf Ep Esc.
  split; [exact Esf |]. intros _ (Hsf & Hp & Hen).
  destruct (Hb Hsf Hp) as (e & He & Hpos).
  unfold thriving. rewrite Esf, Ep, Esc, He.
  repeat split; try assumption; [| lia | lra].
  apply Forall_app. split; [exact Hen |]. constructor; [exact Hpos |].
  constructor.
Qed.

Lemma spawnStep_growing Math_random p ct sf :
  fair p -> preserves (growing sf) (spawnStep Math_random p ct).
Proof.
  intros Hfair. unfold spawnStep. walk.
  - apply spawnEnemy_growing, Hfair.
  - apply growing_same; reflexivity.
Qed.

Lemma tickTimers_growing dt sf : preserves (growing sf) (tickTimers dt).
Proof.
  intros s. change (growing sf s (exec (tickTimers dt) s)).
  destruct (tickTimers_fields dt s) as (_ & _ & _ & Een & Esf & Esc & Ep).
  apply growing_same; [exact Esf | rewrite Ep; reflexivity | exact Esc
                      | exact Een].
Qed.

Lemma updateGameLogic_growing Math_random p s :
  fair p ->
  growing (scaleFactor s) s (exec (updateGameLogic Math_random p) s).
Proof.
  intros Hfair. unfold exec. revert s.
  assert (H : forall sf,
    preserves (growing sf)
      (tickTimers (P5.deltaTime p) ;;;
       spawnStep Math_random p (P5.millis p) ;;;
       maxDanger <- updateGameLogic_loop p (P5.millis p) sf ;;
       modify (fun s => set_dangerIntensity s
         (P5.lerp (dangerIntensity s) maxDanger 0.1)) ;;;
       ambientParticle p sf)).
  { intros sf. walk.
    - apply tickTimers_growing.
    - apply spawnStep_growing, Hfair.
    - apply loop_growing.
    - apply growing_same; reflexivity.
    - apply growing_core, ambientParticle_same_core. }
  intros s. apply (H (scaleFactor s) s).
Qed.

(** X10. With draws in [[0, 1)], a tick from a session whose scale factor
    and sizes are all positive leads to such a session again, and over the
    tick neither the score nor the player's size decreases: eating is the
    only thing that changes them. *)
Theorem tick_never_shrinks (Math_random : nat -> Q) (p : P5.t)
  (s : Session) :
  fair p -> thriving s ->
  let s' := exec (updateGameLogic Math_random p) s in
  thriving s' /\
  (scoreRef s <= scoreRef s')%Z /\
  FishEntity.size (player s) <= FishEntity.size (player s').
Proof.
  intros Hfair H s'.
  destruct (updateGameLogic_growing Math_random p s Hfair) as (_ & Hg).
  apply Hg; [apply H | exact H].
Qed.

(** ** One hit per tick *)

Lemma hurtCount_app evs1 evs2 :
  hurtCount (evs1 ++ evs2) = (hurtCount evs1 + hurtCount evs2)%nat.
Proof. unfold hurtCount. rewrite List.filter_app, length_app. reflexivity. Qed.

Lemma stateChanges_app evs1 evs2 :
  stateChanges (evs1 ++ evs2) =
  (stateChanges evs1 + stateChanges evs2)%nat.
Proof.
  unfold stateChanges. rewrite List.filter_app, length_app. reflexivity.
Qed.

#[export] Instance struck_tolerant : Tolerant struck.
Proof.
  split; [split |].
  - intros s H. split; [exact H |]. exists []. split; [reflexivity |].
    split; [reflexivity |]. left. split; [reflexivity |].
    split; [reflexivity | lra].
  - intros s1 s2 s3 H12 H23 H1.
    destruct (H12 H1) as (H2 & evs1 & E1 & O1 & C1).
    destruct (H23 H2) as (H3 & evs2 & E2 & O2 & C2).
    split; [exact H3 |]. exists (evs2 ++ evs1).
    split; [rewrite E2, E1; apply app_assoc |].
    rewrite hurtCount_app, stateChanges_app. split; [lia |].
    destruct C1 as [(N1 & T1 & L1) | (N1 & X1 & T1 & L1)];
      destruct C2 as [(N2 & T2 & L2) | (N2 & X2 & T2 & L2)].
    + left. split; [lia |]. split; [congruence | lra].
    + right. split; [lia |]. split; [rewrite <- T1; exact X2 |].
      split; [exact T2 | lra].
    + right. split; [lia |]. split; [exact X1 |].
      split; [congruence | lra].
    + exfalso. rewrite T1 in X2. lra.
  - intros s s' E H. apply same_vitals_fields in E as (Eh & Et & Ec & _).
    split; [rewrite Eh; exact H |]. exists []. split; [rewrite Ec; reflexivity |].
    split; [reflexivity |]. left. split; [reflexivity |].
    split; [exact Et | rewrite Eh; lra].
Qed.

Lemma consume_struck p sf i e : preserves struck (consume p sf i e).
Proof.
  intros s. change (struck s (exec (consume p sf i e) s)).
  destruct (consume_fields p sf i e s) as (_ & _ & _ & _ & Eh & Et & Ec).
  revert Eh Et Ec. generalize (exec (consume p sf i e) s).
  intros s' Eh Et Ec H.
  assert (Hh : playerHealth s <= playerHealth s' /\ playerHealth s' <= 100).
  { rewrite Eh. unfold Math_min, maxHealth. split.
    - apply Q.min_glb; lra.
    - apply Q.le_min_r. }
  split; [apply Hh |].
  exists [PlaySound Eat;
          SetScore
            (scoreRef s + Math_floor (Number_div (FishEntity.size e) sf))].
  split; [rewrite Ec; reflexivity |].
  split; [reflexivity |]. left. split; [reflexivity |].
  split; [exact Et | apply Hh].
Qed.

Lemma damageOf_le v : damageOf v <= 60.
Proof. unfold damageOf. destruct (FishVariant_eqb v Titan); lra. Qed.

Lemma damage_struck p sf e : preserves struck (damage p sf e).
Proof.
  intros s. change (struck s (exec (damage p sf e) s)).
  destruct (Qlt_le_dec 0 (invulnTimer s)) as [Ht | Ht].
  - rewrite damage_shielded by exact Ht. reflexivity.
  - destruct (damage_fields p sf e s Ht) as (_ & _ & _ & _ & Eh & Et & Ec).
    revert Eh Et Ec. generalize (exec (damage p sf e) s).
    intros s' Eh Et Ec H.
    pose proof (damageOf_pos (FishEntity.variant e)) as Hpos.
    pose proof (damageOf_le (FishEntity.variant e)) as Hle.
    split; [rewrite Eh; lra |].
    eexists. split; [rewrite Ec; apply (app_assoc _ [_] (calls s)) |].
    split.
    + destruct (Qleb _ 0); cbn; lia.
    + right. split; [destruct (Qleb _ 0); reflexivity |].
      split; [exact Ht |]. split; [exact Et | rewrite Eh; lra].
Qed.

Lemma struck_enemies s v : struck s (set_enemies s v).
Proof.
  intros H. proj. split; [exact H |]. exists []. split; [reflexivity |].
  split; [reflexivity |]. left. split; [reflexivity |].
  split; [reflexivity | lra].
Qed.

(** X11. A tick hurts the player at most once.  From a health under the
    cap, the calls made during a tick hold at most one hurt sound; the
    tick costs at most 60 health, and none at all when no hurt sound is
    played; a hit leaves the invulnerability timer at 1500; and the game
    state is changed at most once, and only in a tick with a hit. *)
Theorem one_hit_per_tick (Math_random : nat -> Q) (p : P5.t) (s : Session) :
  playerHealth s <= 100 ->
  let s' := exec (updateGameLogic Math_random p) s in
  exists evs,
    calls s' = evs ++ calls s /\
    (hurtCount evs <= 1)%nat /\
    (stateChanges evs <= hurtCount evs)%nat /\
    playerHealth s - 60 <= playerHealth s' /\
    (hurtCount evs = 0%nat -> playerHealth s <= playerHealth s') /\
    (hurtCount evs = 1%nat -> invulnTimer s' = 1500).
Proof.
  intros H s'. subst s'. rewrite updateGameLogic_split.
  destruct (tickTimers_fields (P5.deltaTime p) s) as (_ & Eh & Ec & _).
  cbv zeta in Eh.
  assert (H1 : playerHealth s <= playerHealth (exec (tickTimers (P5.deltaTime p)) s)
               /\ playerHealth (exec (tickTimers (P5.deltaTime p)) s) <= 100).
  { rewrite Eh. destruct (_ && _) eqn:E.
    - unfold Math_min, maxHealth. split; [apply Q.min_glb; lra |].
      apply Q.le_min_r.
    - split; lra. }
  clear Eh. revert Ec H1.
  generalize (exec (tickTimers (P5.deltaTime p)) s). intros s1 Ec (Hle & Hcap).
  unfold exec.
  destruct (afterTimers_preserves Math_random struck consume_struck
              damage_struck struck_enemies p (scaleFactor s) s1 Hcap)
    as (_ & evs & E & O & C).
  exists evs. split; [rewrite <- Ec; exact E |].
  destruct C as [(N & _ & L) | (N & _ & T & L)]; rewrite N.
  - split; [lia |]. split; [lia |]. split; [lra |].
    split; [intros _; lra | discriminate].
  - split; [lia |]. split; [lia |]. split; [lra |].
    split; [discriminate | intros _; exact T].
Qed.

(** ** The time between two spawns *)

Lemma activeSpawnInterval_min score alive :
  300 <= activeSpawnInterval score alive.
Proof.
  unfold activeSpawnInterval.
  assert (Hmax : 600 <= Math_max 600 (1500 - inject_Z score * 5))
    by apply Q.le_max_l.
  destruct (alive <? 8)%nat; [lra |].
  destruct (alive <? 15)%nat; [| lra].
  unfold Math_min. apply Q.min_glb; lra.
Qed.

Lemma steer_same_lastSpawnTime p ct sf e d md :
  preserves (same_on lastSpawnTime) (steer p ct sf e d md).
Proof.
  intros s. pose proof (steer_same_standing p ct sf e d md s) as H.
  unfold same_standing, standing in H. injection H. intros. assumption.
Qed.

Lemma same_core_lastSpawnTime (A : Type) (m : M A) :
  preserves same_core m -> preserves (same_on lastSpawnTime) m.
Proof.
  intros H s.
  destruct (same_core_fields _ _ (H s)) as (_ & _ & _ & _ & E & _).
  exact E.
Qed.

Lemma loop_same_lastSpawnTime p ct sf :
  preserves (same_on lastSpawnTime) (updateGameLogic_loop p ct sf).
Proof.
  unfold updateGameLogic_loop, updateGameLogic_iteration, resolveCollision,
    consume, damage, pruneOffscreen, setScore, setFinalSize,
    setCauseOfDeath, setGameState, playSound, call.
  walk;
    lazymatch goal with
    | |- preserves _ (steer _ _ _ _ _ _) => apply steer_same_lastSpawnTime
    | |- preserves _ (spawnParticles _ _ _ _ _) =>
        apply same_core_lastSpawnTime, spawnParticles_same_core
    | |- preserves _ (spawnShockwave _ _ _ _) =>
        apply same_core_lastSpawnTime, spawnShockwave_same_core
    | |- _ => reflexivity
    end.
Qed.

Lemma spawnEnemy_same_lastSpawnTime Math_random p :
  preserves (same_on lastSpawnTime) (spawnEnemy Math_random p).
Proof.
  unfold spawnEnemy, Math_random_next.
  walk;
    lazymatch goal with
    | |- preserves _ _ => intros s; reflexivity
    | |- _ => reflexivity
    end.
Qed.

Lemma tickTimers_same_spawn dt :
  preserves
    (same_on (fun s => (lastSpawnTime s, scoreRef s, enemies s)))
    (tickTimers dt).
Proof. unfold tickTimers. walk; reflexivity. Qed.

Lemma updateGameLogic_lastSpawnTime Math_random p s :
  lastSpawnTime (exec (updateGameLogic Math_random p) s) =
  if Qgtb (P5.millis p - lastSpawnTime s)
       (activeSpawnInterval (scoreRef s) (length (enemies s)))
  then P5.millis p else lastSpawnTime s.
Proof.
  rewrite updateGameLogic_split.
  pose proof (tickTimers_same_spawn (P5.deltaTime p) s) as E1.
  fold (exec (tickTimers (P5.deltaTime p)) s) in E1.
  revert E1. generalize (exec (tickTimers (P5.deltaTime p)) s).
  intros s1 E1. unfold same_on in E1. injection E1 as El Esc Een.
  rewrite <- El, <- Esc, <- Een. clear El Esc Een.
  unfold exec. unfold bind at 1. cbv zeta.
  assert (E2 : lastSpawnTime (snd (spawnStep Math_random p (P5.millis p) s1)) =
    if Qgtb (P5.millis p - lastSpawnTime s1)
         (activeSpawnInterval (scoreRef s1) (length (enemies s1)))
    then P5.millis p else lastSpawnTime s1).
  { unfold spawnStep. run. destruct (Qgtb _ _); reflexivity. }
  rewrite <- E2. clear E2.
  generalize (snd (spawnStep Math_random p (P5.millis p) s1)). intros s2.
  unfold bind at 1. cbv zeta.
  pose proof (loop_same_lastSpawnTime p (P5.millis p) (scaleFactor s) s2) as E3.
  revert E3.
  generalize (updateGameLogic_loop p (P5.millis p) (scaleFactor s) s2).
  intros [md s3] E3. cbn [fst snd] in *.
  unfold bind, modify. cbn [fst snd].
  destruct (same_core_fields _ _
    (ambientParticle_same_core p (scaleFactor s)
       (set_dangerIntensity s3 (P5.lerp (dangerIntensity s3) md 0.1))))
    as (_ & _ & _ & _ & E4 & _).
  rewrite E4. proj. exact E3.
Qed.

(** X12. Enemies never spawn less than 300 ms apart.  A tick stamps
    [lastSpawnTime] with the frame time exactly when it spawns; and when a
    tick has lengthened the enemy list, a next tick whose frame time is at
    most 300 ms later adds no enemy, whatever the score and the number of
    enemies alive. *)
Theorem spawns_keep_apart (Math_random : nat -> Q) (p1 p2 : P5.t)
  (s : Session) :
  let s1 := exec (updateGameLogic Math_random p1) s in
  let s2 := exec (updateGameLogic Math_random p2) s1 in
  (length (enemies s) < length (enemies s1))%nat ->
  P5.millis p2 - P5.millis p1 <= 300 ->
  lastSpawnTime s1 = P5.millis p1 /\
  lastSpawnTime s2 = P5.millis p1 /\
  (length (enemies s2) <= length (enemies s1))%nat.
Proof.
  intros s1 s2 Hgrew Hsoon.
  assert (Hstamp : lastSpawnTime s1 = P5.millis p1).
  { subst s1. rewrite updateGameLogic_lastSpawnTime.
    destruct (updateGameLogic_kept Math_random p1 s) as (e & _ & Hsub).
    apply sublist_length in Hsub. rewrite !length_fmap, length_app in Hsub.
    destruct (Qgtb _ _); [reflexivity |]. cbn [length] in Hsub. lia. }
  assert (Hnot : Qgtb (P5.millis p2 - lastSpawnTime s1)
            (activeSpawnInterval (scoreRef s1) (length (enemies s1))) = false).
  { apply Qgtb_le. rewrite Hstamp.
    pose proof (activeSpawnInterval_min (scoreRef s1) (length (enemies s1))).
    lra. }
  split; [exact Hstamp |]. split.
  - subst s2. rewrite updateGameLogic_lastSpawnTime, Hnot. exact Hstamp.
  - destruct (updateGameLogic_kept Math_random p2 s1) as (e & _ & Hsub).
    fold s2 in Hsub. rewrite Hnot in Hsub.
    apply sublist_length in Hsub. rewrite !length_fmap, length_app in Hsub.
    cbn [length] in Hsub. lia.
Qed.

(** ** Wandering *)

(** X13. With a noise field in [[0, 1]], a wandering enemy never turns
    around: its horizontal velocity keeps its sign, changing by at most
    a twentieth of the way to its cruising speed scaled by 0.8 to 1.2;
    and a vertical velocity within [1.5 * sf] of zero stays there. *)
Theorem wander_keeps_heading (p : P5.t) (currentTime sf : Q)
  (e : FishEntity.t) :
  (forall t, 0 <= P5.noise p t <= 1) ->
  0 <= sf -> 0 <= FishEntity.speed e ->
  let e' := wander p currentTime sf e in
  (0 < FishEntity.vx e ->
   0.95 * FishEntity.vx e <= FishEntity.vx e' /\ 0 < FishEntity.vx e') /\
  (FishEntity.vx e < 0 ->
   FishEntity.vx e' <= 0.95 * FishEntity.vx e /\ FishEntity.vx e' < 0) /\
  (-1.5 * sf <= FishEntity.vy e <= 1.5 * sf ->
   -1.5 * sf <= FishEntity.vy e' <= 1.5 * sf).
Proof.
  intros Hnoise Hsf Hspeed e'. subst e'. unfold wander. cbv zeta.
  cbn [FishEntity.vx FishEntity.vy FishEntity.with_vel].
  pose proof (Hnoise (FishEntity.noiseOffset e + currentTime * 0.0005)) as Hy.
  pose proof (Hnoise (FishEntity.noiseOffset e + 1000 + currentTime * 0.001))
    as Hs.
  revert Hy Hs.
  generalize (P5.noise p (FishEntity.noiseOffset e + currentTime * 0.0005)).
  generalize
    (P5.noise p (FishEntity.noiseOffset e + 1000 + currentTime * 0.001)).
  intros ns ny Hy Hs. unfold P5.lerp, P5.map.
  assert (Hw : 0 <=
    (if FishVariant_eqb (FishEntity.variant e) Titan
     then FishEntity.speed e * 0.5 else FishEntity.speed e))
    by (destruct (FishVariant_eqb _ _); lra).
  revert Hw.
  generalize (if FishVariant_eqb (FishEntity.variant e) Titan
     then FishEntity.speed e * 0.5 else FishEntity.speed e).
  intros w Hw.
  assert (Hm : 0.8 <= (ns - 0) / (1 - 0) * (1.2 - 0.8) + 0.8 <= 1.2).
  { assert (E : (ns - 0) / (1 - 0) == ns) by field.
    revert E. generalize ((ns - 0) / (1 - 0)). intros q E. lra. }
  revert Hm. generalize ((ns - 0) / (1 - 0) * (1.2 - 0.8) + 0.8).
  intros m Hm.
  assert (Hd : -1.5 * sf <=
    (ny - 0) / (1 - 0) * (1.5 * sf - -1.5 * sf) + -1.5 * sf <= 1.5 * sf).
  { assert (E : (ny - 0) / (1 - 0) == ny) by field.
    revert E. generalize ((ny - 0) / (1 - 0)). intros q E. split; nra. }
  revert Hd.
  generalize ((ny - 0) / (1 - 0) * (1.5 * sf - -1.5 * sf) + -1.5 * sf).
  intros dy Hd.
  assert (Hwm : 0 <= w * m) by nra.
  split; [| split].
  - intros Hpos. apply Qgtb_gt in Hpos as Hb. rewrite Hb. split; lra.
  - intros Hneg. assert (Hb : Qgtb (FishEntity.vx e) 0 = false)
      by (apply Qgtb_le; lra).
    rewrite Hb. split; lra.
  - intros Hv. split; lra.
Qed.

(** ** Hand input *)

Lemma followPoint_player p point s :
  let targetX :=
    map_within (1 - Point.x point) 0.1 (1 - 0.1) 0 (P5.width p) in
  let targetY := map_within (Point.y point) 0.1 (1 - 0.1) 0 (P5.height p) in
  let x' := P5.lerp (FishEntity.x (player s)) targetX 0.2 in
  let y' := P5.lerp (FishEntity.y (player s)) targetY 0.2 in
  let vx' := x' - FishEntity.x (player s) in
  let vy' := y' - FishEntity.y (player s) in
  exec (followPoint p point) s =
  set_player s
    (FishEntity.mk (FishEntity.id (player s)) x' y'
       (FishEntity.size (player s)) vx' vy' (FishEntity.color (player s))
       (P5.dist p 0 0 vx' vy') (FishEntity.noiseOffset (player s))
       (FishEntity.variant (player s))).
Proof. reflexivity. Qed.

Lemma map_within_range n start1 stop1 hi :
  0 <= hi ->
  0 <= map_within n start1 stop1 0 hi /\ map_within n start1 stop1 0 hi <= hi.
Proof.
  intros H. unfold map_within. cbv zeta.
  destruct (Qltb 0 hi) eqn:E.
  - apply constrain_bounds. exact H.
  - apply Qltb_ge in E.
    destruct (constrain_bounds (P5.map n start1 stop1 0 hi) hi 0 E). lra.
Qed.

(** The frames that [handleHandInput] lets pass without touching any
    ref: no landmarker yet, no video element, a video without data or
    dimensions, or the video frame that was seen last. *)
Lemma handleHandInput_idle p now cam t :
  handLandmarkerRef cam = None \/ videoRef cam = None \/
  (exists video, videoRef cam = Some video /\
     (notReady video = true \/
      Video.currentTime video == lastVideoTime t)) ->
  handleHandInput p now cam t = t.
Proof.
  unfold handleHandInput. intros [H | [H | (video & H & G)]].
  - rewrite H. reflexivity.
  - rewrite H. destruct (handLandmarkerRef cam); reflexivity.
  - rewrite H. destruct (handLandmarkerRef cam); [| reflexivity].
    destruct G as [G | G].
    + rewrite G. reflexivity.
    + apply Qeq_bool_iff in G. rewrite G.
      destruct (notReady video); reflexivity.
Qed.

(** On a new frame of a ready video [lastVideoTime] is written, whatever
    the detection does next; the game is left as it is or the player
    follows landmark 9 of the first hand. *)
Lemma handleHandInput_fresh p now cam t handLandmarker video :
  handLandmarkerRef cam = Some handLandmarker ->
  videoRef cam = Some video ->
  notReady video = false ->
  ~ Video.currentTime video == lastVideoTime t ->
  let t' := handleHandInput p now cam t in
  lastVideoTime t' = Video.currentTime video /\
  game t' =
    match HandLandmarker.detectForVideo handLandmarker video now with
    | Results (Some (landmarks :: _)) =>
        match landmarks !! 9%nat with
        | Some point => exec (followPoint p point) (game t)
        | None => game t
        end
    | _ => game t
    end.
Proof.
  intros Hl Hv Hr Hc. unfold handleHandInput. rewrite Hl, Hv, Hr.
  destruct (Qeq_bool (Video.currentTime video) (lastVideoTime t)) eqn:E.
  { apply Qeq_bool_iff in E. contradiction. }
  cbv zeta.
  destruct (HandLandmarker.detectForVideo handLandmarker video now)
    as [| [[| landmarks rest] |]]; try (split; reflexivity).
  destruct (landmarks !! 9%nat); split; reflexivity.
Qed.

(** Every call leaves the game as it is or makes the player follow one
    point. *)
Lemma handleHandInput_game p now cam t :
  game (handleHandInput p now cam t) = game t \/
  exists point,
    game (handleHandInput p now cam t) = exec (followPoint p point) (game t).
Proof.
  destruct (handLandmarkerRef cam) as [handLandmarker |] eqn:Hl;
    [| left; rewrite handleHandInput_idle by (left; exact Hl); reflexivity].
  destruct (videoRef cam) as [video |] eqn:Hv;
    [| left; rewrite handleHandInput_idle by (right; left; exact Hv);
       reflexivity].
  destruct (notReady video) eqn:Hr.
  { left. rewrite handleHandInput_idle; [reflexivity |].
    right. right. exists video. split; [exact Hv | left; exact Hr]. }
  destruct (Qeq_dec (Video.currentTime video) (lastVideoTime t)) as [Hc | Hc].
  { left. rewrite handleHandInput_idle; [reflexivity |].
    right. right. exists video. split; [exact Hv | right; exact Hc]. }
  destruct (handleHandInput_fresh p now cam t handLandmarker video
              Hl Hv Hr Hc) as (_ & E).
  rewrite E.
  destruct (HandLandmarker.detectForVideo handLandmarker video now)
    as [| [[| landmarks rest] |]]; try (left; reflexivity).
  destruct (landmarks !! 9%nat) as [point |]; [right | left; reflexivity].
  exists point. reflexivity.
Qed.

(** A video frame is processed once: a second call on the same frame
    changes nothing. *)
Lemma handleHandInput_once p now now' cam t :
  handleHandInput p now' cam (handleHandInput p now cam t) =
  handleHandInput p now cam t.
Proof.
  destruct (handLandmarkerRef cam) as [handLandmarker |] eqn:Hl;
    [| apply handleHandInput_idle; left; exact Hl].
  destruct (videoRef cam) as [video |] eqn:Hv;
    [| apply handleHandInput_idle; right; left; exact Hv].
  apply handleHandInput_idle. right. right. exists video.
  split; [exact Hv |].
  destruct (notReady video) eqn:Hr; [left; reflexivity | right].
  destruct (Qeq_dec (Video.currentTime video) (lastVideoTime t)) as [Hc | Hc].
  - rewrite handleHandInput_idle; [exact Hc |].
    right. right. exists video. split; [exact Hv | right; exact Hc].
  - destruct (handleHandInput_fresh p now cam t handLandmarker video
                Hl Hv Hr Hc) as (E & _).
    rewrite E. reflexivity.
Qed.

(** X14. Hand input keeps the player on the canvas: on a canvas with
    non-negative sides, a player inside [[0, width] x [0, height]] is
    still inside after [handleHandInput], whatever the landmarker and the
    video hold and whatever the detection returns or throws; the player's
    size, color and variant are untouched, as is every other ref of the
    game.  [lastVideoTime] takes the current time of the video whenever
    the landmarker and the video are there, the video has data and
    dimensions and its current time differs from [lastVideoTime], whether
    or not a hand is found then; in every other case no ref changes at
    all. *)
Theorem hand_keeps_player_on_canvas (p : P5.t) (now : Q) (cam : Camera)
  (t : Tracking) :
  0 <= P5.width p -> 0 <= P5.height p ->
  0 <= FishEntity.x (player (game t)) <= P5.width p ->
  0 <= FishEntity.y (player (game t)) <= P5.height p ->
  let t' := handleHandInput p now cam t in
  let s := game t in
  let s' := game t' in
  0 <= FishEntity.x (player s') <= P5.width p /\
  0 <= FishEntity.y (player s') <= P5.height p /\
  FishEntity.size (player s') = FishEntity.size (player s) /\
  FishEntity.color (player s') = FishEntity.color (player s) /\
  FishEntity.variant (player s') = FishEntity.variant (player s) /\
  set_player s' (player s) = s /\
  (forall handLandmarker video,
     handLandmarkerRef cam = Some handLandmarker ->
     videoRef cam = Some video ->
     notReady video = false ->
     ~ Video.currentTime video == lastVideoTime t ->
     lastVideoTime t' = Video.currentTime video) /\
  (handLandmarkerRef cam = None \/ videoRef cam = None \/
   (exists video, videoRef cam = Some video /\
      (notReady video = true \/
       Video.currentTime video == lastVideoTime t)) ->
   t' = t).
Proof.
  intros Hw Hh Hx Hy t' s s'.
  assert (Hgame :
    0 <= FishEntity.x (player s') <= P5.width p /\
    0 <= FishEntity.y (player s') <= P5.height p /\
    FishEntity.size (player s') = FishEntity.size (player s) /\
    FishEntity.color (player s') = FishEntity.color (player s) /\
    FishEntity.variant (player s') = FishEntity.variant (player s) /\
    set_player s' (player s) = s).
  { subst s'. subst t'.
    destruct (handleHandInput_game p now cam t) as [E | (point & E)];
      rewrite E; fold s.
    - split; [exact Hx |]. split; [exact Hy |].
      repeat (split; [reflexivity |]). destruct s; reflexivity.
    - rewrite followPoint_player. cbv zeta. proj.
      destruct (map_within_range (1 - Point.x point) 0.1 (1 - 0.1)
                  (P5.width p) Hw) as (X0 & X1).
      destruct (map_within_range (Point.y point) 0.1 (1 - 0.1)
                  (P5.height p) Hh) as (Y0 & Y1).
      revert X0 X1 Y0 Y1.
      generalize
        (map_within (1 - Point.x point) 0.1 (1 - 0.1) 0 (P5.width p)).
      generalize (map_within (Point.y point) 0.1 (1 - 0.1) 0 (P5.height p)).
      intros ty tx X0 X1 Y0 Y1. unfold P5.lerp. fold s in Hx, Hy.
      split; [split; lra |]. split; [split; lra |].
      repeat (split; [reflexivity |]). destruct s; reflexivity. }
  destruct Hgame as (G1 & G2 & G3 & G4 & G5 & G6).
  repeat (split; [assumption |]). split.
  - intros handLandmarker video Hl Hv Hr Hc.
    apply (handleHandInput_fresh p now cam t handLandmarker video
             Hl Hv Hr Hc).
  - apply handleHandInput_idle.
Qed.

(** X15. The hand is mirrored and read through a margin of one tenth.
    Take a frame on which the player follows a point: landmarker and
    video are there, the video has data and dimensions and shows a new
    frame, and the detection returns at least one hand, [point] being
    landmark 9 of the first.  On a canvas of positive width, a point at
    camera abscissa [x] between 0.1 and 0.9 pulls the player a fifth of
    the way towards the canvas abscissa [(0.9 - x) / 0.8 * width]; at or
    below 0.1 it pulls towards the right edge, at or above 0.9 towards the
    left edge.  The velocity recorded for the player is the displacement
    of this frame. *)
Theorem hand_is_mirrored (p : P5.t) (now : Q) (cam : Camera) (t : Tracking)
  (handLandmarker : HandLandmarker.t) (video : Video.t)
  (landmarks : list Point.t) (others : list (list Point.t))
  (point : Point.t) :
  0 < P5.width p ->
  handLandmarkerRef cam = Some handLandmarker ->
  videoRef cam = Some video ->
  notReady video = false ->
  ~ Video.currentTime video == lastVideoTime t ->
  HandLandmarker.detectForVideo handLandmarker video now =
    Results (Some (landmarks :: others)) ->
  landmarks !! 9%nat = Some point ->
  let s := game t in
  let s' := game (handleHandInput p now cam t) in
  let x := FishEntity.x (player s) in
  let x' := FishEntity.x (player s') in
  (Point.x point <= 0.1 -> x' == x + 0.2 * (P5.width p - x)) /\
  (0.9 <= Point.x point -> x' == x + 0.2 * (0 - x)) /\
  (0.1 <= Point.x point <= 0.9 ->
   x' == x + 0.2 * ((0.9 - Point.x point) / 0.8 * P5.width p - x)) /\
  FishEntity.vx (player s') = x' - x /\
  FishEntity.vy (player s') =
    FishEntity.y (player s') - FishEntity.y (player s).
Proof.
  intros Hw Hl Hv Hr Hc Hd H9 s s' x x'. subst s' x x'.
  destruct (handleHandInput_fresh p now cam t handLandmarker video
              Hl Hv Hr Hc) as (_ & E).
  rewrite Hd, H9 in E. rewrite E. clear E. fold s.
  rewrite followPoint_player.
  cbv zeta. proj.
  split; [| split; [| split; [| split; reflexivity]]].
  all: intros Hp; unfold P5.lerp, map_within; cbv zeta;
    apply Qltb_lt in Hw as Hb; rewrite Hb;
    unfold P5.constrain, P5.map, Math_max, Math_min.
  all: assert (E : (1 - Point.x point - 0.1) / (1 - 0.1 - 0.1) * (P5.width p - 0) + 0
              == (0.9 - Point.x point) / 0.8 * P5.width p) by field.
  all: rewrite E; clear E.
  all: assert (D : (0.9 - Point.x point) / 0.8 * P5.width p
              == (0.9 - Point.x point) * P5.width p * (10 # 8)) by field.
  all: revert D; generalize ((0.9 - Point.x point) / 0.8 * P5.width p);
    intros tx D.
  - assert (T : P5.width p <= tx) by nra.
    rewrite (Q.min_r tx (P5.width p)) by exact T.
    rewrite Q.max_l by lra. lra.
  - assert (T : tx <= 0) by nra.
    rewrite (Q.min_l tx (P5.width p)) by lra.
    rewrite Q.max_r by exact T. lra.
  - assert (T : 0 <= tx <= P5.width p) by (split; nra).
    rewrite (Q.min_l tx (P5.width p)) by lra.
    rewrite Q.max_l by lra. lra.
Qed.

(** ** Audio *)

(** X16. The water noise follows the player's speed within fixed bounds:
    at a positive scale factor the filter frequency asked for lies in
    [[200, 1200]] and the gain in [[0.05, 0.25]], both rising with the
    speed; a player at rest gets the lower ends and a player at
    [25 * sf] or faster the upper ends. *)
Theorem audio_targets_bounded (s : Session) :
  0 < scaleFactor s ->
  let speed := FishEntity.speed (player s) in
  let freq := fst (updateAudioDynamics s) in
  let gain := snd (updateAudioDynamics s) in
  200 <= freq <= 1200 /\ 0.05 <= gain <= 0.25 /\
  (speed <= 0 -> freq == 200 /\ gain == 0.05) /\
  (25 * scaleFactor s <= speed -> freq == 1200 /\ gain == 0.25) /\
  (0 <= speed <= 25 * scaleFactor s ->
   freq == 200 + 40 * (speed / scaleFactor s) /\
   gain == 0.05 + 0.008 * (speed / scaleFactor s)).
Proof.
  intros Hsf speed freq gain. subst speed freq gain.
  unfold updateAudioDynamics. cbv zeta. cbn [fst snd].
  assert (Hr : FishEntity.speed (player s) / scaleFactor s * scaleFactor s
               == FishEntity.speed (player s))
    by (field; lra).
  revert Hr. generalize (FishEntity.speed (player s) / scaleFactor s).
  intros r Hr.
  destruct (constrain_bounds r 0 25) as (C0 & C1); [lra |].
  assert (Clo : r <= 0 -> P5.constrain r 0 25 == 0).
  { intros H. unfold P5.constrain, Math_max, Math_min.
    rewrite Q.max_r; [reflexivity |].
    apply Qle_trans with r; [apply Q.le_min_l | exact H]. }
  assert (Chi : 25 <= r -> P5.constrain r 0 25 == 25).
  { intros H. unfold P5.constrain, Math_max, Math_min.
    rewrite (Q.min_r r 25) by exact H. apply Q.max_l. lra. }
  assert (Cmid : 0 <= r <= 25 -> P5.constrain r 0 25 == r).
  { intros H. unfold P5.constrain, Math_max, Math_min.
    rewrite (Q.min_l r 25) by lra. apply Q.max_l. lra. }
  revert C0 C1 Clo Chi Cmid. generalize (P5.constrain r 0 25).
  intros c C0 C1 Clo Chi Cmid. unfold P5.map.
  assert (Ef : (c - 0) / (25 - 0) * (1200 - 200) + 200 == 200 + 40 * c)
    by field.
  assert (Eg : (c - 0) / (25 - 0) * (0.25 - 0.05) + 0.05 == 0.05 + 0.008 * c)
    by field.
  rewrite Ef, Eg.
  split; [lra |]. split; [lra |]. split; [| split].
  - intros H. assert (r <= 0) by nra. rewrite (Clo H0). split; lra.
  - intros H. assert (25 <= r) by nra. rewrite (Chi H0). split; lra.
  - intros H. assert (0 <= r <= 25) by (split; nra).
    rewrite (Cmid H0). split; lra.
Qed.

(** ** The scene: reset, setup, resize and the water atmosphere *)

#[export] Instance same_but_draws_preorder : PreOrder same_but_draws.
Proof.
  split.
  - intros s. unfold same_but_draws. destruct s. reflexivity.
  - intros s1 s2 s3 H12 H23. unfold same_but_draws in *.
    rewrite <- H12 at 2. rewrite <- H23. destruct s3. reflexivity.
Qed.

Lemma random_same_but_draws p : preserves same_but_draws (random p).
Proof. intros s. unfold same_but_draws. destruct s. reflexivity. Qed.

Lemma random_max_same_but_draws p a :
  preserves same_but_draws (random_max p a).
Proof. intros s. unfold same_but_draws. destruct s. reflexivity. Qed.

Lemma random_between_same_but_draws p a b :
  preserves same_but_draws (random_between p a b).
Proof. intros s. unfold same_but_draws. destruct s. reflexivity. Qed.

Lemma seed_same_but_draws n one :
  preserves same_but_draws one -> preserves same_but_draws (seed n one).
Proof.
  intros H. induction n as [| n IH]; simpl; walk; assumption.
Qed.

Lemma seed_length n one s : length (fst (seed n one s)) = n.
Proof.
  revert s. induction n as [| n IH]; intros s; simpl; [reflexivity |].
  unfold bind, ret. cbn [fst snd length]. rewrite IH. reflexivity.
Qed.

Lemma planktonSeed_same_but_draws p sf :
  preserves same_but_draws (planktonSeed p sf).
Proof.
  unfold planktonSeed.
  walk; first [ apply random_max_same_but_draws
              | apply random_between_same_but_draws ].
Qed.

Lemma bubbleSeed_same_but_draws p sf :
  preserves same_but_draws (bubbleSeed p sf).
Proof.
  unfold bubbleSeed.
  walk; first [ apply random_max_same_but_draws
              | apply random_between_same_but_draws ].
Qed.

Lemma same_but_draws_fields s s' :
  same_but_draws s s' ->
  scaleFactor s' = scaleFactor s /\ player s' = player s /\
  enemies s' = enemies s /\ particles s' = particles s /\
  shockwaves s' = shockwaves s /\ scoreRef s' = scoreRef s /\
  lastSpawnTime s' = lastSpawnTime s /\
  dangerIntensity s' = dangerIntensity s /\
  playerHealth s' = playerHealth s /\ invulnTimer s' = invulnTimer s /\
  screenShake s' = screenShake s /\
  damageEffectVal s' = damageEffectVal s /\ calls s' = calls s.
Proof.
  unfold same_but_draws. intros H. rewrite <- H. destruct s'. cbn.
  repeat split; reflexivity.
Qed.

Lemma bind_modify {B : Type} (f : Session -> Session) (k : unit -> M B) s :
  bind (modify f) k s = k tt (f s).
Proof. reflexivity. Qed.

Lemma resetGame_core_exec p sf s :
  exec (resetGame_core p sf) s =
  mkSession (scaleFactor s)
    (FishEntity.mk (FishEntity.id (player s)) (P5.width p / 2)
       (P5.height p / 2) (20 * sf) 0 0 (FishEntity.color (player s)) 0
       (FishEntity.noiseOffset (player s)) (FishEntity.variant (player s)))
    [] [] [] 0%Z (P5.millis p) (dangerIntensity s) maxHealth 0 0 0
    (randomCount s) (mathRandomCount s) (SetScore 0 :: calls s).
Proof.
  destruct s as [sf0 pl es ps sws sc lst di ph it ss dev rc mrc cs].
  destruct pl as [pid px py psz pvx pvy pc psp pn pv].
  reflexivity.
Qed.

Lemma resetGame_shape p sc :
  resetGame p sc =
  let sf := scaleFactor (refs sc) in
  let s0 := exec (resetGame_core p sf) (refs sc) in
  let r1 := seed 60 (planktonSeed p sf) s0 in
  let r2 := seed 15 (bubbleSeed p sf) (snd r1) in
  mkScene (snd r2) (fst r1) (fst r2).
Proof.
  unfold resetGame, resetGame_refs, exec.
  unfold bind, get, ret. cbv beta zeta iota delta [fst snd].
  generalize (seed 60 (planktonSeed p (scaleFactor (refs sc)))).
  generalize (seed 15 (bubbleSeed p (scaleFactor (refs sc)))).
  intros m15 m60. reflexivity.
Qed.

Lemma resetGame_fields p sc :
  let s := refs sc in
  let sc' := resetGame p sc in
  let s' := refs sc' in
  scaleFactor s' = scaleFactor s /\
  player s' =
    FishEntity.mk (FishEntity.id (player s)) (P5.width p / 2)
      (P5.height p / 2) (20 * scaleFactor s) 0 0
      (FishEntity.color (player s)) 0 (FishEntity.noiseOffset (player s))
      (FishEntity.variant (player s)) /\
  enemies s' = [] /\ particles s' = [] /\ shockwaves s' = [] /\
  scoreRef s' = 0%Z /\ lastSpawnTime s' = P5.millis p /\
  dangerIntensity s' = dangerIntensity s /\
  playerHealth s' = 100 /\ invulnTimer s' = 0 /\ screenShake s' = 0 /\
  damageEffectVal s' = 0 /\ calls s' = SetScore 0 :: calls s /\
  length (plankton sc') = 60%nat /\ length (bubbles sc') = 15%nat.
Proof.
  intros s sc' s'. subst sc' s'. rewrite resetGame_shape. cbv zeta.
  cbn [refs plankton bubbles]. fold s.
  rewrite resetGame_core_exec.
  set (sf := scaleFactor s).
  set (s0 := mkSession _ _ _ _ _ _ _ _ _ _ _ _ _ _ _).
  pose proof (seed_same_but_draws 60 _
                (planktonSeed_same_but_draws p sf) s0) as H1.
  pose proof (seed_length 60 (planktonSeed p sf) s0) as L1.
  revert H1 L1. generalize (seed 60 (planktonSeed p sf) s0).
  intros [pl s1] H1 L1. cbn [fst snd] in *.
  pose proof (seed_same_but_draws 15 _
                (bubbleSeed_same_but_draws p sf) s1) as H2.
  pose proof (seed_length 15 (bubbleSeed p sf) s1) as L2.
  revert H2 L2. generalize (seed 15 (bubbleSeed p sf) s1).
  intros [bs s2] H2 L2. cbn [fst snd] in *.
  apply same_but_draws_fields in H2
    as (F1 & F2 & F3 & F4 & F5 & F6 & F7 & F8 & F9 & F10 & F11 & F12 & F13).
  apply same_but_draws_fields in H1
    as (G1 & G2 & G3 & G4 & G5 & G6 & G7 & G8 & G9 & G10 & G11 & G12 & G13).
  subst s0. cbn [scaleFactor player enemies particles shockwaves scoreRef
    lastSpawnTime dangerIntensity playerHealth invulnTimer screenShake
    damageEffectVal calls] in *.
  cbn [refs plankton bubbles fst snd]. unfold maxHealth in *.
  repeat (split; [congruence |]). exact L2.
Qed.

(** X17. On a canvas with positive sides [p.setup] starts the game in a
    sound state: the scale factor is [min (width, height) / 800] and
    positive, the player sits in the middle with size [20 * sf], above
    the [10 * sf] floor of prey sizes, health is at the cap of 100, the
    score and all timers are 0, there are no enemies, particles or
    shockwaves, and the scene holds 60 plankton and 15 bubbles. *)
Theorem setup_starts_sound (p : P5.t) (sc : Scene) :
  0 < P5.width p -> 0 < P5.height p ->
  let sc' := setup p sc in
  let s' := refs sc' in
  scaleFactor s' = Math_min (P5.width p) (P5.height p) / 800 /\
  thriving s' /\
  FishEntity.x (player s') = P5.width p / 2 /\
  FishEntity.y (player s') = P5.height p / 2 /\
  FishEntity.size (player s') = 20 * scaleFactor s' /\
  10 * scaleFactor s' < FishEntity.size (player s') /\
  playerHealth s' = 100 /\ scoreRef s' = 0%Z /\
  invulnTimer s' = 0 /\ screenShake s' = 0 /\ damageEffectVal s' = 0 /\
  lastSpawnTime s' = P5.millis p /\
  enemies s' = [] /\ particles s' = [] /\ shockwaves s' = [] /\
  length (plankton sc') = 60%nat /\ length (bubbles sc') = 15%nat.
Proof.
  intros Hw Hh sc' s'. subst s' sc'. unfold setup.
  set (sc1 := mkScene _ _ _).
  destruct (resetGame_fields p sc1)
    as (Esf & Ep & Een & Eps & Esw & Esc & El & _ & Eh & Et & Ess & Ed & _
        & Lp & Lb).
  cbv zeta in *.
  assert (E1 : scaleFactor (refs sc1) =
               Math_min (P5.width p) (P5.height p) / 800) by reflexivity.
  assert (Hpos : 0 < Math_min (P5.width p) (P5.height p) / 800).
  { apply Qlt_shift_div_l; [reflexivity |]. unfold Math_min.
    apply Q.min_glb_lt; lra. }
  revert Esf Ep Een Eps Esw Esc El Eh Et Ess Ed Lp Lb.
  generalize (resetGame p sc1). intros sc2.
  intros Esf Ep Een Eps Esw Esc El Eh Et Ess Ed Lp Lb.
  rewrite E1 in *. rewrite Esf, Ep, Een, Eps, Esw, Esc, El, Eh, Et, Ess, Ed.
  cbn [FishEntity.x FishEntity.y FishEntity.size].
  unfold thriving. rewrite Esf, Ep, Een. cbn [FishEntity.size].
  split; [reflexivity |].
  split; [split; [exact Hpos | split; [lra | constructor]] |].
  repeat (split; [first [reflexivity | lra | assumption] |]). assumption.
Qed.

(** X18. [resetGame] forgets the previous game: two scenes that agree on
    the scale factor, on the identity and color of the player, on the
    danger level, on the positions in the random streams and on the log
    are reset to the same scene, whatever their players' positions,
    sizes, health, timers, scores, enemies and effects were.  The danger
    level is the one game quantity that a reset carries over. *)
Theorem reset_forgets_previous_game (p : P5.t) (a b : Scene) :
  scaleFactor (refs a) = scaleFactor (refs b) ->
  FishEntity.id (player (refs a)) = FishEntity.id (player (refs b)) ->
  FishEntity.color (player (refs a)) = FishEntity.color (player (refs b)) ->
  FishEntity.noiseOffset (player (refs a)) =
    FishEntity.noiseOffset (player (refs b)) ->
  FishEntity.variant (player (refs a)) =
    FishEntity.variant (player (refs b)) ->
  dangerIntensity (refs a) = dangerIntensity (refs b) ->
  randomCount (refs a) = randomCount (refs b) ->
  mathRandomCount (refs a) = mathRandomCount (refs b) ->
  calls (refs a) = calls (refs b) ->
  resetGame p a = resetGame p b /\
  dangerIntensity (refs (resetGame p a)) = dangerIntensity (refs a).
Proof.
  intros Esf Eid Ec En Ev Ed Er Em Ecs. split.
  - rewrite !resetGame_shape. cbv zeta. rewrite !resetGame_core_exec.
    rewrite Esf, Eid, Ec, En, Ev, Ed, Er, Em, Ecs. reflexivity.
  - destruct (resetGame_fields p a) as (_ & _ & _ & _ & _ & _ & _ & E & _).
    exact E.
Qed.

Lemma windowResized_keeps p sc :
  plankton sc <> [] ->
  windowResized p sc =
  mkScene
    (set_scaleFactor (refs sc) (Math_min (P5.width p) (P5.height p) / 800))
    (plankton sc) (bubbles sc).
Proof.
  intros H. unfold windowResized. cbv zeta. cbn [plankton].
  destruct (plankton sc) as [| pt l]; [contradiction |]. reflexivity.
Qed.

(** X19. Resizing the window never restarts a game that [p.setup] has
    started: the plankton list is not empty, so [p.windowResized] only
    replaces the scale factor.  Player, enemies, score and health are
    kept, and the player's size stays 20 times the scale factor of the
    setup. *)
Theorem resize_keeps_game (p0 p : P5.t) (sc0 : Scene) :
  let sc := setup p0 sc0 in
  let sc' := windowResized p sc in
  sc' =
    mkScene
      (set_scaleFactor (refs sc)
         (Math_min (P5.width p) (P5.height p) / 800))
      (plankton sc) (bubbles sc) /\
  FishEntity.size (player (refs sc')) = 20 * scaleFactor (refs sc) /\
  scaleFactor (refs sc') = Math_min (P5.width p) (P5.height p) / 800.
Proof.
  intros sc.
  destruct (resetGame_fields p0
    (mkScene (exec (updateScaleFactor p0) (refs sc0)) (plankton sc0)
       (bubbles sc0))) as (Esf & Ep & _ & _ & _ & _ & _ & _ & _ & _ & _ & _
                           & _ & L & _).
  cbv zeta in Esf, Ep, L.
  change (resetGame p0 _) with sc in Esf, Ep, L.
  assert (Hsize : FishEntity.size (player (refs sc)) =
                  20 * scaleFactor (refs sc))
    by (rewrite Esf, Ep; reflexivity).
  clear Esf Ep. clearbody sc. intros sc'. subst sc'.
  assert (Hne : plankton sc <> [])
    by (intros E; rewrite E in L; discriminate).
  rewrite (windowResized_keeps p sc Hne). cbn [refs].
  split; [reflexivity |]. split; [| reflexivity].
  destruct sc as [s pl bs]. destruct s. exact Hsize.
Qed.

Lemma forEach_length {A : Type} (f : A -> M A) (l : list A) s :
  length (fst (forEach f l s)) = length l.
Proof.
  revert s. induction l as [| a l IH]; intros s; simpl; [reflexivity |].
  unfold bind, ret. cbn [fst snd length]. rewrite IH. reflexivity.
Qed.

Lemma forEach_Forall {A : Type} (f : A -> M A) (P : A -> Prop) (l : list A) :
  (forall a s, P (fst (f a s))) ->
  forall s, Forall P (fst (forEach f l s)).
Proof.
  intros H. induction l as [| a l IH]; intros s; simpl.
  - constructor.
  - unfold bind, ret. cbn [fst snd]. constructor; [apply H | apply IH].
Qed.

Lemma forEach_same_but_draws {A : Type} (f : A -> M A) (l : list A) :
  (forall a, preserves same_but_draws (f a)) ->
  preserves same_but_draws (forEach f l).
Proof.
  intros H. induction l as [| a l IH]; simpl; walk; [apply H | exact IH].
Qed.

Lemma rise_same_but_draws p sf b : preserves same_but_draws (rise p sf b).
Proof.
  unfold rise. cbv zeta. destruct (Qltb _ (-50)); walk.
  apply random_max_same_but_draws.
Qed.

(** X20. The water atmosphere stays in view.  On a canvas with
    non-negative sides, after [drawWaterAtmosphere] every plankton lies
    inside [[0, width] x [0, height]], wherever it was before, and every
    bubble is at most 50 above the top edge; no plankton or bubble is
    added or lost, and the game's refs are untouched apart from the
    position in the stream of draws. *)
Theorem atmosphere_stays_in_view (p : P5.t) (sc : Scene) :
  0 <= P5.width p -> 0 <= P5.height p ->
  let sc' := drawWaterAtmosphere p sc in
  Forall (fun pt => 0 <= Particle.x pt <= P5.width p /\
                    0 <= Particle.y pt <= P5.height p) (plankton sc') /\
  Forall (fun b => -50 <= Particle.y b) (bubbles sc') /\
  length (plankton sc') = length (plankton sc) /\
  length (bubbles sc') = length (bubbles sc) /\
  same_but_draws (refs sc) (refs sc').
Proof.
  intros Hw Hh sc'. subst sc'. unfold drawWaterAtmosphere. cbv zeta.
  cbn [refs plankton bubbles].
  split; [| split; [| split; [| split]]].
  - apply Forall_forall. intros pt Hin. apply list_elem_of_In in Hin.
    apply in_map_iff in Hin as (pt0 & <- & _).
    unfold sway. cbv zeta. cbn [Particle.x Particle.y].
    generalize (Particle.x pt0 +
      P5.cos p (P5.millis p * 0.0005 + Particle.y pt0 * 0.01) * 0.2 *
      scaleFactor (refs sc)).
    intros x.
    generalize (Particle.y pt0 +
      P5.sin p (P5.millis p * 0.0005 + x * 0.01) * 0.2 *
      scaleFactor (refs sc)).
    intros y. split.
    + destruct (Qltb x 0) eqn:E1.
      * destruct (Qgtb (P5.width p) (P5.width p)) eqn:E2;
          [apply Qgtb_gt in E2; lra | lra].
      * apply Qltb_ge in E1. destruct (Qgtb x (P5.width p)) eqn:E2;
          [lra | apply Qgtb_le in E2; lra].
    + destruct (Qltb y 0) eqn:E1.
      * destruct (Qgtb (P5.height p) (P5.height p)) eqn:E2;
          [apply Qgtb_gt in E2; lra | lra].
      * apply Qltb_ge in E1. destruct (Qgtb y (P5.height p)) eqn:E2;
          [lra | apply Qgtb_le in E2; lra].
  - apply forEach_Forall. intros b s. unfold rise. cbv zeta.
    destruct (Qltb _ (-50)) eqn:E.
    + unfold bind, random_max, random, ret. cbn [fst snd Particle.y]. lra.
    + apply Qltb_ge in E. unfold ret. cbn [fst Particle.y]. exact E.
  - apply length_map.
  - apply forEach_length.
  - apply forEach_same_but_draws. intros b. apply rise_same_but_draws.
Qed.

(** ** App.tsx: survival time and high scores *)

(** X21. The survival time shown at game over reads back the whole
    seconds survived: for a non-negative duration it shows seconds alone
    only under one minute, and otherwise at least one minute together
    with a number of seconds between 0 and 59; in both cases the duration
    lies within one second above the time shown. *)
Theorem survival_time_reads_back (duration : Z) :
  (0 <= duration)%Z ->
  match formattedTime duration with
  | Seconds s =>
      (0 <= s < 60)%Z /\ (1000 * s <= duration < 1000 * (s + 1))%Z
  | MinutesSeconds m s =>
      (1 <= m)%Z /\ (0 <= s < 60)%Z /\
      (1000 * (60 * m + s) <= duration < 1000 * (60 * m + s + 1))%Z
  end.
Proof.
  intros H. unfold formattedTime. cbv zeta.
  set (seconds := (duration / 1000)%Z).
  assert (Hs : (0 <= seconds)%Z) by (apply Z.div_pos; lia).
  assert (Hd : (1000 * seconds <= duration < 1000 * (seconds + 1))%Z).
  { subst seconds. pose proof (Z.div_mod duration 1000 ltac:(lia)).
    pose proof (Z.mod_pos_bound duration 1000 ltac:(lia)). lia. }
  pose proof (Z.div_mod seconds 60 ltac:(lia)) as Hdm.
  pose proof (Z.mod_pos_bound seconds 60 ltac:(lia)) as Hb.
  destruct (0 <? seconds / 60)%Z eqn:E.
  - apply Z.ltb_lt in E. rewrite Z.rem_mod_nonneg by lia.
    split; [lia |]. split; [lia |]. lia.
  - apply Z.ltb_ge in E.
    assert (seconds / 60 = 0)%Z by (pose proof (Z.div_pos seconds 60); lia).
    split; lia.
Qed.

(** Inserting an entry adds it and nothing else. *)
Lemma insertScore_In a l x :
  In x (insertScore a l) <-> x = a \/ In x l.
Proof.
  induction l as [| b l IH]; simpl.
  - intuition.
  - destruct (_ <=? 0)%Z; simpl; [intuition |]. rewrite IH. intuition.
Qed.

Lemma insertScore_head a b l :
  (HighScore.score b <= HighScore.score a)%Z ->
  insertScore a (b :: l) = a :: b :: l.
Proof.
  intros H. simpl.
  destruct (HighScore.score b - HighScore.score a <=? 0)%Z eqn:E;
    [reflexivity |].
  apply Z.leb_gt in E. lia.
Qed.

Lemma insertScore_ranked a l : ranked l -> ranked (insertScore a l).
Proof.
  unfold ranked. intros H. induction H as [| b l Hl IH Hb]; simpl.
  - repeat constructor.
  - destruct (HighScore.score b - HighScore.score a <=? 0)%Z eqn:E.
    + apply Z.leb_le in E. constructor; [constructor; assumption |].
      constructor; [lia |].
      rewrite List.Forall_forall in *. intros x Hx. specialize (Hb x Hx). lia.
    + apply Z.leb_gt in E. constructor; [exact IH |].
      rewrite List.Forall_forall in *. intros x Hx.
      apply insertScore_In in Hx as [-> | Hx]; [lia | apply Hb, Hx].
Qed.

Lemma sortScores_ranked l : ranked (sortScores l).
Proof.
  unfold sortScores. induction l as [| a l IH]; simpl.
  - constructor.
  - apply insertScore_ranked, IH.
Qed.

Lemma sortScores_In l x : In x (sortScores l) <-> In x l.
Proof.
  unfold sortScores. induction l as [| a l IH]; simpl; [reflexivity |].
  rewrite insertScore_In, IH. intuition.
Qed.

Lemma ranked_take n l : ranked l -> ranked (take n l).
Proof.
  unfold ranked. intros H. revert n.
  induction H as [| b l Hl IH Hb]; intros [| n]; simpl; try constructor.
  - apply IH.
  - rewrite List.Forall_forall in *. intros x Hx. apply Hb.
    apply list_elem_of_In. apply list_elem_of_In in Hx.
    apply elem_of_take in Hx as (i & Hi & _).
    eapply list_elem_of_lookup_2, Hi.
Qed.

(** X22. The high-score board is always ranked: whatever the previous
    board, the saved board holds at most five entries, in descending
    order of score, and each of them is the new entry or an entry of the
    previous board. *)
Theorem high_scores_ranked (prev : list HighScore.t) (score : Z)
  (date : String.string) :
  let board := saveScore prev score date in
  (length board <= 5)%nat /\
  ranked board /\
  (forall h, In h board -> h = HighScore.mk score date \/ In h prev).
Proof.
  intros board. subst board. unfold saveScore. cbv zeta.
  split; [rewrite length_take; lia |].
  split; [apply ranked_take, sortScores_ranked |].
  intros h Hh. apply list_elem_of_In in Hh. apply elem_of_take in Hh.
  destruct Hh as (i & Hi & _). apply list_elem_of_lookup_2 in Hi.
  apply list_elem_of_In in Hi. apply (proj1 (sortScores_In _ _)) in Hi.
  apply in_app_iff in Hi as [Hi | [Hi | []]]; [right; exact Hi | left].
  symmetry. exact Hi.
Qed.

Lemma ranked_insert_front a l :
  ranked l -> Forall (fun h => (HighScore.score h <= HighScore.score a)%Z) l ->
  insertScore a l = a :: l.
Proof.
  intros _ H. destruct l as [| b l]; [reflexivity |].
  apply insertScore_head. apply Forall_cons in H as (H & _). exact H.
Qed.

Lemma filter_all {A : Type} (f : A -> bool) (l : list A) :
  Forall (fun x => f x = true) l -> List.filter f l = l.
Proof.
  induction 1 as [| x l Hx _ IH]; simpl; [reflexivity |].
  rewrite Hx, IH. reflexivity.
Qed.

Lemma filter_none {A : Type} (f : A -> bool) (l : list A) :
  Forall (fun x => f x = false) l -> List.filter f l = [].
Proof.
  induction 1 as [| x l Hx _ IH]; simpl; [reflexivity |].
  rewrite Hx, IH. reflexivity.
Qed.

(** On a ranked board, sorting after the new entry has been appended puts
    it behind the entries at least as high and in front of the lower
    ones. *)
Lemma sortScores_place prev e :
  ranked prev ->
  sortScores (prev ++ [e]) =
  ahead (HighScore.score e) prev ++ e :: behind (HighScore.score e) prev.
Proof.
  unfold sortScores, ranked. rewrite foldr_app. simpl.
  induction 1 as [| x l Hl IH Hx]; [reflexivity |].
  simpl foldr. rewrite IH. clear IH. unfold ahead, behind. simpl.
  rewrite List.Forall_forall in Hx.
  destruct (HighScore.score e <=? HighScore.score x)%Z eqn:E.
  - apply Z.leb_le in E.
    assert (Hlt : (HighScore.score x <? HighScore.score e)%Z = false)
      by (apply Z.ltb_ge; exact E).
    rewrite Hlt. simpl.
    destruct (List.filter _ l) as [| y l'] eqn:F.
    + simpl. apply insertScore_head, E.
    + simpl app. apply insertScore_head. apply Hx.
      assert (Hy : In y (y :: l')) by (left; reflexivity).
      rewrite <- F in Hy. apply List.filter_In in Hy. apply Hy.
  - apply Z.leb_gt in E.
    assert (Hlt : (HighScore.score x <? HighScore.score e)%Z = true)
      by (apply Z.ltb_lt; exact E).
    rewrite Hlt.
    rewrite filter_none, filter_all.
    + simpl.
      destruct (HighScore.score e - HighScore.score x <=? 0)%Z eqn:E';
        [apply Z.leb_le in E'; lia |].
      f_equal. apply ranked_insert_front; [exact Hl |].
      apply Forall_forall. intros h Hh. apply Hx.
      apply list_elem_of_In, Hh.
    + apply Forall_forall. intros h Hh. apply list_elem_of_In in Hh.
      apply Z.ltb_lt. specialize (Hx h Hh). lia.
    + apply Forall_forall. intros h Hh. apply list_elem_of_In in Hh.
      apply Z.leb_gt. specialize (Hx h Hh). lia.
Qed.

Lemma ranked_split score l :
  ranked l -> ahead score l ++ behind score l = l.
Proof.
  unfold ranked, ahead, behind. induction 1 as [| x l Hl IH Hx]; simpl;
    [reflexivity |].
  rewrite List.Forall_forall in Hx.
  destruct (score <=? HighScore.score x)%Z eqn:E.
  - apply Z.leb_le in E.
    assert (Hlt : (HighScore.score x <? score)%Z = false)
      by (apply Z.ltb_ge; exact E).
    rewrite Hlt. simpl. rewrite IH. reflexivity.
  - apply Z.leb_gt in E.
    assert (Hlt : (HighScore.score x <? score)%Z = true)
      by (apply Z.ltb_lt; exact E).
    rewrite Hlt. rewrite filter_none.
    + simpl. f_equal. apply filter_all.
      apply Forall_forall. intros h Hh. apply list_elem_of_In in Hh.
      apply Z.ltb_lt. specialize (Hx h Hh). lia.
    + apply Forall_forall. intros h Hh. apply list_elem_of_In in Hh.
      apply Z.leb_gt. specialize (Hx h Hh). lia.
Qed.

(** X23. On a ranked board the new entry is placed behind every entry
    whose score is at least as high, so a tie favours the older entry.
    With fewer than five such entries the new entry is on the saved
    board, right behind them; with five or more the saved board is the
    first five entries of the previous one, and a score that only ties
    the fifth place does not get on the board. *)
Theorem high_score_entry_place (prev : list HighScore.t) (score : Z)
  (date : String.string) :
  ranked prev ->
  let entry := HighScore.mk score date in
  let board := saveScore prev score date in
  board = take 5 (ahead score prev ++ entry :: behind score prev) /\
  ((length (ahead score prev) < 5)%nat ->
   board !! length (ahead score prev) = Some entry) /\
  ((5 <= length (ahead score prev))%nat -> board = take 5 prev).
Proof.
  intros H entry board. subst board. unfold saveScore. cbv zeta.
  fold entry. rewrite (sortScores_place prev entry H).
  change (HighScore.score entry) with score.
  split; [reflexivity |]. split.
  - intros Hlt. rewrite lookup_take_lt by exact Hlt.
    apply list_lookup_middle. reflexivity.
  - intros Hge. rewrite take_app_le by exact Hge.
    rewrite <- (ranked_split score prev H) at 2.
    rewrite take_app_le by exact Hge. reflexivity.
Qed.

(** ** Effects emitted during play *)

#[export] Instance stays_mild_preorder : PreOrder stays_mild.
Proof.
  split.
  - intros s H. exact H.
  - intros s1 s2 s3 H12 H23 H. apply H23, H12, H.
Qed.

Lemma stays_mild_same s s' :
  particles s' = particles s -> shockwaves s' = shockwaves s ->
  stays_mild s s'.
Proof. intros Ep Es (Hp & Hs). split; [rewrite Ep | rewrite Es]; assumption. Qed.

Lemma random_stays_mild p : preserves stays_mild (random p).
Proof. intros s. apply stays_mild_same; reflexivity. Qed.

Lemma random_between_stays_mild p a b :
  preserves stays_mild (random_between p a b).
Proof. intros s. apply stays_mild_same; reflexivity. Qed.

Lemma random_max_stays_mild p a : preserves stays_mild (random_max p a).
Proof. intros s. apply stays_mild_same; reflexivity. Qed.

Lemma random_choice_stays_mild {A : Type} p (l : list A) d :
  preserves stays_mild (random_choice p l d).
Proof. intros s. apply stays_mild_same; reflexivity. Qed.

Lemma push_particle_stays_mild s part :
  Particle.alpha part <= 255 ->
  stays_mild s (set_particles s (particles s ++ [part])).
Proof.
  intros H (Hp & Hs). split; proj; [| exact Hs].
  apply Forall_app. split; [exact Hp |]. constructor; [exact H | constructor].
Qed.

Lemma spawnParticles_stays_mild p x y c n :
  preserves stays_mild (spawnParticles p x y c n).
Proof.
  unfold spawnParticles. walk.
  induction n as [| n IH]; simpl; walk.
  - apply random_between_stays_mild.
  - apply random_between_stays_mild.
  - apply push_particle_stays_mild. cbn. lra.
  - exact IH.
Qed.

Lemma spawnShockwave_stays_mild p x y c :
  preserves stays_mild (spawnShockwave p x y c).
Proof.
  unfold spawnShockwave. walk; [apply random_between_stays_mild |].
  intros (Hp & Hs). split; proj; [exact Hp |].
  apply Forall_app. split; [exact Hs |]. constructor; [| constructor].
  cbn. lra.
Qed.

Lemma ambientParticle_stays_mild p sf :
  preserves stays_mild (ambientParticle p sf).
Proof.
  unfold ambientParticle.
  walk;
    lazymatch goal with
    | |- preserves _ (random _) => apply random_stays_mild
    | |- preserves _ (random_max _ _) => apply random_max_stays_mild
    | |- preserves _ (random_between _ _ _) => apply random_between_stays_mild
    | |- _ => apply push_particle_stays_mild; cbn; lra
    end.
Qed.

Lemma steer_stays_mild p ct sf e d md :
  preserves stays_mild (steer p ct sf e d md).
Proof.
  intros s. pose proof (steer_same_standing p ct sf e d md s) as H.
  unfold same_standing, standing in H. injection H. intros.
  apply stays_mild_same; assumption.
Qed.

Lemma updateGameLogic_stays_mild Math_random p :
  preserves stays_mild (updateGameLogic Math_random p).
Proof.
  unfold updateGameLogic, tickTimers, spawnStep, spawnEnemy,
    Math_random_next, updateGameLogic_loop, updateGameLogic_iteration,
    resolveCollision, consume, damage, pruneOffscreen, setScore,
    setFinalSize, setCauseOfDeath, setGameState, playSound, call.
  walk;
    lazymatch goal with
    | |- preserves _ (steer _ _ _ _ _ _) => apply steer_stays_mild
    | |- preserves _ (spawnParticles _ _ _ _ _) =>
        apply spawnParticles_stays_mild
    | |- preserves _ (spawnShockwave _ _ _ _) =>
        apply spawnShockwave_stays_mild
    | |- preserves _ (ambientParticle _ _) => apply ambientParticle_stays_mild
    | |- preserves _ (random _) => apply random_stays_mild
    | |- preserves _ (random_max _ _) => apply random_max_stays_mild
    | |- preserves _ (random_between _ _ _) => apply random_between_stays_mild
    | |- preserves _ (random_choice _ _ _) => apply random_choice_stays_mild
    | |- preserves _ _ => intros s; apply stays_mild_same; reflexivity
    | |- _ => apply stays_mild_same; reflexivity
    end.
Qed.

Lemma refresh_stays {A : Type} (f : A -> A) (dead : A -> bool)
  (P : A -> Prop) (l : list A) :
  (forall x, P x -> P (f x)) -> Forall P l -> Forall P (refresh f dead l).
Proof.
  intros H. apply refresh_Forall. intros x Hx _. apply H, Hx.
Qed.

(** X24. Effects emitted during play are short-lived.  A tick, a call of
    [drawParticles] and a call of [drawShockwaves] each keep every
    particle at alpha 255 or less and every shockwave at alpha 200 or
    less; so once ticks stop, as they do after game over, the particle
    list is empty after 255 frames of [drawParticles] and the shockwave
    list after 20 frames of [drawShockwaves]. *)
Theorem effects_are_short_lived (Math_random : nat -> Q) (p : P5.t)
  (s : Session) :
  mild s ->
  mild (exec (updateGameLogic Math_random p) s) /\
  mild (exec (drawParticles p) s) /\
  mild (exec (drawShockwaves p) s) /\
  (forall ps, length ps = 255%nat ->
     particles (replay drawParticles ps s) = []) /\
  (forall ps, length ps = 20%nat ->
     shockwaves (replay drawShockwaves ps s) = []).
Proof.
  intros H. split; [apply updateGameLogic_stays_mild, H |].
  destruct H as (Hp & Hs).
  split; [| split; [| split]].
  - rewrite drawParticles_sweeps. split; proj; [| exact Hs].
    apply refresh_stays; [| exact Hp].
    intros part Hpart. unfold drift. cbn [Particle.alpha]. lra.
  - rewrite drawShockwaves_sweeps. split; proj; [exact Hp |].
    apply refresh_stays; [| exact Hs].
    intros sw Hsw. unfold advance. cbn [Shockwave.alpha]. lra.
  - intros ps L. destruct ps as [| q ps]; [discriminate |].
    pose proof (particles_cool 255 ps q s Hp) as H.
    destruct (particles (replay drawParticles (q :: ps) s)) as [| part l];
      [reflexivity |].
    apply Forall_cons in H as ((Hpos & Hle) & _).
    cbn [length] in L. rewrite L in Hle.
    change (inject_Z (Z.of_nat 255)) with 255 in Hle. lra.
  - intros ps L. destruct ps as [| q ps]; [discriminate |].
    pose proof (shockwaves_cool 200 ps q s Hs) as H.
    destruct (shockwaves (replay drawShockwaves (q :: ps) s)) as [| sw l];
      [reflexivity |].
    apply Forall_cons in H as ((Hpos & Hle) & _).
    cbn [length] in L. rewrite L in Hle.
    change (inject_Z (Z.of_nat 20)) with 20 in Hle. lra.
Qed.

(** ** Spawning beyond the margin *)

Lemma scaled_bound c v : -1 <= c <= 1 -> 0 <= v -> - v <= c * v <= v.
Proof. intros Hc Hv. split; nra. Qed.

Lemma lerp_between a b k r :
  0 <= k <= 1 -> - r <= a <= r -> - r <= b <= r ->
  - r <= P5.lerp a b k <= r.
Proof. intros Hk Ha Hb. unfold P5.lerp. split; nra. Qed.

Lemma chaseSpeedMultiplier_range v :
  0 <= chaseSpeedMultiplier v <= 2.2.
Proof. destruct v; cbn; lra. Qed.

Lemma steerStrength_range v : 0 <= steerStrength v <= 1.
Proof. destruct v; cbn; lra. Qed.

(** The horizontal velocity that steering gives an enemy stays within
    its reach. *)
Lemma steer_vx_reach p ct sf e d md s :
  tame p -> 0 <= sf -> 0 <= FishEntity.speed e ->
  - reach sf (FishEntity.speed e) <= FishEntity.vx e
    <= reach sf (FishEntity.speed e) ->
  - reach sf (FishEntity.speed e)
  <= FishEntity.vx (fst (fst (steer p ct sf e d md s)))
  <= reach sf (FishEntity.speed e).
Proof.
  intros (Hcos & Hsin & Hnoise) Hsf Hsp Hvx.
  unfold steer, bind, get. cbn [fst snd].
  destruct (chasing _ _ _ _).
  - unfold chase, bind, get, ret. cbv zeta. cbn [fst snd].
    cbn [FishEntity.vx FishEntity.with_vel].
    set (angle := P5.atan2 p _ _). clearbody angle.
    pose proof (chaseSpeedMultiplier_range (FishEntity.variant e)) as Hm.
    pose proof (steerStrength_range (FishEntity.variant e)) as Hk.
    pose proof (Hcos angle) as Hc. pose proof (Hsin angle) as Hs.
    pose proof (Hsin (ct * 0.01)) as Ho.
    revert Hm Hk Hc Hs Ho.
    generalize (chaseSpeedMultiplier (FishEntity.variant e)).
    generalize (steerStrength (FishEntity.variant e)).
    generalize (P5.cos p angle). generalize (P5.sin p angle).
    generalize (P5.sin p (ct * 0.01)).
    intros o sn cs k m Hm Hk Hc Hs Ho.
    assert (Hcm : 0 <= FishEntity.speed e * m <= FishEntity.speed e * 2.2)
      by (split; nra).
    pose proof (scaled_bound cs (FishEntity.speed e * m) Hc (proj1 Hcm))
      as Ht.
    assert (Hosc : - (4 * sf) <= o * (4 * sf) <= 4 * sf)
      by (apply scaled_bound; [exact Ho | lra]).
    assert (Hso : - (4 * sf) <= - sn * (o * (4 * sf)) <= 4 * sf)
      by (split; nra).
    revert Ht Hosc Hso.
    generalize (cs * (FishEntity.speed e * m)).
    generalize (- sn * (o * (4 * sf))).
    intros w t Ht _ Hw. unfold reach in *.
    apply lerp_between.
    + destruct (Qgtb _ _); lra.
    + exact Hvx.
    + destruct (FishVariant_eqb (FishEntity.variant e) Viper); lra.
  - cbn [fst]. unfold wander. cbv zeta.
    cbn [FishEntity.vx FishEntity.with_vel].
    pose proof (Hnoise (FishEntity.noiseOffset e + 1000 + ct * 0.001)) as Hn.
    revert Hn.
    generalize (P5.noise p (FishEntity.noiseOffset e + 1000 + ct * 0.001)).
    intros ns Hn. unfold P5.map.
    assert (Hm : 0.8 <= (ns - 0) / (1 - 0) * (1.2 - 0.8) + 0.8 <= 1.2).
    { assert (E : (ns - 0) / (1 - 0) == ns) by field.
      revert E. generalize ((ns - 0) / (1 - 0)). intros q E. lra. }
    revert Hm. generalize ((ns - 0) / (1 - 0) * (1.2 - 0.8) + 0.8).
    intros m Hm.
    assert (Hw : 0 <=
      (if FishVariant_eqb (FishEntity.variant e) Titan
       then FishEntity.speed e * 0.5 else FishEntity.speed e)
      <= FishEntity.speed e)
      by (destruct (FishVariant_eqb _ _); lra).
    revert Hw.
    generalize (if FishVariant_eqb (FishEntity.variant e) Titan
       then FishEntity.speed e * 0.5 else FishEntity.speed e).
    intros w Hw. unfold reach in *.
    apply lerp_between; [lra | exact Hvx |].
    destruct (Qgtb (FishEntity.vx e) 0); split; nra.
Qed.

(** An iteration on an enemy that ends its move beyond the margin
    removes it, with or without a collision. *)
Lemma iteration_prunes p ct sf i md s e :
  enemies s !! i = Some e ->
  offscreen p sf (steered p ct sf e md s) = true ->
  let s' := exec (updateGameLogic_iteration p ct sf i md) s in
  enemies s' = delete i (enemies s) \/
  enemies s' = delete i (delete i (enemies s)).
Proof.
  intros Hi Hoff s'. subst s'.
  destruct (iteration_shape p ct sf i md s e Hi) as (s0 & _ & Eit).
  rewrite Eit. clear Eit.
  set (e' := steered p ct sf e md s) in *.
  set (d := P5.dist p _ _ _ _).
  set (s1 := set_enemies s0 (<[i := e']> (enemies s))).
  rewrite pruneOffscreen_enemies, Hoff.
  assert (E1 : enemies s1 = <[i := e']> (enemies s)) by reflexivity.
  assert (H : enemies (exec (resolveCollision p sf i e' d) s1) = enemies s1
              \/ enemies (exec (resolveCollision p sf i e' d) s1) =
                 delete i (enemies s1)).
  { destruct (colliding (player s1) e' d) eqn:Hc.
    - destruct (Qgeb (FishEntity.size (player s1)) (FishEntity.size e'))
        eqn:Hge; unfold exec.
      + rewrite resolveCollision_consume by assumption. right.
        apply (consume_fields p sf i e' s1).
      + rewrite resolveCollision_damage by assumption. left.
        fold (exec (damage p sf e') s1).
        destruct (Qlt_le_dec 0 (invulnTimer s1)) as [Ht | Ht].
        * rewrite damage_shielded by exact Ht. reflexivity.
        * apply (damage_fields p sf e' s1 Ht).
    - rewrite resolveCollision_miss_exec by exact Hc. left. reflexivity. }
  destruct H as [-> | ->]; rewrite E1, delete_insert_same; [left | right];
    reflexivity.
Qed.

Lemma delete_last_twice {A : Type} (l : list A) (x : A) :
  delete (length l) (l ++ [x]) = l /\
  delete (length l) (delete (length l) (l ++ [x])) = l.
Proof.
  assert (E : delete (length l) (l ++ [x]) = l).
  { rewrite delete_middle. apply app_nil_r. }
  split; [exact E |]. rewrite E.
  rewrite delete_take_drop, take_ge, drop_ge by lia. apply app_nil_r.
Qed.

Lemma steer_x p ct sf e d md s :
  FishEntity.x (fst (fst (steer p ct sf e d md s))) = FishEntity.x e.
Proof.
  unfold steer, bind, get. cbn [fst snd].
  destruct (chasing _ _ _ _); reflexivity.
Qed.

(** An enemy further beyond the margin than its reach is off-screen
    after its move, whatever it does. *)
Lemma steered_offscreen p ct sf e md s :
  tame p -> 0 <= sf -> 0 <= FishEntity.speed e ->
  - reach sf (FishEntity.speed e) <= FishEntity.vx e
    <= reach sf (FishEntity.speed e) ->
  FishEntity.x e + reach sf (FishEntity.speed e) < -300 * sf \/
  P5.width p + 300 * sf < FishEntity.x e - reach sf (FishEntity.speed e) ->
  offscreen p sf (steered p ct sf e md s) = true.
Proof.
  intros Ht Hsf Hsp Hvx Hfar. unfold steered, offscreen, move.
  cbn [FishEntity.x FishEntity.with_pos].
  set (d := P5.dist p _ _ _ _).
  rewrite steer_x.
  pose proof (steer_vx_reach p ct sf e d md s Ht Hsf Hsp Hvx) as Hv.
  revert Hv. generalize (FishEntity.vx (fst (fst (steer p ct sf e d md s)))).
  intros v Hv. apply orb_true_iff.
  destruct Hfar as [Hl | Hr]; [left; apply Qltb_lt | right; apply Qgtb_gt];
    lra.
Qed.

Lemma spawnStep_cases Math_random p ct s :
  (Qgtb (ct - lastSpawnTime s)
     (activeSpawnInterval (scoreRef s) (length (enemies s))) = false /\
   exec (spawnStep Math_random p ct) s = s) \/
  (Qgtb (ct - lastSpawnTime s)
     (activeSpawnInterval (scoreRef s) (length (enemies s))) = true /\
   exec (spawnStep Math_random p ct) s =
   set_lastSpawnTime (exec (spawnEnemy Math_random p) s) ct).
Proof.
  unfold spawnStep. run. destruct (Qgtb _ _); [right | left];
    split; reflexivity.
Qed.

(** What [spawnStep] pushes, when it pushes: an enemy in the bands of its
    variant, two sizes beyond an edge, moving at its cruising speed, which
    is at most [7 * sf]. *)
Lemma spawnStep_pushed Math_random p ct s e :
  fair p -> 0 < scaleFactor s -> 0 < FishEntity.size (player s) ->
  enemies (exec (spawnStep Math_random p ct) s) = enemies s ++ [e] ->
  banded (FishEntity.size (player s)) (scaleFactor s)
    (FishEntity.variant e) (FishEntity.size e) (FishEntity.speed e) /\
  0 <= FishEntity.speed e <= 7 * scaleFactor s /\
  ((FishEntity.x e = - FishEntity.size e * 2 /\
    FishEntity.vx e = FishEntity.speed e) \/
   (FishEntity.x e = P5.width p + FishEntity.size e * 2 /\
    FishEntity.vx e = - FishEntity.speed e)) /\
  scaleFactor (exec (spawnStep Math_random p ct) s) = scaleFactor s.
Proof.
  intros Hfair Hsf Hp He.
  destruct (spawnStep_cases Math_random p ct s) as [(_ & E) | (_ & E)];
    rewrite E in *.
  - exfalso. apply (f_equal length) in He. rewrite length_app in He.
    cbn in He. lia.
  - destruct (spawnEnemy_banded Math_random p s Hfair Hsf Hp)
      as (e0 & He0 & Hb & _ & Hx & _).
    pose proof (spawnEnemy_frame Math_random p s) as Hf.
    unfold exec in *. revert He He0 Hf.
    generalize (snd (spawnEnemy Math_random p s)). intros s1 He He0 Hf.
    cbn [enemies set_lastSpawnTime] in He. rewrite He0 in He.
    apply app_inj_tail in He as (_ & <-).
    unfold same_on in Hf. injection Hf as Esf _ _.
    split; [exact Hb |]. split; [| split; [exact Hx | exact Esf]].
    unfold banded in Hb.
    destruct (FishEntity.variant e0); try contradiction;
      repeat match goal with H : _ /\ _ |- _ => destruct H end; split; nra.
Qed.

(** X25. An oversized spawn is lost at once.  With draws in [[0, 1)] and
    [p.cos], [p.sin], [p.noise] in their ranges, an enemy that the spawn
    step pushes with a size of [160 * sf] or more starts further beyond
    the [300 * sf] margin than it can swim in a frame, so the enemy loop
    of the same tick removes it: after the tick the enemies are survivors
    of the enemies before it.  A titan is spawned at 1.8 to 3 times the
    player's size, so this is the fate of every titan once the player's
    size is [89 * sf] or more. *)
Theorem oversized_spawn_is_lost (Math_random : nat -> Q) (p : P5.t)
  (s : Session) :
  fair p -> tame p ->
  0 < scaleFactor s -> 0 < FishEntity.size (player s) ->
  let s1 := exec (tickTimers (P5.deltaTime p)) s in
  let s2 := exec (spawnStep Math_random p (P5.millis p)) s1 in
  let s' := exec (updateGameLogic Math_random p) s in
  forall e,
    enemies s2 = enemies s ++ [e] ->
    160 * scaleFactor s <= FishEntity.size e \/
    (FishEntity.variant e = Titan /\
     89 * scaleFactor s <= FishEntity.size (player s)) ->
    sublist (FishEntity.static <$> enemies s')
            (FishEntity.static <$> enemies s).
Proof.
  intros Hfair Htame Hsf Hp s1 s2 s' e He Hbig. subst s'.
  rewrite updateGameLogic_split. fold s1.
  destruct (tickTimers_fields (P5.deltaTime p) s)
    as (_ & _ & _ & Een & Esf & _ & Epl).
  cbv zeta in Een, Esf, Epl. fold s1 in Een, Esf, Epl.
  rewrite <- Een in He. rewrite <- Een.
  rewrite <- Esf in Hsf, Hbig. rewrite <- Epl in Hp, Hbig.
  destruct (spawnStep_pushed Math_random p (P5.millis p) s1 e Hfair Hsf Hp He)
    as (Hb & Hspeed & Hx & Esf2).
  fold s2 in Esf2.
  assert (Hsize : 160 * scaleFactor s1 <= FishEntity.size e).
  { destruct Hbig as [H | (Hv & H)]; [exact H |].
    unfold banded in Hb. rewrite Hv in Hb. lra. }
  clear Hbig Hb.
  unfold exec at 1. unfold bind at 1. cbv zeta.
  fold (exec (spawnStep Math_random p (P5.millis p)) s1). fold s2.
  clearbody s2. clearbody s1.
  set (sf := scaleFactor s) in *. rewrite Esf in *. clear Esf Epl Een.
  unfold bind at 1. cbv zeta.
  unfold updateGameLogic_loop. rewrite bind_get. rewrite He, length_app.
  cbn [length]. rewrite Nat.add_1_r. cbn [for_down].
  unfold bind at 3. cbv zeta.
  set (n := length (enemies s1)).
  assert (Hi : enemies s2 !! n = Some e).
  { rewrite He. apply list_lookup_middle. reflexivity. }
  assert (Hoff : offscreen p sf (steered p (P5.millis p) sf e 0 s2) = true).
  { apply steered_offscreen; [exact Htame | lra | lra | |];
      unfold reach.
    - destruct Hx as [(_ & ->) | (_ & ->)]; split; lra.
    - destruct Hx as [(-> & _) | (-> & _)]; [left | right]; lra. }
  pose proof (iteration_prunes p (P5.millis p) sf n 0 s2 e Hi Hoff) as Hpr.
  cbv zeta in Hpr. unfold exec in Hpr.
  rewrite He in Hpr. subst n.
  destruct (delete_last_twice (enemies s1) e) as (D1 & D2).
  rewrite D2, D1 in Hpr.
  assert (E3 : enemies
    (snd (updateGameLogic_iteration p (P5.millis p) sf
            (length (enemies s1)) 0 s2)) = enemies s1)
    by (destruct Hpr; assumption).
  clear Hpr D1 D2 Hi Hoff.
  revert E3.
  generalize (updateGameLogic_iteration p (P5.millis p) sf
                (length (enemies s1)) 0 s2).
  intros [md s3] E3. cbn [fst snd] in *.
  pose proof (preserves_for_down kept
                (updateGameLogic_iteration p (P5.millis p) sf)
                (fun i a => iteration_kept p (P5.millis p) sf i a)
                (length (enemies s1)) md s3) as K.
  unfold kept in K. rewrite E3 in K. revert K.
  generalize (for_down (length (enemies s1))
                (updateGameLogic_iteration p (P5.millis p) sf) md s3).
  intros [md' s4] K. cbn [fst snd] in *.
  unfold bind, modify. cbn [fst snd].
  match goal with
  | |- context [snd (ambientParticle p sf ?S)] =>
      destruct (same_core_fields _ _ (ambientParticle_same_core p sf S))
        as (_ & _ & E4 & _)
  end.
  rewrite E4. proj. exact K.
Qed.

(** ** The further properties at concrete sessions *)

Lemma fair_halves millis deltaTime : fair (demoP5 millis deltaTime halves).
Proof. intros k. split; [discriminate | reflexivity]. Qed.

(** X3 at [ripple]: the shockwave of alpha 200 and 20 frames. *)
Lemma shockwaves_fade_out_witness :
  shockwaves (replay drawShockwaves (replicate 20 quietP5) ripple) = [].
Proof.
  apply (shockwaves_fade_out (replicate 20 quietP5) ripple).
  - discriminate.
  - repeat constructor. vm_compute. discriminate.
Defined.

(** X4 at [fadingBurst]: a particle of alpha 2 and 2 frames. *)
Lemma particles_fade_out_witness :
  particles (replay drawParticles [quietP5; quietP5] fadingBurst) = [].
Proof.
  apply (particles_fade_out [quietP5; quietP5] fadingBurst).
  - discriminate.
  - repeat constructor. vm_compute. discriminate.
Defined.

(** X5 at [shaken]: the shake of 40 becomes 36. *)
Lemma shake_step_settles_witness :
  0 <= screenShake shaken /\
  screenShake (exec (shakeStep quietP5) shaken) <= 0.9 * screenShake shaken.
Proof.
  assert (H : 0 <= screenShake shaken) by (vm_compute; discriminate).
  split; [exact H |].
  apply (shake_step_settles quietP5 shaken H).
Defined.

(** X6 at [shaken]: [40 * 0.9 ^ 42 < 0.5]. *)
Lemma shake_dies_out_witness :
  screenShake (replay shakeStep (replicate 42 quietP5) shaken) == 0.
Proof.
  apply (shake_dies_out (replicate 42 quietP5) shaken).
  - discriminate.
  - vm_compute. discriminate.
  - vm_compute. reflexivity.
Defined.

(** X7 at [shaken]: the flash of 1 after 20 frames. *)
Lemma flash_fades_witness :
  damageEffectVal (Nat.iter 20 (exec flashStep) shaken) <= 0.01.
Proof.
  apply (flash_fades 20 shaken).
  - vm_compute. reflexivity.
  - vm_compute. discriminate.
Defined.

(** X9 at [freshGame]. *)
Lemma spawned_enemy_fits_witness :
  exists e,
    enemies (exec (spawnEnemy halves quietP5) freshGame) = [e] /\
    0 < FishEntity.speed e.
Proof.
  destruct (spawned_enemy_fits halves quietP5 freshGame)
    as (e & He & _ & Hs & _).
  - apply fair_halves.
  - vm_compute. reflexivity.
  - vm_compute. reflexivity.
  - exists e. split; [exact He | exact Hs].
Defined.

Lemma thriving_titanHit : thriving titanHit.
Proof.
  split; [vm_compute; reflexivity |]. split; [vm_compute; reflexivity |].
  repeat constructor.
Qed.

(** X10 at [titanHit]. *)
Lemma tick_never_shrinks_witness :
  (scoreRef titanHit <=
   scoreRef (exec (updateGameLogic halves quietP5) titanHit))%Z.
Proof.
  apply (tick_never_shrinks halves quietP5 titanHit).
  - apply fair_halves.
  - apply thriving_titanHit.
Defined.

(** X11 at [titanHit]: health starts at 40. *)
Lemma one_hit_per_tick_witness :
  playerHealth titanHit <= 100 /\
  exists evs,
    calls (exec (updateGameLogic halves quietP5) titanHit) =
      evs ++ calls titanHit /\
    (hurtCount evs <= 1)%nat.
Proof.
  assert (H : playerHealth titanHit <= 100) by (vm_compute; discriminate).
  split; [exact H |].
  destruct (one_hit_per_tick halves quietP5 titanHit H) as (evs & E & N & _).
  exists evs. split; [exact E | exact N].
Defined.

(** X12 at [freshGame]: a spawn at 1000 ms, the next frame at 1200 ms. *)
Lemma spawns_keep_apart_witness :
  let s1 := exec (updateGameLogic halves spawnP5) freshGame in
  let s2 := exec (updateGameLogic halves soonP5) s1 in
  (length (enemies s2) <= length (enemies s1))%nat.
Proof.
  apply (spawns_keep_apart halves spawnP5 soonP5 freshGame).
  - vm_compute. lia.
  - vm_compute. discriminate.
Defined.

(** X13 at [cruiser]. *)
Lemma wander_keeps_heading_witness :
  0 < FishEntity.vx cruiser /\
  0 < FishEntity.vx (wander quietP5 100 1 cruiser).
Proof.
  assert (H : 0 < FishEntity.vx cruiser) by reflexivity.
  split; [exact H |].
  destruct (wander_keeps_heading quietP5 100 1 cruiser) as (Hpos & _).
  - intros t. split; [discriminate | discriminate].
  - discriminate.
  - vm_compute. discriminate.
  - apply Hpos, H.
Defined.

(** X14 at [freshGame], before any video frame was seen, with a hand in
    the middle of the image. *)
Lemma hand_keeps_player_on_canvas_witness :
  let t' :=
    handleHandInput quietP5 100 demoCamera (mkTracking freshGame (-1)) in
  0 <= FishEntity.x (player (game t')) <= P5.width quietP5 /\
  lastVideoTime t' = Video.currentTime demoVideo.
Proof.
  destruct (hand_keeps_player_on_canvas quietP5 100 demoCamera
              (mkTracking freshGame (-1)))
    as (Hx & _ & _ & _ & _ & _ & Hfresh & _).
  - discriminate.
  - discriminate.
  - split; vm_compute; discriminate.
  - split; vm_compute; discriminate.
  - split; [exact Hx |].
    apply (Hfresh _ demoVideo eq_refl eq_refl eq_refl). discriminate.
Defined.

(** X15 at [freshGame] with a hand in the middle of the image. *)
Lemma hand_is_mirrored_witness :
  let s' :=
    game (handleHandInput quietP5 100 demoCamera
            (mkTracking freshGame (-1))) in
  FishEntity.vx (player s') =
    FishEntity.x (player s') - FishEntity.x (player freshGame).
Proof.
  assert (Hw : 0 < P5.width quietP5) by reflexivity.
  assert (Hc : ~ Video.currentTime demoVideo
                 == lastVideoTime (mkTracking freshGame (-1)))
    by discriminate.
  apply (hand_is_mirrored quietP5 100 demoCamera (mkTracking freshGame (-1))
           _ demoVideo demoHand [] centerHand Hw eq_refl eq_refl eq_refl Hc
           eq_refl eq_refl).
Defined.

(** X16 at [freshGame]: the player is at rest. *)
Lemma audio_targets_bounded_witness :
  200 <= fst (updateAudioDynamics freshGame) <= 1200.
Proof.
  apply (audio_targets_bounded freshGame). reflexivity.
Defined.

(** X17 on the canvas of [quietP5]. *)
Lemma setup_starts_sound_witness :
  thriving (refs (setup quietP5 (demoScene titanHit))).
Proof.
  apply (setup_starts_sound quietP5 (demoScene titanHit)); reflexivity.
Defined.

(** X18 at [titanHit] and [shieldedMeal]: two games in different states. *)
Lemma reset_forgets_previous_game_witness :
  resetGame quietP5 (demoScene titanHit) =
  resetGame quietP5 (demoScene shieldedMeal).
Proof.
  apply (reset_forgets_previous_game quietP5 (demoScene titanHit)
           (demoScene shieldedMeal)); reflexivity.
Defined.

(** X20 at [demoScene]: a plankton left of the canvas and below it, and a
    bubble about to leave through the top. *)
Lemma atmosphere_stays_in_view_witness :
  let sc' := drawWaterAtmosphere quietP5 (demoScene freshGame) in
  length (plankton sc') = length (plankton (demoScene freshGame)).
Proof.
  apply (atmosphere_stays_in_view quietP5 (demoScene freshGame));
    discriminate.
Defined.

(** X21 at 125 seconds and 300 ms. *)
Lemma survival_time_reads_back_witness :
  formattedTime 125300 = MinutesSeconds 2 5 /\
  (1000 * (60 * 2 + 5) <= 125300 < 1000 * (60 * 2 + 5 + 1))%Z.
Proof.
  split; [reflexivity |].
  apply (survival_time_reads_back 125300). lia.
Defined.

Lemma ranked_demoBoard : ranked demoBoard.
Proof. repeat constructor; cbn; lia. Qed.

(** X23 at [demoBoard] with a score that ties the last two entries. *)
Lemma high_score_entry_place_witness :
  saveScore demoBoard 120 String.EmptyString !! 3%nat =
  Some (HighScore.mk 120 String.EmptyString).
Proof.
  apply (high_score_entry_place demoBoard 120 String.EmptyString
           ranked_demoBoard).
  vm_compute. lia.
Defined.

(** X24 at [fadingBurst]. *)
Lemma effects_are_short_lived_witness :
  mild (exec (updateGameLogic halves quietP5) fadingBurst).
Proof.
  apply (effects_are_short_lived halves quietP5 fadingBurst).
  split; [repeat constructor; discriminate | constructor].
Defined.

Lemma tame_demoP5 millis deltaTime draws : tame (demoP5 millis deltaTime draws).
Proof.
  split; [| split].
  - intros a. cbn. unfold demo_cos.
    destruct (Qeq_bool a 0); [split; discriminate |].
    destruct (Qeq_bool a 2); split; discriminate.
  - intros a. cbn. unfold demo_sin.
    destruct (Qeq_bool a 1); [split; discriminate |].
    destruct (Qeq_bool a (-1)); split; discriminate.
  - intros t. split; discriminate.
Qed.

Lemma fair_titanDraws millis deltaTime :
  fair (demoP5 millis deltaTime titanDraws).
Proof.
  intros [| [| k]]; (split; [discriminate | reflexivity]).
Qed.

(** X25 at [lateGame]: the titan of size 240 starts at [1280 + 480]. *)
Lemma oversized_spawn_is_lost_witness :
  FishEntity.variant lostTitan = Titan /\
  sublist
    (FishEntity.static <$>
     enemies (exec (updateGameLogic halves titanP5) lateGame))
    (FishEntity.static <$> enemies lateGame).
Proof.
  split; [reflexivity |].
  apply (oversized_spawn_is_lost halves titanP5 lateGame
           (fair_titanDraws 1000 16) (tame_demoP5 1000 16 titanDraws)
           ltac:(reflexivity) ltac:(reflexivity) lostTitan).
  - vm_compute. reflexivity.
  - left. vm_compute. discriminate.
Defined.
